(** * LTspice optimizer: netlist codec, synchronizer, objective and E-series quantizer

    A shallow embedding of [LTspice_opt.py].

    Conventions of the embedding:
    - a Python [str] is a Rocq [string] whose characters are the code points
      below 256 (Latin-1); this covers the micro sign [chr(181)];
    - a numpy/Python float is an exact rational ([Q]); comparisons, sums,
      products and quotients are the exact ones, [10.0 ** k] is [pow10 k], and
      [floor(log10 x)] / [ceil(log10 x)] are the exact decade exponents;
    - a Python list assigned by index is a [list] with stdpp's lookup and
      insert, an index out of range being an explicit [IndexError];
    - a function that can raise or call [sys.exit()] returns an [outcome]. *)

From Stdlib Require Import QArith Qpower Qround Qabs Lqa Lia ZArith Ascii String List Bool.
From stdpp Require Import base list strings sorting.

Open Scope Z_scope.

(** ** Outcomes of a call *)

Inductive failure : Type :=
| SysExit            (* sys.exit() *)
| ValueError
| IndexError
| NameError          (* a local that was never bound *)
| Hang.              (* a loop that was still running when the fuel ran out *)

Inductive outcome (A : Type) : Type :=
| Ok (a : A)
| Fail (f : failure).
Arguments Ok {A} a.
Arguments Fail {A} f.

#[global] Instance outcome_ret : MRet outcome := fun A a => Ok a.

#[global] Instance outcome_bind : MBind outcome := fun A B k m =>
  match m with
  | Ok a => k a
  | Fail f => Fail f
  end.

Definition of_option {A : Type} (f : failure) (o : option A) : outcome A :=
  match o with
  | Some a => Ok a
  | None => Fail f
  end.

(** ** Powers of ten *)

(** [10.0 ** k] for an integer [k]. *)
Definition pow10 (k : Z) : Q :=
  if 0 <=? k then inject_Z (10 ^ k) else 1 # Z.to_pos (10 ^ (- k)).

(** ** Value codec: engineering-notation tokens to numbers ([main], nominal values) *)

Module Codec.

(** The micro sign, [chr(181)]. *)
Definition micro : ascii := ascii_of_nat 181.

(** [s.replace(old, new)] for a non-empty [old] (every call site passes a
    non-empty literal): a left-to-right scan replacing non-overlapping
    occurrences. [skip] counts the characters of a match still to be dropped. *)
Fixpoint replace_from (old new : string) (skip : nat) (s : string) : string :=
  match s with
  | EmptyString => EmptyString
  | String c s' =>
      match skip with
      | S k => replace_from old new k s'
      | O =>
          if String.prefix old (String c s')
          then new +:+ replace_from old new (String.length old - 1) s'
          else String c (replace_from old new 0 s')
      end
  end.

Definition replace (old new s : string) : string := replace_from old new 0 s.

(** [str.lower()] on Latin-1: A-Z and the accented capitals 192-222 (but not
    the multiplication sign 215) move up by 32. *)
Definition lower_char (c : ascii) : ascii :=
  let n := N_of_ascii c in
  if (((65 <=? n) && (n <=? 90)) || ((192 <=? n) && (n <=? 222) && negb (n =? 215)))%N
  then ascii_of_N (n + 32)
  else c.

Fixpoint lower (s : string) : string :=
  match s with
  | EmptyString => EmptyString
  | String c s' => String (lower_char c) (lower s')
  end.

Definition is_digit (c : ascii) : bool :=
  let n := N_of_ascii c in ((48 <=? n) && (n <=? 57))%N.

Definition digit_val (c : ascii) : Z := Z.of_N (N_of_ascii c) - 48.

(** The characters with Unicode property Numeric_Type below 256: the digits,
    superscripts 1-3 and the vulgar fractions. *)
Definition is_numeric_char (c : ascii) : bool :=
  let n := N_of_ascii c in
  (is_digit c || (n =? 178) || (n =? 179) || (n =? 185)
   || (n =? 188) || (n =? 189) || (n =? 190))%N.

Fixpoint all_chars (p : ascii -> bool) (s : string) : bool :=
  match s with
  | EmptyString => true
  | String c s' => p c && all_chars p s'
  end.

(** [str.isnumeric()]: non-empty and every character numeric. *)
Definition isnumeric (s : string) : bool :=
  match s with
  | EmptyString => false
  | _ => all_chars is_numeric_char s
  end.

(** *** [float(str)] on decimal literals

    The grammar is Python's: [sign? (digitpart ('.' digitpart?)? | '.' digitpart)
    (('e'|'E') sign? digitpart)?] where a digitpart is a run of digits that may
    be separated by single underscores. Tokens come from [str.split()], so they
    carry no white space to strip. The spellings [inf], [infinity] and [nan]
    are not decimal literals and are answered [None] here; none of them can
    reach the call below, since each contains the letter n. *)

Fixpoint digitpart_from (prev_digit : bool) (s : string) (acc : Z) (n : nat)
  : option (Z * nat) :=
  match s with
  | EmptyString => if prev_digit then Some (acc, n) else None
  | String c s' =>
      if is_digit c then digitpart_from true s' (10 * acc + digit_val c) (S n)
      else if Ascii.eqb c "_" then
        (if prev_digit then digitpart_from false s' acc n else None)
      else None
  end.

Definition digitpart (s : string) : option (Z * nat) := digitpart_from false s 0 0.

Definition digitpart_opt (s : string) (acc : Z) : option (Z * nat) :=
  match s with
  | EmptyString => Some (acc, 0%nat)
  | _ => digitpart_from false s acc 0
  end.

(** Cut a string at the first character satisfying [p]. *)
Fixpoint split_at (p : ascii -> bool) (s : string) : string * option string :=
  match s with
  | EmptyString => (EmptyString, None)
  | String c s' =>
      if p c then (EmptyString, Some s')
      else let '(a, b) := split_at p s' in (String c a, b)
  end.

Definition parse_sign (s : string) : bool * string :=
  match s with
  | String "-" s' => (true, s')
  | String "+" s' => (false, s')
  | _ => (false, s)
  end.

Definition signed (neg : bool) (z : Z) : Z := if neg then - z else z.

(** The mantissa as an integer of all its digits and the number of digits
    after the point. *)
Definition parse_mantissa (m : string) : option (Z * nat) :=
  let '(neg, body) := parse_sign m in
  let '(ip, ofp) := split_at (Ascii.eqb ".") body in
  match ofp with
  | None =>
      match digitpart ip with
      | Some (i, _) => Some (signed neg i, 0%nat)
      | None => None
      end
  | Some fp =>
      match ip, fp with
      | EmptyString, EmptyString => None
      | _, _ =>
          match digitpart_opt ip 0 with
          | Some (i, _) =>
              match digitpart_opt fp i with
              | Some (m, f) => Some (signed neg m, f)
              | None => None
              end
          | None => None
          end
      end
  end.

Definition parse_exponent (e : string) : option Z :=
  let '(neg, body) := parse_sign e in
  match digitpart body with
  | Some (k, _) => Some (signed neg k)
  | None => None
  end.

Definition is_e (c : ascii) : bool := Ascii.eqb c "e" || Ascii.eqb c "E".

Definition scaled (m : Z) (k : Z) : Q := (inject_Z m * pow10 k)%Q.

Definition pyfloat (s : string) : option Q :=
  let '(m, oe) := split_at is_e s in
  match parse_mantissa m with
  | None => None
  | Some (mz, f) =>
      match oe with
      | None => Some (scaled mz (- Z.of_nat f))
      | Some es =>
          match parse_exponent es with
          | Some k => Some (scaled mz (k - Z.of_nat f))
          | None => None
          end
      end
  end.

(** *** The token parser of [main] (the loop body filling [nomParams]) *)

(** The substitutions applied when the token is not numeric, in source order. *)
Definition subst_suffixes (newStr : string) : string :=
  let newStr := replace "M" "e6" newStr in
  let newStr := replace "G" "e9" newStr in
  let newStr := lower newStr in
  let newStr := replace "k" "e3" newStr in
  let newStr := replace "pf" "e-12" newStr in
  let newStr := replace "ph" "e-12" newStr in
  let newStr := replace "p" "e-12" newStr in
  let newStr := replace "nf" "e-9" newStr in
  let newStr := replace "nh" "e-9" newStr in
  let newStr := replace "n" "e-9" newStr in
  let newStr := replace "uf" "e-6" newStr in
  let newStr := replace "uh" "e-6" newStr in
  let newStr := replace "u" "e-6" newStr in
  let newStr := replace "mf" "e-3" newStr in
  let newStr := replace "mh" "e-3" newStr in
  let newStr := replace "m" "e-3" newStr in
  newStr.

Definition parse_value (tok : string) : outcome Q :=
  let newStr := replace (String micro EmptyString) "u" tok in
  let newStr := if negb (isnumeric newStr) then subst_suffixes newStr else newStr in
  of_option ValueError (pyfloat newStr).

(** *** Vocabulary of the codec's properties *)

(** Characters of a bare numeral: nothing a substitution or [lower] touches. *)
Definition plain_char (c : ascii) : bool :=
  is_digit c || Ascii.eqb c "." || Ascii.eqb c "+" || Ascii.eqb c "-" || Ascii.eqb c "_".

Definition plain (s : string) : bool := all_chars plain_char s.

(** The suffixes of the codec with their decimal exponent. *)
Definition suffixes : list (string * Z) :=
  [ ("k", 3); ("K", 3); ("M", 6); ("G", 9); ("m", -3); ("u", -6); ("n", -9); ("p", -12);
    ("pF", -12); ("pH", -12); ("nF", -9); ("nH", -9); ("uF", -6); ("uH", -6);
    ("mF", -3); ("mH", -3);
    (String micro "", -6); (String micro "F", -6); (String micro "H", -6) ]%string.

End Codec.

(** ** Decade exponents and rounding of exact values *)

Module Numeric.

(** Number of decimal digits of a positive integer, minus one. *)
Fixpoint ilog10_fuel (fuel : nat) (a : Z) : Z :=
  match fuel with
  | O => 0
  | S f => if a <? 10 then 0 else 1 + ilog10_fuel f (a / 10)
  end.

Definition ilog10 (a : Z) : Z := ilog10_fuel (S (Z.to_nat (Z.log2 a))) a.

(** [floor(log10 x)] for [x > 0]: the quotient of a [la+1]-digit numerator by
    an [lb+1]-digit denominator lies strictly between [10^(la-lb-1)] and
    [10^(la-lb+1)], so one comparison decides. *)
Definition floor_log10 (x : Q) : Z :=
  let k := ilog10 (Qnum x) - ilog10 (Zpos (Qden x)) in
  if Qle_bool (pow10 k) x then k else k - 1.

(** [ceil(log10 x)] for [x > 0]. *)
Definition ceil_log10 (x : Q) : Z :=
  let k := floor_log10 x in
  if Qeq_bool x (pow10 k) then k else k + 1.

(** Round to the nearest integer, ties to even. *)
Definition round_half_even (x : Q) : Z :=
  let f := Qfloor x in
  match (x - inject_Z f ?= 1 # 2)%Q with
  | Lt => f
  | Gt => f + 1
  | Eq => if Z.even f then f else f + 1
  end.

End Numeric.

(** ** Float to token: the format specification [.12e] *)

Module Format.
Import Numeric.

Definition digit_char (d : Z) : ascii := ascii_of_N (Z.to_N (48 + d)).

(** The last [n] decimal digits of [m], most significant first. *)
Fixpoint digits_fixed (n : nat) (m : Z) (acc : string) : string :=
  match n with
  | O => acc
  | S n' => digits_fixed n' (m / 10) (String (digit_char (m mod 10)) acc)
  end.

Fixpoint dec_digits (fuel : nat) (n : Z) (acc : string) : string :=
  match fuel with
  | O => acc
  | S f =>
      let acc' := String (digit_char (n mod 10)) acc in
      if n <? 10 then acc' else dec_digits f (n / 10) acc'
  end.

(** Sign and at least two digits. *)
Definition exponent_text (e : Z) : string :=
  let a := Z.abs e in
  let ds := dec_digits (S (Z.to_nat (Z.log2 a))) a EmptyString in
  String (if e <? 0 then "-"%char else "+"%char) (if a <? 10 then String "0" ds else ds).

(** Mantissa (as an integer of [prec + 1] digits) and decimal exponent. *)
Definition decompose (prec : nat) (a : Q) : Z * Z :=
  if Qeq_bool a 0 then (0, 0)
  else
    let e0 := floor_log10 a in
    let m0 := round_half_even (a / pow10 (e0 - Z.of_nat prec)) in
    if m0 =? 10 ^ (Z.of_nat prec + 1) then (10 ^ Z.of_nat prec, e0 + 1) else (m0, e0).

(** [f'{x:.<prec>e}'] for a finite [x]. *)
Definition format_e (prec : nat) (x : Q) : string :=
  let '(m, e) := decompose prec (Qabs x) in
  let body :=
    match digits_fixed (S prec) m EmptyString with
    | String d rest =>
        String d (match prec with O => rest | S _ => String "." rest end)
    | EmptyString => EmptyString
    end in
  (if Qlt_le_dec x 0 then "-" else "") +:+ body +:+ String "e" (exponent_text e).

(** *** Shapes of tokens *)

(** [digit '.' frac 'e' sign digits digits+] with exactly [frac] digits after
    the point, behind an optional minus sign. *)
Definition is_exp_body (frac : nat) (s : string) : bool :=
  match s with
  | String d (String pt rest) =>
      Codec.is_digit d && Ascii.eqb pt "." &&
      (let '(fr, oe) := Codec.split_at (Ascii.eqb "e") rest in
       Codec.all_chars Codec.is_digit fr && Nat.eqb (String.length fr) frac &&
       match oe with
       | Some (String sg ex) =>
           (Ascii.eqb sg "+" || Ascii.eqb sg "-") &&
           Codec.all_chars Codec.is_digit ex && Nat.leb 2 (String.length ex)
       | _ => false
       end)
  | _ => false
  end.

Definition is_exp_token (frac : nat) (s : string) : bool :=
  match s with
  | String c s' => if Ascii.eqb c "-" then is_exp_body frac s' else is_exp_body frac s
  | EmptyString => false
  end.

(** Number of digits of the mantissa (the digits before the exponent mark):
    the significant digits the token carries. *)
Fixpoint mantissa_digits (s : string) : nat :=
  match s with
  | EmptyString => 0
  | String c s' =>
      if Ascii.eqb c "e" then 0%nat
      else ((if Codec.is_digit c then 1 else 0) + mantissa_digits s')%nat
  end.

(** The first digit of the mantissa is not 0: the value is normalized. *)
Definition leading_nonzero (s : string) : bool :=
  match s with
  | String c s' =>
      let d := if Ascii.eqb c "-" then match s' with String d _ => d | EmptyString => c end
               else c in
      Codec.is_digit d && negb (Ascii.eqb d "0")
  | EmptyString => false
  end.

(** What [.12e] prints for zero. *)
Definition zero_token : string := "0.000000000000e+00".

(** No ASCII letter other than the exponent mark. *)
Definition no_suffix_letter (s : string) : bool :=
  Codec.all_chars
    (fun c => Codec.is_digit c || Ascii.eqb c "." || Ascii.eqb c "e"
              || Ascii.eqb c "+" || Ascii.eqb c "-") s.

End Format.

(** ** Python lists and loops *)

Module Py.

(** [l[i]] for [0 <= i]. *)
Definition get_item {A : Type} (l : list A) (i : nat) : outcome A :=
  of_option IndexError (l !! i).

(** [l[i] = x] for [0 <= i]. *)
Definition set_item {A : Type} (l : list A) (i : nat) (x : A) : outcome (list A) :=
  if decide (i < length l)%nat then Ok (<[i:=x]> l) else Fail IndexError.

(** [for k in range(start, start + n): body], threading the state. *)
Fixpoint for_range_from {St : Type} (start n : nat) (body : nat -> St -> outcome St)
    (s : St) : outcome St :=
  match n with
  | O => Ok s
  | S n' => s' ← body start s; for_range_from (S start) n' body s'
  end.

Definition for_range {St : Type} (n : nat) (body : nat -> St -> outcome St) (s : St)
  : outcome St :=
  for_range_from 0 n body s.

(** [needle in hay] on strings. *)
Fixpoint contains (needle hay : string) : bool :=
  String.prefix needle hay ||
  match hay with
  | EmptyString => false
  | String _ hay' => contains needle hay'
  end.

(** One-dimensional numpy broadcasting of a binary operation. *)
Definition broadcast (op : Q -> Q -> Q) (a b : list Q) : outcome (list Q) :=
  if decide (length a = length b) then Ok (zip_with op a b)
  else match a, b with
       | [x], _ => Ok (map (op x) b)
       | _, [y] => Ok (map (fun x => op x y) a)
       | _, _ => Fail ValueError
       end.

End Py.

(** ** Netlist model *)

Module Netlist.
Import Py.

(** A line is its white-space separated tokens; every line is a list object
    of its own (built by [line.strip().split()]), so no two lines alias. *)
Abbreviation line := (list string).
Abbreviation netlist := (list (list string)).

Definition newline : string := String (ascii_of_nat 10) EmptyString.

(** [netlist[i][3] = tok]. *)
Definition set_value (nl : netlist) (i : nat) (tok : string) : outcome netlist :=
  thisLine ← get_item nl i;
  thisLine' ← set_item thisLine 3 tok;
  Ok (<[i:=thisLine']> nl).

(** [' '.join(thisLine) + '\n']. *)
Definition record_text (thisLine : line) : string :=
  String.concat " " thisLine +:+ newline.

(** The loop writing the netlist file, [numlines_netlist] records. *)
Definition serialize (numlines_netlist : nat) (nl : netlist) : outcome string :=
  for_range numlines_netlist
    (fun k out => thisLine ← get_item nl k; Ok (out +:+ record_text thisLine))
    EmptyString.

(** The text of a whole netlist, record after record. *)
Definition lines_text (nl : netlist) : string :=
  fold_right (fun thisLine rest => record_text thisLine +:+ rest) EmptyString nl.

(** *** Start-up resolution of the tunable instances ([main]) *)

Record resolution : Type := {
  OptLine : list nat;
  UB : list Q;
  LB : list Q;
  kkk : nat
}.

Section Resolve.
Variable simControlOPtInstNames : list string.
Variables simControlMaxVals simControlMinVals : list Q.
Variable nl : netlist.

(** The body of the inner loop, for instance [kk] and line [k]. *)
Definition scan_line (kk k : nat) (st : resolution) : outcome resolution :=
  thisLine ← get_item nl k;
  name ← get_item simControlOPtInstNames kk;
  designator ← get_item thisLine 0;
  if contains name designator then
    ol ← set_item (OptLine st) (kkk st - 1) k;
    mx ← get_item simControlMaxVals kk;
    ub ← set_item (UB st) (kkk st - 1) mx;
    mn ← get_item simControlMinVals kk;
    lb ← set_item (LB st) (kkk st - 1) mn;
    Ok {| OptLine := ol; UB := ub; LB := lb; kkk := kkk st + 1 |}
  else Ok st.

Definition resolve : outcome resolution :=
  let numOptd := length simControlOPtInstNames in
  let numlines_netlist := length nl in
  st ← for_range numOptd
         (fun kk st => for_range numlines_netlist (scan_line kk) st)
         {| OptLine := replicate numOptd 0%nat;
            UB := replicate numOptd 0%Q;
            LB := replicate numOptd 0%Q;
            kkk := 1 |};
  let numMatchingInstFound := (kkk st - 1)%nat in
  if decide (numOptd ≠ numMatchingInstFound) then Fail SysExit else Ok st.

(** *** Vocabulary of the resolution's properties *)

(** Does line [k] carry a designator containing [name]? *)
Definition line_matches (name : string) (k : nat) : bool :=
  match nl !! k with
  | Some (designator :: _) => contains name designator
  | _ => false
  end.

(** The lines matching [name], in netlist order. *)
Definition matching_lines (name : string) : list nat :=
  filter (fun k => line_matches name k = true) (seq 0 (length nl)).

(** All matches, instance by instance. *)
Definition all_matches : list nat :=
  concat (map matching_lines simControlOPtInstNames).

(** The state of the resolution once the matches [M] have been recorded. *)
Definition recorded (st : resolution) (M : list nat) : Prop :=
  length (OptLine st) = length simControlOPtInstNames
  /\ length (UB st) = length simControlOPtInstNames
  /\ length (LB st) = length simControlOPtInstNames
  /\ kkk st = S (length M)
  /\ take (length M) (OptLine st) = M.

Definition well_formed : Prop :=
  Forall (fun l : line => l ≠ []) nl
  /\ (length simControlOPtInstNames <= length simControlMaxVals)%nat
  /\ (length simControlOPtInstNames <= length simControlMinVals)%nat.

(** Every requested name that matches some line has its two bounds. *)
Definition served : Prop :=
  forall kk name, simControlOPtInstNames !! kk = Some name -> matching_lines name <> [] ->
    (kk < length simControlMaxVals)%nat /\ (kk < length simControlMinVals)%nat.

(** The input on which the two loops run through, whatever the matches: no
    blank line where a first token is read (that is, none at all unless no
    name is requested), and no bound missing where one is read. *)
Definition scannable : Prop :=
  (simControlOPtInstNames = [] \/ Forall (fun l : line => l ≠ []) nl) /\ served.
End Resolve.

End Netlist.

(** ** Simulation synchronizer *)

Module Sync.

(** What the outside world does in answer to one simulator invocation: the
    hash of the result artifact before the call, the exit status of the call,
    and the hash found by each later read of the artifact. *)
Record run : Type := {
  md5_before : Z;
  status : Z;
  md5_at : nat -> Z
}.

(** [while md5_post == md5: sleep; md5_post = hash(read)], the [t]-th read
    being the next one. Returns the number of reads made. *)
Fixpoint poll (fuel : nat) (r : run) (md5 : Z) (t : nat) : outcome nat :=
  match fuel with
  | O => Fail Hang
  | S fuel' =>
      let md5_post := md5_at r t in
      if md5_post =? md5 then poll fuel' r md5 (S t) else Ok (S t)
  end.

(** [runSim], and the same statements inside [optLTspice]: hash, call, poll,
    and only then the test of the exit status. *)
Definition runSim (fuel : nat) (r : run) : outcome nat :=
  let md5 := md5_before r in
  let status := status r in
  reads ← poll fuel r md5 0;
  if negb (status =? 0) then Fail SysExit else Ok reads.

End Sync.

(** ** Objective function *)

Module Objective.
Import Py Netlist.

Section Evaluation.
(** The numeric collaborators: [np.exp], complex samples with [np.abs] and
    [np.angle], and [np.unwrap]. *)
Variable np_exp : Q -> Q.
Variable complex : Type.
Variable c_abs : complex -> Q.
Variable c_angle : complex -> Q.
Variable np_unwrap : list Q -> list Q.

(** The result artifact as [RawRead] presents it: traces by name. *)
Definition raw := string -> option (list complex).

(** The world: given the netlist text written to disk, how the simulator run
    goes and what the artifact holds afterwards. *)
Variable simulate : string -> Sync.run * raw.

Record kwargs : Type := {
  LTspice_output_nodeD : string;
  matchModeD : Z;
  targetD : list Q;
  errWeightsD : list Q;
  numlines_netlistD : nat;
  netlistD : netlist;
  nomParamsD : list Q;
  OptLineD : list nat;
  numOptdD : nat
}.

(** The token written for instance [k]. *)
Definition value_token (nomParams optParams : list Q) (k : nat) : outcome string :=
  nom ← get_item nomParams k;
  p ← get_item optParams k;
  Ok (Format.format_e 12 (nom * np_exp p)).

(** The first loop: every tunable value into its netlist line. *)
Definition write_values (kw : kwargs) (optParams : list Q) : outcome netlist :=
  for_range (numOptdD kw)
    (fun k nl =>
       tok ← value_token (nomParamsD kw) optParams k;
       line ← get_item (OptLineD kw) k;
       set_value nl line tok)
    (netlistD kw).

Definition get_trace (LTR : raw) (name : string) : outcome (list complex) :=
  of_option IndexError (LTR name).

(** [optCurrent] for the match mode. *)
Definition response (LTR : raw) (node : string) (matchMode : Z) : outcome (list Q) :=
  outNode ← get_trace LTR node;
  let fresp := map c_abs outNode in
  freqx ← get_trace LTR "frequency";
  let phase := np_unwrap (map c_angle outNode) in
  if matchMode =? 1 then Ok fresp
  else if matchMode =? 2 then Ok phase
  else if matchMode =? 3 then Ok (fresp ++ phase)
  else Fail NameError.

(** The simulated vector the match modes 1, 2 and 3 stand for. *)
Definition simulated (matchMode : Z) (outNode : list complex) : list Q :=
  let fresp := map c_abs outNode in
  let phase := np_unwrap (map c_angle outNode) in
  if matchMode =? 1 then fresp else if matchMode =? 2 then phase else fresp ++ phase.

(** What the update loop leaves alone. *)
Definition frame_upto (kw : kwargs) (k : nat) (nl : netlist) : Prop :=
  length nl = length (netlistD kw)
  /\ forall j (l : line), netlistD kw !! j = Some l ->
       exists l' : line, nl !! j = Some l' /\ length l' = length l
         /\ (forall t, t <> 3%nat -> l' !! t = l !! t)
         /\ ((forall k', (k' < k)%nat -> OptLineD kw !! k' <> Some j) -> l' = l).

(** What the update loop has written. *)
Definition written_upto (kw : kwargs) (k : nat) (nl : netlist) : Prop :=
  forall k' i, (k' < k)%nat -> OptLineD kw !! k' = Some i ->
    exists (l : line) x, nl !! i = Some l
      /\ l !! 3%nat = Some (Format.format_e 12 x).

Record evaluation : Type := {
  netlist_after : netlist;
  netlist_file : string;
  iterationCount_after : nat;
  err : list Q
}.

Definition optLTspice (fuel : nat) (iterationCount : nat) (optParams : list Q)
    (kw : kwargs) : outcome evaluation :=
  nl ← write_values kw optParams;
  text ← serialize (numlines_netlistD kw) nl;
  let '(r, LTR) := simulate text in
  _ ← Sync.runSim fuel r;
  optCurrent ← response LTR (LTspice_output_nodeD kw) (matchModeD kw);
  if decide (length (targetD kw) ≠ length optCurrent) then Fail SysExit
  else
    err ← broadcast Qminus (targetD kw) optCurrent;
    err ← broadcast Qmult err (errWeightsD kw);
    Ok {| netlist_after := nl; netlist_file := text;
          iterationCount_after := iterationCount + 1; err := err |}.
End Evaluation.

End Objective.

(** ** Preferred-series quantizer ([round63]) *)

Module Quantizer.
Import Py Numeric.

(** The per-decade tables of [E_SERIES]. *)
Definition E3 : list Z :=
  [ 100; 220; 470 ].

Definition E6 : list Z :=
  [ 100; 150; 220; 330; 470; 680 ].

Definition E12 : list Z :=
  [ 100; 120; 150; 180; 220; 270; 330; 390; 470; 560; 680; 820 ].

Definition E24 : list Z :=
  [ 100; 110; 120; 130; 150; 160; 180; 200; 220; 240; 270; 300;
    330; 360; 390; 430; 470; 510; 560; 620; 680; 750; 820; 910 ].

Definition E48 : list Z :=
  [ 100; 105; 110; 115; 121; 127; 133; 140; 147; 154; 162; 169;
    178; 187; 196; 205; 215; 226; 237; 249; 261; 274; 287; 301;
    316; 332; 348; 365; 383; 402; 422; 442; 464; 487; 511; 536;
    562; 590; 619; 649; 681; 715; 750; 787; 825; 866; 909; 953 ].

Definition E96 : list Z :=
  [ 100; 102; 105; 107; 110; 113; 115; 118; 121; 124; 127; 130;
    133; 137; 140; 143; 147; 150; 154; 158; 162; 165; 169; 174;
    178; 182; 187; 191; 196; 200; 205; 210; 215; 221; 226; 232;
    237; 243; 249; 255; 261; 267; 274; 280; 287; 294; 301; 309;
    316; 324; 332; 340; 348; 357; 365; 374; 383; 392; 402; 412;
    422; 432; 442; 453; 464; 475; 487; 499; 511; 523; 536; 549;
    562; 576; 590; 604; 619; 634; 649; 665; 681; 698; 715; 732;
    750; 768; 787; 806; 825; 845; 866; 887; 909; 931; 953; 976 ].

Definition E192 : list Z :=
  [ 100; 101; 102; 104; 105; 106; 107; 109; 110; 111; 113; 114;
    115; 117; 118; 120; 121; 123; 124; 126; 127; 129; 130; 132;
    133; 135; 137; 138; 140; 142; 143; 145; 147; 149; 150; 152;
    154; 156; 158; 160; 162; 164; 165; 167; 169; 172; 174; 176;
    178; 180; 182; 184; 187; 189; 191; 193; 196; 198; 200; 203;
    205; 208; 210; 213; 215; 218; 221; 223; 226; 229; 232; 234;
    237; 240; 243; 246; 249; 252; 255; 258; 261; 264; 267; 271;
    274; 277; 280; 284; 287; 291; 294; 298; 301; 305; 309; 312;
    316; 320; 324; 328; 332; 336; 340; 344; 348; 352; 357; 361;
    365; 370; 374; 379; 383; 388; 392; 397; 402; 407; 412; 417;
    422; 427; 432; 437; 442; 448; 453; 459; 464; 470; 475; 481;
    487; 493; 499; 505; 511; 517; 523; 530; 536; 542; 549; 556;
    562; 569; 576; 583; 590; 597; 604; 612; 619; 626; 634; 642;
    649; 657; 665; 673; 681; 690; 698; 706; 715; 723; 732; 741;
    750; 759; 768; 777; 787; 796; 806; 816; 825; 835; 845; 856;
    866; 876; 887; 898; 909; 920; 931; 942; 953; 965; 976; 988 ].

Definition E_SERIES (ser : string) : option (list Z) :=
  if String.eqb ser "E3" then Some E3
  else if String.eqb ser "E6" then Some E6
  else if String.eqb ser "E12" then Some E12
  else if String.eqb ser "E24" then Some E24
  else if String.eqb ser "E48" then Some E48
  else if String.eqb ser "E96" then Some E96
  else if String.eqb ser "E192" then Some E192
  else None.

(** [np.isfinite(pwr) & np.isreal(pwr)] for [pwr = np.log10(x)]: the
    logarithm of a finite value is finite exactly when the value is positive. *)
Definition idr (x : Q) : bool := negb (Qle_bool x 0).

(** [np.min] and [np.max] of a non-empty array [x :: l]. *)
Definition np_min (x : Q) (l : list Q) : Q :=
  fold_left (fun m y => if Qle_bool y m then y else m) l x.

Definition np_max (x : Q) (l : list Q) : Q :=
  fold_left (fun m y => if Qle_bool m y then y else m) l x.

(** [np.arange(a, b)] on integers. *)
Definition arange (a b : Z) : list Z :=
  map (fun i => a + Z.of_nat i) (seq 0 (Z.to_nat (b - a))).

(** [ns.reshape((-1,1)) * temp], flattened in column-major order: decade
    after decade, each the whole base table times that power of ten. *)
Definition extend (ns : list Z) (temp : list Q) : list Q :=
  flat_map (fun t => map (fun n => (inject_Z n * t)%Q) ns) temp.

(** The extended series of a call whose valid inputs are [x :: l]. *)
Definition extended_series (ns : list Z) (x : Q) (l : list Q) : list Q :=
  let omn := floor_log10 (np_min x l) in
  let omx := ceil_log10 (np_max x l) in
  let temp := map pow10 (arange (omn - 3) (omx - 1)) in
  extend ns temp.

(** The bin edges, from the slices [pns[:-1]] and [pns[1:]]. *)
Definition edges (rnd : string) (pns : list Q) : outcome (list Q) :=
  if String.eqb rnd "harmonic" then
    Ok (zip_with (fun a b => (2 * a * b / (a + b))%Q) (removelast pns) (tail pns))
  else if String.eqb rnd "arithmetic" then
    Ok (zip_with (fun a b => ((a + b) / 2)%Q) (removelast pns) (tail pns))
  else if String.eqb rnd "up" then Ok (removelast pns)
  else if String.eqb rnd "down" then Ok (tail pns)
  else Fail ValueError.

(** [np.digitize(x, bins)] for increasing [bins]: the index [i] with
    [bins[i-1] <= x < bins[i]], that is the number of leading bins not above
    [x]. *)
Fixpoint digitize (x : Q) (bins : list Q) : nat :=
  match bins with
  | [] => 0
  | b :: bins' => if Qle_bool b x then S (digitize x bins') else 0
  end.

(** One input value: its bin, the correction of bin 0, the series value. *)
Definition select (pns edg : list Q) (x : Q) : outcome (option Q) :=
  let idx := digitize x edg in
  let idx := if Nat.eqb idx 0 then 1%nat else idx in
  y ← get_item pns (idx - 0);
  Ok (Some y).

(** [round63(X, ser, rnd)]; [None] in the result stands for nan. *)
Definition round63 (X : list Q) (ser : string) (rnd : option string)
  : outcome (list (option Q)) :=
  let rnd := match rnd with None => "arithmetic"%string | Some r => r end in
  let rnd := Codec.lower rnd in
  match E_SERIES ser with
  | None => Fail ValueError
  | Some ns =>
      match filter (fun x => idr x = true) X with
      | [] => Ok (map (fun _ => None) X)
      | x :: l =>
          let pns := extended_series ns x l in
          edg ← edges rnd pns;
          mapM (select pns edg) (x :: l)
      end
  end.

(** *** Vocabulary of the quantizer's properties *)

(** Adjacent pairs of a table combined by [f]. *)
Fixpoint adjacent (f : Q -> Q -> Q) (p : list Q) : list Q :=
  match p with
  | a :: ((b :: _) as p') => f a b :: adjacent f p'
  | _ => []
  end.

Inductive policy : Type := Harmonic | Arithmetic | Up | Down.

Definition policy_name (pol : policy) : string :=
  match pol with
  | Harmonic => "harmonic"
  | Arithmetic => "arithmetic"
  | Up => "up"
  | Down => "down"
  end.

(** The edge between the neighbours [a < b] under each policy. *)
Definition edge (pol : policy) (a b : Q) : Q :=
  match pol with
  | Harmonic => (2 * a * b / (a + b))%Q
  | Arithmetic => ((a + b) / 2)%Q
  | Up => a
  | Down => b
  end.

(** A base table the algorithm is meant for: at least three values, from 100
    up to below 1000, increasing. *)
Fixpoint increasingZ (l : list Z) : bool :=
  match l with
  | a :: ((b :: _) as l') => (a <? b) && increasingZ l'
  | _ => true
  end.

Definition series_ok (ns : list Z) : bool :=
  Nat.leb 3 (length ns) && increasingZ ns
  && forallb (fun v => (100 <=? v) && (v <? 1000)) ns
  && match ns with v :: _ => v =? 100 | [] => false end.

(** The extended series over the [c] decades from [lo] on. *)
Definition table (ns : list Z) (lo : Z) (c : nat) : list Q :=
  extend ns (map pow10 (map (fun i => lo + Z.of_nat i) (seq 0 c))).

(** The points of the infinite series: a base value times a power of ten. *)
Definition on_series (ns : list Z) (g : Q) : Prop :=
  exists v e, In v ns /\ (g == inject_Z v * pow10 e)%Q.

End Quantizer.

(** ** Concrete scenarios *)

Module Examples.

(** A rational stand-in for [np.exp] in the scenarios: the Taylor polynomial
    of degree three, exact at 0 (the optimizer's starting point). *)
Definition exp_series (p : Q) : Q := (1 + p + p * p / 2 + p * p * p / 6)%Q.

(** Samples on the positive real axis: magnitude is the absolute value, the
    angle is 0, and unwrapping a constant phase changes nothing. *)
Definition real_abs (z : Q) : Q := Qabs z.
Definition real_angle (z : Q) : Q := 0%Q.
Definition unwrap_flat (l : list Q) : list Q := l.

Definition netlist3 : Netlist.netlist :=
  [ ["R1"; "out"; "0"; "1k"];
    ["C1"; "out"; "0"; "100n"];
    [".ac"; "dec"; "10"; "1"; "1e6"] ]%string.

(** The same netlist after one evaluation at the starting point. *)
Definition netlist3_written : Netlist.netlist :=
  [ ["R1"; "out"; "0"; "1.000000000000e+03"];
    ["C1"; "out"; "0"; "100n"];
    [".ac"; "dec"; "10"; "1"; "1e6"] ]%string.

Definition kw_both : Objective.kwargs :=
  {| Objective.LTspice_output_nodeD := "V(out)";
     Objective.matchModeD := 3;
     Objective.targetD := [1; 1; 0; 0]%Q;
     Objective.errWeightsD := [1; 2; 1; 1]%Q;
     Objective.numlines_netlistD := 3;
     Objective.netlistD := netlist3;
     Objective.nomParamsD := [1000%Q];
     Objective.OptLineD := [0%nat];
     Objective.numOptdD := 1 |}.

(** A run that is accepted and whose artifact changes at the third read. *)
Definition run_done : Sync.run :=
  {| Sync.md5_before := 7; Sync.status := 0;
     Sync.md5_at := fun t => if (t <? 2)%nat then 7 else 9 |}.

(** A launch that fails and leaves the artifact as it was. *)
Definition run_failed : Sync.run :=
  {| Sync.md5_before := 7; Sync.status := 1; Sync.md5_at := fun _ => 7 |}.

Definition raw_two_points : Objective.raw Q :=
  fun name =>
    if String.eqb name "V(out)" then Some [1 # 2; 1 # 4]%Q
    else if String.eqb name "frequency" then Some [1; 10]%Q
    else None.

Definition simulate_two_points (text : string) : Sync.run * Objective.raw Q :=
  (run_done, raw_two_points).

(** Target of 50 points against a trace of 49. *)
Definition kw_fifty : Objective.kwargs :=
  {| Objective.LTspice_output_nodeD := "V(out)";
     Objective.matchModeD := 1;
     Objective.targetD := replicate 50 1%Q;
     Objective.errWeightsD := replicate 50 1%Q;
     Objective.numlines_netlistD := 3;
     Objective.netlistD := netlist3;
     Objective.nomParamsD := [1000%Q];
     Objective.OptLineD := [0%nat];
     Objective.numOptdD := 1 |}.

Definition raw_forty_nine : Objective.raw Q :=
  fun name =>
    if String.eqb name "V(out)" then Some (replicate 49 (1 # 2)%Q)
    else if String.eqb name "frequency" then Some (replicate 49 1%Q)
    else None.

Definition simulate_forty_nine (text : string) : Sync.run * Objective.raw Q :=
  (run_done, raw_forty_nine).

(** A netlist in which R1 is also the beginning of R10. *)
Definition netlist_r10 : Netlist.netlist :=
  [ ["R1"; "in"; "out"; "1k"];
    ["R10"; "out"; "0"; "4.7k"] ]%string.

End Examples.

(** ** What an answer of the quantizer means *)

Module Bins.
Import Quantizer.

(** The positive entries of an input array, [X[idr]]. *)
Definition positive_entries (X : list Q) : list Q := filter (fun x => idr x = true) X.

(** [y] is the series point in whose bin [x] falls: towards every series
    point below [y] the edge is not above [x], towards every series point
    above [y] the edge is above [x]. *)
Definition in_bin (ns : list Z) (pol : policy) (x y : Q) : Prop :=
  on_series ns y /\ (0 < y)%Q
  /\ (forall g, on_series ns g -> (g < y)%Q -> (edge pol g y <= x)%Q)
  /\ (forall g, on_series ns g -> (y < g)%Q -> (x < edge pol y g)%Q).

(** The names [round63] accepts for [rnd], after lower-casing. *)
Definition supported_rnd (rnd : string) : bool :=
  String.eqb rnd "harmonic" || String.eqb rnd "arithmetic"
  || String.eqb rnd "up" || String.eqb rnd "down".

End Bins.

(** ** Reading a netlist or a schematic *)

Module Reader.
Import Netlist.

Definition LF : ascii := ascii_of_nat 10.
Definition CR : ascii := ascii_of_nat 13.

(** [str.isspace] on one Latin-1 character: tab to carriage return, the
    separators 28-31, the space, NEL and the no-break space. *)
Definition is_space (c : ascii) : bool :=
  let n := N_of_ascii c in
  (((9 <=? n) && (n <=? 13)) || ((28 <=? n) && (n <=? 32)) || (n =? 133) || (n =? 160))%N.

(** Text-mode reading with the default [newline=None]: a carriage return,
    alone or before a line feed, is read as a line feed. *)
Fixpoint universal_newlines (s : string) : string :=
  match s with
  | EmptyString => EmptyString
  | String c s' =>
      if Ascii.eqb c CR then
        match s' with
        | String c' s'' =>
            if Ascii.eqb c' LF then String LF (universal_newlines s'')
            else String LF (universal_newlines s')
        | EmptyString => String LF EmptyString
        end
      else String c (universal_newlines s')
  end.

(** A word or line under construction, if it has any character. *)
Definition flush (cur : string) : list string :=
  match cur with
  | EmptyString => []
  | _ => [cur]
  end.

(** [fid.readlines()]: the lines with their line feed, and a last line
    without one if the text does not end in a line feed. *)
Fixpoint readlines_from (cur s : string) : list string :=
  match s with
  | EmptyString => flush cur
  | String c s' =>
      if Ascii.eqb c LF then (cur +:+ String LF EmptyString) :: readlines_from EmptyString s'
      else readlines_from (cur +:+ String c EmptyString) s'
  end.

Definition readlines (text : string) : list string :=
  readlines_from EmptyString (universal_newlines text).

(** [str.lstrip()], [str.rstrip()] and [str.strip()]. *)
Fixpoint lstrip (s : string) : string :=
  match s with
  | EmptyString => EmptyString
  | String c s' => if is_space c then lstrip s' else s
  end.

Fixpoint rstrip (s : string) : string :=
  match s with
  | EmptyString => EmptyString
  | String c s' =>
      match rstrip s' with
      | EmptyString => if is_space c then EmptyString else String c EmptyString
      | r => String c r
      end
  end.

Definition strip (s : string) : string := rstrip (lstrip s).

(** [str.split()] without separator: the maximal runs of characters that are
    not white space. *)
Fixpoint split_from (word s : string) : list string :=
  match s with
  | EmptyString => flush word
  | String c s' =>
      if is_space c then flush word ++ split_from EmptyString s'
      else split_from (word +:+ String c EmptyString) s'
  end.

Definition split (s : string) : list string := split_from EmptyString s.

(** [line.strip().split()]. *)
Definition words (text : string) : line := split (strip text).

(** [netlist = [line.strip().split() for line in fid.readlines()]]. *)
Definition read_netlist (text : string) : netlist := map words (readlines text).

(** *** Vocabulary: what a token of a line is *)

Definition no_space (s : string) : bool := Codec.all_chars (fun c => negb (is_space c)) s.

Definition is_token (s : string) : bool :=
  match s with
  | EmptyString => false
  | _ => no_space s
  end.

Definition tokenized (nl : netlist) : Prop := Forall (Forall (fun t => is_token t = true)) nl.

(** A character that ends no line. *)
Definition inner_char (c : ascii) : bool := negb (Ascii.eqb c LF) && negb (Ascii.eqb c CR).

End Reader.

(** ** Start-up: nominal values, and the dictionary handed to the optimizer *)

Module Startup.
Import Py Netlist.

(** The loop of [main] filling [nomParams] from the fourth token of every
    resolved line. *)
Definition read_nominals (nl : netlist) (OptLine : list nat) (numOptd : nat)
  : outcome (list Q) :=
  for_range numOptd
    (fun k nomParams =>
       i ← get_item OptLine k;
       thisLine ← get_item nl i;
       newStr ← get_item thisLine 3;
       v ← Codec.parse_value newStr;
       set_item nomParams k v)
    (replicate numOptd 0%Q).

(** [passCellDict] as [main] fills it before the optimization: netlist read
    from the file, lines resolved, nominal values parsed. The target and the
    weights come from the user's set-up once the first simulation has run. *)
Definition prepare (text : string) (names : list string) (maxv minv : list Q)
    (node : string) (matchMode : Z) (target errWeights : list Q)
  : outcome Objective.kwargs :=
  let nl := Reader.read_netlist text in
  let numlines_netlist := length nl in
  let numOptd := length names in
  st ← resolve names maxv minv nl;
  nomParams ← read_nominals nl (OptLine st) numOptd;
  Ok {| Objective.LTspice_output_nodeD := node;
        Objective.matchModeD := matchMode;
        Objective.targetD := target;
        Objective.errWeightsD := errWeights;
        Objective.numlines_netlistD := numlines_netlist;
        Objective.netlistD := nl;
        Objective.nomParamsD := nomParams;
        Objective.OptLineD := OptLine st;
        Objective.numOptdD := numOptd |}.

(** The dictionary as a later evaluation finds it: the same entries, and in
    [netlistD] the list object an earlier evaluation has updated in place. *)
Definition with_netlist (kw : Objective.kwargs) (nl : netlist) : Objective.kwargs :=
  {| Objective.LTspice_output_nodeD := Objective.LTspice_output_nodeD kw;
     Objective.matchModeD := Objective.matchModeD kw;
     Objective.targetD := Objective.targetD kw;
     Objective.errWeightsD := Objective.errWeightsD kw;
     Objective.numlines_netlistD := Objective.numlines_netlistD kw;
     Objective.netlistD := nl;
     Objective.nomParamsD := Objective.nomParamsD kw;
     Objective.OptLineD := Objective.OptLineD kw;
     Objective.numOptdD := Objective.numOptdD kw |}.

(** *** Vocabulary of the evaluation's properties *)

(** Two netlists of one shape that agree on everything but the value tokens
    of the lines still [pending]. *)
Definition agree_but (pending : nat -> Prop) (nl1 nl2 : netlist) : Prop :=
  length nl1 = length nl2
  /\ forall j (l1 l2 : line), nl1 !! j = Some l1 -> nl2 !! j = Some l2 ->
       length l1 = length l2 /\ (forall t, t <> 3%nat -> l1 !! t = l2 !! t)
       /\ (~ pending j -> l1 = l2).

(** Each of the first [n] instances points at a line that has a value token. *)
Definition targets_valued (nl : netlist) (OptLine : list nat) (n : nat) : Prop :=
  forall k, (k < n)%nat ->
    exists i (l : line), OptLine !! k = Some i /\ nl !! i = Some l /\ (3 < length l)%nat.

End Startup.

(** ** Schematic rewriter ([update_schematic]) *)

Module Schematic.
Import Py Netlist.

(** [l.index(x)]: the first position of [x], [ValueError] if there is none. *)
Fixpoint list_index (l : list string) (x : string) : outcome nat :=
  match l with
  | [] => Fail ValueError
  | y :: l' => if String.eqb y x then Ok 0%nat else i ← list_index l' x; Ok (S i)
  end.

(** [for x in l: body], threading the state. *)
Fixpoint for_each {A St : Type} (l : list A) (body : A -> St -> outcome St) (s : St)
  : outcome St :=
  match l with
  | [] => Ok s
  | x :: l' => s' ← body x s; for_each l' body s'
  end.

(** The variables the loop over the schematic lines carries along;
    [instValNext] is unbound until the first tuned instance is met. *)
Record rewriter : Type := {
  changeNext : bool;
  instValNext : option Q;
  roundStringNext : string;
  new_schem : list string
}.

Section Rewriter.
Variable np_exp : Q -> Q.
Variable kw : Objective.kwargs.
Variable X : list Q.
Variables simctrlInstTol simctrlOptInstNames : list string.

(** The body of the loop over the tuned instances, for the name just read. *)
Definition match_instance (instNm : string) (kk : nat) (st : rewriter) : outcome rewriter :=
  i ← get_item (Objective.OptLineD kw) kk;
  nlLine ← get_item (Objective.netlistD kw) i;
  designator ← get_item nlLine 0;
  if String.eqb designator instNm then
    xx ← list_index simctrlOptInstNames instNm;
    nom ← get_item (Objective.nomParamsD kw) kk;
    x ← get_item X kk;
    tol ← get_item simctrlInstTol xx;
    Ok {| changeNext := true; instValNext := Some (nom * np_exp x)%Q;
          roundStringNext := tol; new_schem := new_schem st |}
  else Ok st.

(** [round63(instValNext, roundStringNext)[0]]: the call is made on a scalar,
    whose answer is a one-element array, or for a value that is not positive
    a zero-dimensional nan that cannot be indexed. *)
Definition quantized (st : rewriter) : outcome Q :=
  v ← of_option NameError (instValNext st);
  newVal ← Quantizer.round63 [v] (roundStringNext st) None;
  match newVal with
  | [Some y] => Ok y
  | _ => Fail IndexError
  end.

(** The body of the loop over the schematic lines. *)
Definition rewrite_line (text : string) (st : rewriter) : outcome rewriter :=
  let line := Reader.words text in
  '(line, changeNext0) ←
     (if changeNext st then
        newVal ← quantized st;
        line ← set_item line 2 (Format.format_e 3 newVal);
        Ok (line, false)
      else Ok (line, changeNext st));
  tag ← get_item line 1;
  st' ←
     (if String.eqb tag "InstName" then
        instNm ← get_item line 2;
        for_range (Objective.numOptdD kw) (match_instance instNm)
          {| changeNext := false; instValNext := instValNext st;
             roundStringNext := roundStringNext st; new_schem := new_schem st |}
      else Ok {| changeNext := changeNext0; instValNext := instValNext st;
                 roundStringNext := roundStringNext st; new_schem := new_schem st |});
  Ok {| changeNext := changeNext st'; instValNext := instValNext st';
        roundStringNext := roundStringNext st';
        new_schem := new_schem st' ++ [record_text line] |}.

(** [update_schematic]: the lines handed to [file.writelines] for the text of
    the schematic read. *)
Definition update_schematic (schem : string) : outcome (list string) :=
  st ← for_each (Reader.readlines schem) rewrite_line
         {| changeNext := false; instValNext := None;
            roundStringNext := "E96"; new_schem := [] |};
  Ok (new_schem st).

(** *** Vocabulary of the rewriter's properties *)

(** Is the line an instance-name attribute? *)
Definition names_instance (text : string) : bool :=
  match Reader.words text !! 1%nat with
  | Some tag => String.eqb tag "InstName"
  | None => false
  end.

(** The line before line [i] names an instance. *)
Definition follows_instance (schem : list string) (i : nat) : Prop :=
  exists j prev, i = S j /\ schem !! j = Some prev /\ names_instance prev = true.

(** Some tuned instance has the designator [instNm]. *)
Definition tuned (instNm : string) : Prop :=
  exists kk i (l : line),
    (kk < Objective.numOptdD kw)%nat /\ Objective.OptLineD kw !! kk = Some i
    /\ Objective.netlistD kw !! i = Some l /\ l !! 0%nat = Some instNm.

(** [v] is the optimized value of a tuned instance with the designator
    [instNm], and [ser] the series listed for that name. *)
Definition tuned_value (instNm : string) (v : Q) (ser : string) : Prop :=
  exists kk i (l : line) nom x xx,
    (kk < Objective.numOptdD kw)%nat /\ Objective.OptLineD kw !! kk = Some i
    /\ Objective.netlistD kw !! i = Some l /\ l !! 0%nat = Some instNm
    /\ Objective.nomParamsD kw !! kk = Some nom /\ X !! kk = Some x
    /\ v = (nom * np_exp x)%Q
    /\ list_index simctrlOptInstNames instNm = Ok xx
    /\ simctrlInstTol !! xx = Some ser.

(** [tok] is such a value, moved to a nearest point of its series and
    written with three fraction digits. *)
Definition quantized_for (instNm tok : string) : Prop :=
  exists v ser ns y,
    tuned_value instNm v ser /\ Quantizer.E_SERIES ser = Some ns /\ (0 < v)%Q
    /\ Quantizer.on_series ns y
    /\ (forall g, Quantizer.on_series ns g -> (Qabs (v - y) <= Qabs (v - g))%Q)
    /\ tok = Format.format_e 3 y.

(** The loop is about to write the value of the instance [instNm]. *)
Definition armed_for (st : rewriter) (instNm : string) : Prop :=
  exists v, instValNext st = Some v /\ tuned_value instNm v (roundStringNext st).

(** What the loop carries from one line to the next, [pn] being the name the
    line just written gives to an instance, if it names one. *)
Definition carried (st : rewriter) (pn : option string) : Prop :=
  match pn with
  | None => changeNext st = false
  | Some instNm =>
      (changeNext st = true <-> tuned instNm)
      /\ (changeNext st = true -> armed_for st instNm)
  end.

(** The name a line gives to an instance, as it stands in the record
    written for the line. *)
Definition name_of (text rec : string) : option string :=
  if names_instance text then Reader.words rec !! 2%nat else None.

(** The record written for a line, [pn] being the name given by the line
    before it. *)
Definition line_ok (pn : option string) (text rec : string) : Prop :=
  rec = record_text (Reader.words rec)
  /\ (2 <= length (Reader.words text))%nat
  /\ length (Reader.words rec) = length (Reader.words text)
  /\ (forall t, t <> 2%nat -> Reader.words rec !! t = Reader.words text !! t)
  /\ match pn with
     | None => Reader.words rec = Reader.words text
     | Some instNm =>
         (~ tuned instNm -> Reader.words rec = Reader.words text)
         /\ (tuned instNm ->
             exists tok, Reader.words rec !! 2%nat = Some tok /\ quantized_for instNm tok)
     end.

(** Lines the loop can index: every line has its two tokens, and a third one
    if it names an instance or comes after a line that does ([after] says
    whether the line before the first one does). *)
Fixpoint rewritable_from (after : bool) (lines : list string) : Prop :=
  match lines with
  | [] => True
  | text :: lines' =>
      (2 <= length (Reader.words text))%nat
      /\ (after = true \/ names_instance text = true -> (3 <= length (Reader.words text))%nat)
      /\ rewritable_from (names_instance text) lines'
  end.

Definition rewritable (lines : list string) : Prop := rewritable_from false lines.

(** Every tuned instance can be quantized: it has its netlist line with a
    designator, the designator is a listed name, the series listed at the
    position of that name is a supported one, and the optimized value is
    positive. *)
Definition quantizable : Prop :=
  forall kk, (kk < Objective.numOptdD kw)%nat ->
    exists i (l : line) d xx ser ns nom x,
      Objective.OptLineD kw !! kk = Some i /\ Objective.netlistD kw !! i = Some l
      /\ l !! 0%nat = Some d
      /\ list_index simctrlOptInstNames d = Ok xx /\ simctrlInstTol !! xx = Some ser
      /\ Quantizer.E_SERIES ser = Some ns
      /\ Objective.nomParamsD kw !! kk = Some nom /\ X !! kk = Some x
      /\ (0 < nom * np_exp x)%Q.

(** A pending value the quantizer will accept. *)
Definition ready (st : rewriter) : Prop :=
  changeNext st = true ->
  exists v ns, instValNext st = Some v /\ (0 < v)%Q
               /\ Quantizer.E_SERIES (roundStringNext st) = Some ns.

(** The records written for a run of lines. *)
Fixpoint chain (pn : option string) (lines recs : list string) : Prop :=
  match lines, recs with
  | [], [] => True
  | text :: lines', rec :: recs' => line_ok pn text rec /\ chain (name_of text rec) lines' recs'
  | _, _ => False
  end.

End Rewriter.

End Schematic.

(** ** More scenarios *)

Module Fixtures.

(** A run whose artifact changes at the fourth read. *)
Definition run_fourth : Sync.run :=
  {| Sync.md5_before := 7; Sync.status := 0;
     Sync.md5_at := fun t => if (t <? 3)%nat then 7 else 9 |}.

Definition netlist_text : string :=
  ("R1 out 0 1k" +:+ Netlist.newline +:+ "C1  out 0 100n" +:+ Netlist.newline
   +:+ ".ac dec 10 1 1e6" +:+ Netlist.newline)%string.

Definition schematic_text : string :=
  ("SYMBOL res 100 100 R0" +:+ Netlist.newline
   +:+ "SYMATTR InstName R1" +:+ Netlist.newline
   +:+ "SYMATTR Value 1k" +:+ Netlist.newline)%string.

(** A netlist file with a blank line. *)
Definition netlist_text_blank : string :=
  ("R1 out 0 1k" +:+ Netlist.newline +:+ Netlist.newline
   +:+ "C1 out 0 100n" +:+ Netlist.newline)%string.

(** What the start-up makes of [netlist_text] when R1 is to be tuned between
    500 and 2000 ohms against the amplitude at V(out). *)
Definition kw_prepared : Objective.kwargs :=
  {| Objective.LTspice_output_nodeD := "V(out)";
     Objective.matchModeD := 1;
     Objective.targetD := [];
     Objective.errWeightsD := [];
     Objective.numlines_netlistD := 3;
     Objective.netlistD := Examples.netlist3;
     Objective.nomParamsD := [1000%Q];
     Objective.OptLineD := [0%nat];
     Objective.numOptdD := 1 |}.

(** The evaluation of [Examples.kw_both] at the starting point. *)
Definition first_evaluation : Objective.evaluation :=
  {| Objective.netlist_after := Examples.netlist3_written;
     Objective.netlist_file := Netlist.lines_text Examples.netlist3_written;
     Objective.iterationCount_after := 1;
     Objective.err := [1 # 2; 6 # 4; 0; 0]%Q |}.

(** The schematic written for [schematic_text] once R1 has been moved up by
    a tenth in the optimizer's variable and quantized to E96. *)
Definition schematic_opt : list string :=
  [ "SYMBOL res 100 100 R0" +:+ Netlist.newline;
    "SYMATTR InstName R1" +:+ Netlist.newline;
    "SYMATTR Value 1.100e+03" +:+ Netlist.newline ]%string.

(** A netlist whose only resistor is R10, tuned under the listed name R1,
    which the designator contains, and its schematic. *)
Definition netlist_text_r10 : string := ("R10 out 0 1k" +:+ Netlist.newline)%string.

Definition kw_r10 : Objective.kwargs :=
  {| Objective.LTspice_output_nodeD := "V(out)";
     Objective.matchModeD := 1;
     Objective.targetD := [];
     Objective.errWeightsD := [];
     Objective.numlines_netlistD := 1;
     Objective.netlistD := [ ["R10"; "out"; "0"; "1k"] ]%string;
     Objective.nomParamsD := [1000%Q];
     Objective.OptLineD := [0%nat];
     Objective.numOptdD := 1 |}.

Definition schematic_text_r10 : string :=
  ("SYMBOL res 100 100 R0" +:+ Netlist.newline
   +:+ "SYMATTR InstName R10" +:+ Netlist.newline
   +:+ "SYMATTR Value 1k" +:+ Netlist.newline)%string.

End Fixtures.

(* ===================================================================== *)
(** * Properties *)
(* ===================================================================== *)

(** ** Powers of ten *)

Lemma pow10_pos k : (0 < pow10 k)%Q.
Proof.
  unfold pow10. destruct (Z.leb_spec 0 k).
  - change 0%Q with (inject_Z 0). rewrite <- Zlt_Qlt. apply Z.pow_pos_nonneg; lia.
  - reflexivity.
Qed.

Lemma pow10_Qpower k : (pow10 k == 10 ^ k)%Q.
Proof.
  unfold pow10. destruct (Z.leb_spec 0 k).
  - change 10%Q with (inject_Z 10). now rewrite <- Zpower_Qpower.
  - assert (Hk : k = - (- k)) by lia. rewrite Hk at 2.
    rewrite Qpower_opp. change 10%Q with (inject_Z 10).
    rewrite <- Zpower_Qpower by lia.
    assert (Hp : 0 < 10 ^ (- k)) by (apply Z.pow_pos_nonneg; lia).
    unfold Qinv, inject_Z. simpl Qnum.
    destruct (10 ^ (- k)) eqn:E; try lia. reflexivity.
Qed.

Lemma pow10_add a b : (pow10 (a + b) == pow10 a * pow10 b)%Q.
Proof.
  rewrite !pow10_Qpower. apply Qpower_plus. discriminate.
Qed.

Lemma pow10_0 : (pow10 0 == 1)%Q.
Proof. reflexivity. Qed.

Lemma pow10_1 : (pow10 1 == 10)%Q.
Proof. reflexivity. Qed.

Lemma pow10_succ k : (pow10 (k + 1) == 10 * pow10 k)%Q.
Proof. rewrite pow10_add, pow10_1. ring. Qed.

Lemma pow10_le a b : a <= b -> (pow10 a <= pow10 b)%Q.
Proof.
  intros H. replace b with (a + (b - a)) by lia.
  rewrite pow10_add.
  assert (H1 : (1 <= pow10 (b - a))%Q).
  { unfold pow10. destruct (Z.leb_spec 0 (b - a)); [|lia].
    change 1%Q with (inject_Z 1). rewrite <- Zle_Qle.
    assert (0 < 10 ^ (b - a)) by (apply Z.pow_pos_nonneg; lia). lia. }
  pose proof (pow10_pos a). nra.
Qed.

Lemma pow10_lt a b : a < b -> (pow10 a < pow10 b)%Q.
Proof.
  intros H. assert (Hs : (pow10 (a + 1) <= pow10 b)%Q) by (apply pow10_le; lia).
  rewrite pow10_succ in Hs. pose proof (pow10_pos a). lra.
Qed.

(** ** Value codec *)

Module CodecFacts.
Import Codec.

Lemma append_cons c s t : String c s +:+ t = String c (s +:+ t).
Proof. reflexivity. Qed.

Lemma append_nil_r s : s +:+ "" = s.
Proof. induction s as [|c s IH]; [reflexivity|]. now rewrite append_cons, IH. Qed.

Lemma all_chars_app p s t : all_chars p (s +:+ t) = all_chars p s && all_chars p t.
Proof. induction s as [|c s IH]; simpl; [reflexivity|]. now rewrite IH, andb_assoc. Qed.

Lemma all_chars_impl (p q : ascii -> bool) s :
  (forall c, p c = true -> q c = true) -> all_chars p s = true -> all_chars q s = true.
Proof.
  intros Hpq. induction s as [|c s IH]; simpl; [reflexivity|].
  intros [Hc Hs]%andb_true_iff. rewrite (Hpq _ Hc). now apply IH.
Qed.

Lemma plain_char_neq a c : plain_char a = false -> plain_char c = true -> Ascii.eqb a c = false.
Proof.
  intros Ha Hc. destruct (Ascii.eqb_spec a c) as [->|]; [congruence|reflexivity].
Qed.

Lemma prefix_head_neq a old c s : Ascii.eqb a c = false -> String.prefix (String a old) (String c s) = false.
Proof.
  intros H. simpl. destruct (ascii_dec a c) as [->|]; [|reflexivity].
  now rewrite Ascii.eqb_refl in H.
Qed.

(** A substitution whose pattern starts with a letter passes over a numeral. *)
Lemma replace_app_plain a old new s t :
  plain_char a = false -> plain s = true ->
  replace (String a old) new (s +:+ t) = s +:+ replace (String a old) new t.
Proof.
  intros Ha. unfold replace. induction s as [|c s IH]; [reflexivity|].
  cbn [plain all_chars]. intros [Hc Hs]%andb_true_iff.
  rewrite !append_cons. cbn [replace_from].
  rewrite (prefix_head_neq a old c) by now apply plain_char_neq.
  f_equal. now apply IH.
Qed.

Lemma replace_plain a old new s :
  plain_char a = false -> plain s = true -> replace (String a old) new s = s.
Proof.
  intros Ha Hs. pose proof (replace_app_plain a old new s "" Ha Hs) as H.
  rewrite append_nil_r in H. rewrite H. unfold replace. cbn [replace_from].
  apply append_nil_r.
Qed.

Lemma lower_char_plain c : plain_char c = true -> lower_char c = c.
Proof.
  destruct c as [[] [] [] [] [] [] [] []]; vm_compute; congruence.
Qed.

Lemma lower_app_plain s t : plain s = true -> lower (s +:+ t) = s +:+ lower t.
Proof.
  induction s as [|c s IH]; [reflexivity|].
  cbn [plain all_chars]. intros [Hc Hs]%andb_true_iff.
  rewrite !append_cons. cbn [lower]. rewrite (lower_char_plain c Hc). f_equal. now apply IH.
Qed.

Lemma subst_suffixes_app_plain s t :
  plain s = true -> subst_suffixes (s +:+ t) = s +:+ subst_suffixes t.
Proof.
  intros Hs. unfold subst_suffixes.
  repeat (first [ rewrite replace_app_plain by first [reflexivity | assumption]
                | rewrite lower_app_plain by assumption ]).
  reflexivity.
Qed.

Lemma subst_suffixes_plain s : plain s = true -> subst_suffixes s = s.
Proof.
  intros Hs. rewrite <- (append_nil_r s) at 1.
  rewrite (subst_suffixes_app_plain s "" Hs).
  change (subst_suffixes "") with ""%string. apply append_nil_r.
Qed.

Lemma micro_app_plain s t :
  plain s = true ->
  replace (String micro "") "u" (s +:+ t) = s +:+ replace (String micro "") "u" t.
Proof. apply replace_app_plain. reflexivity. Qed.

Lemma replace_char_cons a new c s :
  replace (String a "") new (String c s)
  = if Ascii.eqb a c then new +:+ replace (String a "") new s
    else String c (replace (String a "") new s).
Proof.
  unfold replace. cbn [replace_from String.prefix String.length Nat.sub].
  destruct (ascii_dec a c) as [->|Hne].
  - rewrite Ascii.eqb_refl. now destruct s.
  - destruct (Ascii.eqb_spec a c); [contradiction|reflexivity].
Qed.

(** The micro-sign substitution leaves no micro sign behind. *)
Lemma micro_idem s :
  replace (String micro "") "u" (replace (String micro "") "u" s)
  = replace (String micro "") "u" s.
Proof.
  induction s as [|c s IH]; [reflexivity|].
  rewrite replace_char_cons. destruct (Ascii.eqb micro c) eqn:E.
  - change ("u" +:+ ?x)%string with (String "u" x).
    rewrite replace_char_cons. change (Ascii.eqb micro "u") with false.
    cbv iota. now rewrite IH.
  - rewrite replace_char_cons, E. now rewrite IH.
Qed.

Lemma isnumeric_app_false s t :
  all_chars is_numeric_char t = false -> isnumeric (s +:+ t) = false.
Proof.
  intros Ht. assert (H : all_chars is_numeric_char (s +:+ t) = false).
  { rewrite all_chars_app, Ht. apply andb_false_r. }
  unfold isnumeric. destruct (s +:+ t); [reflexivity|exact H].
Qed.

Lemma split_at_plain_none s :
  plain s = true -> split_at is_e s = (s, None).
Proof.
  induction s as [|c s IH]; [reflexivity|].
  cbn [plain all_chars]. intros [Hc Hs]%andb_true_iff.
  cbn [split_at]. assert (Hce : is_e c = false).
  { unfold is_e. rewrite !(Ascii.eqb_sym c).
    rewrite (plain_char_neq "e" c eq_refl Hc), (plain_char_neq "E" c eq_refl Hc).
    reflexivity. }
  rewrite Hce, (IH Hs). reflexivity.
Qed.

Lemma split_at_plain_e s es :
  plain s = true -> split_at is_e (s +:+ String "e" es) = (s, Some es).
Proof.
  induction s as [|c s IH]; [reflexivity|].
  cbn [plain all_chars]. intros [Hc Hs]%andb_true_iff.
  rewrite append_cons. cbn [split_at]. assert (Hce : is_e c = false).
  { unfold is_e. rewrite !(Ascii.eqb_sym c).
    rewrite (plain_char_neq "e" c eq_refl Hc), (plain_char_neq "E" c eq_refl Hc).
    reflexivity. }
  rewrite Hce, (IH Hs). reflexivity.
Qed.

Lemma scaled_shift m a k : (scaled m (k + a) == scaled m a * pow10 k)%Q.
Proof. unfold scaled. rewrite pow10_add. ring. Qed.

(** Appending an exponent to a numeral scales its value by that power of ten. *)
Lemma pyfloat_exponent s q es k :
  plain s = true -> pyfloat s = Some q -> parse_exponent es = Some k ->
  exists r, pyfloat (s +:+ String "e" es) = Some r /\ (r == q * pow10 k)%Q.
Proof.
  intros Hs Hq Hk. unfold pyfloat in *.
  rewrite (split_at_plain_none s Hs) in Hq.
  rewrite (split_at_plain_e s es Hs).
  destruct (parse_mantissa s) as [[mz f]|]; [|discriminate].
  injection Hq as <-. rewrite Hk. eexists; split; [reflexivity|].
  unfold Z.sub. apply scaled_shift.
Qed.

Lemma parse_value_plain s q :
  plain s = true -> pyfloat s = Some q -> parse_value s = Ok q.
Proof.
  intros Hs Hq. unfold parse_value.
  rewrite (replace_plain micro "" "u" s eq_refl Hs).
  destruct (isnumeric s); cbn [negb]; [|rewrite (subst_suffixes_plain s Hs)];
    now rewrite Hq.
Qed.

Lemma parse_value_suffix s q suf es k :
  plain s = true -> pyfloat s = Some q ->
  all_chars is_numeric_char (replace (String micro "") "u" suf) = false ->
  subst_suffixes (replace (String micro "") "u" suf) = String "e" es ->
  parse_exponent es = Some k ->
  exists r, parse_value (s +:+ suf) = Ok r /\ (r == q * pow10 k)%Q.
Proof.
  intros Hs Hq Hn Hsub Hk. unfold parse_value.
  rewrite (micro_app_plain s suf Hs), (isnumeric_app_false s _ Hn).
  cbn [negb]. rewrite (subst_suffixes_app_plain s _ Hs), Hsub.
  destruct (pyfloat_exponent s q es k Hs Hq Hk) as (r & -> & Hr).
  exists r. split; [reflexivity|exact Hr].
Qed.

Lemma replace_cons_noprefix old new c t :
  String.prefix old (String c t) = false ->
  replace old new (String c t) = String c (replace old new t).
Proof. intros H. unfold replace. cbn [replace_from]. now rewrite H. Qed.

Lemma prefix_cons_same a old t :
  String.prefix (String a old) (String a t) = String.prefix old t.
Proof. cbn [String.prefix]. destruct (ascii_dec a a); [reflexivity|contradiction]. Qed.

Lemma prefix_plain_false a old b :
  plain_char a = false -> plain b = true -> String.prefix (String a old) b = false.
Proof.
  intros Ha Hb. destruct b as [|c b]; [reflexivity|].
  cbn [plain all_chars] in Hb. apply andb_true_iff in Hb as [Hc _].
  apply prefix_head_neq. now apply plain_char_neq.
Qed.

(** The substitutions rewrite a letter n between two numerals. *)
Lemma subst_suffixes_inner_n b :
  plain b = true -> subst_suffixes (String "n" b) = String "e" (String "-" (String "9" b)).
Proof.
  intros Hb. unfold subst_suffixes.
  rewrite (replace_cons_noprefix "M") by (now apply prefix_head_neq).
  rewrite (replace_plain "M") by first [reflexivity|assumption].
  rewrite (replace_cons_noprefix "G") by (now apply prefix_head_neq).
  rewrite (replace_plain "G") by first [reflexivity|assumption].
  assert (El : lower (String "n" b) = String "n" b).
  { pose proof (lower_app_plain b "" Hb) as H. rewrite append_nil_r in H.
    cbn [lower]. change (lower "") with ""%string in H. now rewrite H, append_nil_r. }
  rewrite El.
  repeat (rewrite (replace_cons_noprefix _ _ "n")
            by first [ now apply prefix_head_neq
                     | rewrite prefix_cons_same; now apply prefix_plain_false ];
          rewrite (replace_plain _ _ _ b) by first [reflexivity|assumption]).
  rewrite replace_char_cons. change (Ascii.eqb "n" "n") with true. cbv iota.
  rewrite (replace_plain _ _ _ b) by first [reflexivity|assumption].
  change ("e-9" +:+ b)%string with (String "e" (String "-" (String "9" b))).
  assert (Hb' : plain (String "-" (String "9" b)) = true) by exact Hb.
  repeat (rewrite (replace_cons_noprefix _ _ "e") by (now apply prefix_head_neq);
          rewrite (replace_plain _ _ _ (String "-" (String "9" b)))
            by first [reflexivity|assumption]).
  reflexivity.
Qed.

(** The text handed to [float] never spells inf, infinity or nan: it is
    either all numeric characters or free of the letter n. *)
Lemma all_chars_replace_from (p : ascii -> bool) (old new : string) :
  all_chars p new = true ->
  forall s skip, all_chars p s = true -> all_chars p (replace_from old new skip s) = true.
Proof.
  intros Hnew. induction s as [|c s IH]; intros skip Hs; [reflexivity|].
  cbn [all_chars] in Hs. apply andb_true_iff in Hs as [Hc Hs].
  cbn [replace_from]. destruct skip as [|k]; [|now apply IH].
  destruct (String.prefix old (String c s)).
  - rewrite all_chars_app, Hnew. now apply IH.
  - cbn [all_chars]. rewrite Hc. now apply IH.
Qed.

Lemma replace_char_removes (a : ascii) (new s : string) :
  all_chars (fun c => negb (Ascii.eqb a c)) new = true ->
  all_chars (fun c => negb (Ascii.eqb a c)) (replace (String a "") new s) = true.
Proof.
  intros Hnew. induction s as [|c s IH]; [reflexivity|].
  rewrite replace_char_cons. destruct (Ascii.eqb a c) eqn:E.
  - now rewrite all_chars_app, Hnew.
  - cbn [all_chars]. now rewrite E, IH.
Qed.

Lemma float_argument_no_n (tok : string) :
  let newStr := replace (String micro "") "u" tok in
  let arg := if negb (isnumeric newStr) then subst_suffixes newStr else newStr in
  parse_value tok = of_option ValueError (pyfloat arg)
  /\ (isnumeric arg = true \/ all_chars (fun c => negb (Ascii.eqb "n" c)) arg = true).
Proof.
  intros newStr arg. split; [reflexivity|]. subst arg.
  destruct (isnumeric newStr) eqn:E; cbn [negb]; [now left|right].
  unfold subst_suffixes.
  do 6 (apply all_chars_replace_from; [reflexivity|]).
  now apply replace_char_removes.
Qed.

(** C6: value-token parsing replaces the micro sign first (so a token and its
    micro-free form parse alike), parses a plain numeral directly, and
    otherwise turns a magnitude suffix, with or without a unit letter, into
    the matching power of ten: k is 1e3, M 1e6, G 1e9, m 1e-3, u 1e-6,
    n 1e-9, p 1e-12, the two-letter forms such as pF and pH being tried
    before the single letter. *)
Theorem parse_value_rules (s : string) (q : Q) (suf : string) (k : Z) :
  plain s = true -> pyfloat s = Some q -> In (suf, k) suffixes ->
  parse_value s = Ok q
  /\ (exists r, parse_value (s +:+ suf) = Ok r /\ (r == q * pow10 k)%Q)
  /\ (forall tok, parse_value (replace (String micro "") "u" tok) = parse_value tok).
Proof.
  intros Hs Hq Hin. split; [now apply parse_value_plain|]. split.
  - unfold suffixes in Hin. cbn [In] in Hin.
    repeat (destruct Hin as [E|Hin];
            [ injection E as <- <-;
              eapply parse_value_suffix; [exact Hs|exact Hq|reflexivity|reflexivity|reflexivity]
            | ]).
    contradiction.
  - intros tok. unfold parse_value. now rewrite micro_idem.
Qed.

Lemma parse_value_rules_witness :
  (exists r, parse_value "4.7k" = Ok r /\ (r == 4700)%Q)
  /\ (exists r, parse_value "100n" = Ok r /\ (r == 1 # 10000000)%Q)
  /\ (exists r, parse_value "2.2pF" = Ok r /\ (r == 22 # 10000000000000)%Q)
  /\ (exists r, parse_value "1u" = Ok r /\ (r == 1 # 1000000)%Q).
Proof.
  repeat split.
  - destruct (parse_value_rules "4.7" (47 # 10) "k" 3) as (_ & (r & Hr & Hv) & _);
      [reflexivity|reflexivity|cbn; tauto|].
    exists r. split; [exact Hr|]. rewrite Hv. reflexivity.
  - destruct (parse_value_rules "100" (100 # 1) "n" (-9)) as (_ & (r & Hr & Hv) & _);
      [reflexivity|reflexivity|cbn; tauto|].
    exists r. split; [exact Hr|]. rewrite Hv. reflexivity.
  - destruct (parse_value_rules "2.2" (22 # 10) "pF" (-12)) as (_ & (r & Hr & Hv) & _);
      [reflexivity|reflexivity|cbn; tauto|].
    exists r. split; [exact Hr|]. rewrite Hv. reflexivity.
  - destruct (parse_value_rules "1" (1 # 1) "u" (-6)) as (_ & (r & Hr & Hv) & _);
      [reflexivity|reflexivity|cbn; tauto|].
    exists r. split; [exact Hr|]. rewrite Hv. reflexivity.
Defined.

(** C10: the substitution of a magnitude letter applies wherever the letter
    stands in the token: between two numerals the letter n becomes the text
    e-9, so the token 2n2 is read as 2e-92, without an error. *)
Theorem suffix_replaced_anywhere (a b : string) :
  plain a = true -> plain b = true ->
  subst_suffixes (a +:+ String "n" b) = a +:+ String "e" (String "-" (String "9" b))
  /\ parse_value (a +:+ String "n" b)
     = of_option ValueError (pyfloat (a +:+ String "e" (String "-" (String "9" b))))
  /\ (exists r, parse_value "2n2" = Ok r /\ (r == 2 * pow10 (-92))%Q).
Proof.
  intros Ha Hb.
  assert (E : subst_suffixes (a +:+ String "n" b)
              = a +:+ String "e" (String "-" (String "9" b))).
  { rewrite (subst_suffixes_app_plain a _ Ha). now rewrite subst_suffixes_inner_n. }
  split; [exact E|]. split.
  - unfold parse_value. rewrite (micro_app_plain a _ Ha).
    rewrite (replace_cons_noprefix (String micro "")) by (now apply prefix_head_neq).
    rewrite (replace_plain micro) by first [reflexivity|assumption].
    rewrite isnumeric_app_false by reflexivity.
    cbn [negb]. now rewrite E.
  - eexists. split; [reflexivity|]. reflexivity.
Qed.

Lemma suffix_replaced_anywhere_witness :
  subst_suffixes "2n2" = "2e-92"%string
  /\ exists r, parse_value "2n2" = Ok r /\ (r == 2 * pow10 (-92))%Q.
Proof.
  destruct (suffix_replaced_anywhere "2" "2" eq_refl eq_refl) as (H1 & _ & H3).
  split; [exact H1|exact H3].
Defined.

End CodecFacts.

(** ** Decade exponents *)

Module NumericFacts.
Import Numeric.

Lemma ilog10_fuel_spec (fuel : nat) : forall a,
  0 < a < 10 ^ Z.of_nat fuel ->
  0 <= ilog10_fuel fuel a
  /\ 10 ^ ilog10_fuel fuel a <= a < 10 ^ (ilog10_fuel fuel a + 1).
Proof.
  induction fuel as [|fuel IH]; intros a Ha.
  - cbn in Ha. lia.
  - cbn [ilog10_fuel]. destruct (Z.ltb_spec a 10) as [Hlt|Hge].
    + cbn. lia.
    + rewrite Nat2Z.inj_succ, Z.pow_succ_r in Ha by lia.
      destruct (IH (a / 10)) as (H0 & Hlo & Hhi).
      { split; [apply Z.div_str_pos; lia|apply Z.div_lt_upper_bound; lia]. }
      pose proof (Z.mul_div_le a 10 ltac:(lia)) as Hd.
      pose proof (Z.mod_pos_bound a 10 ltac:(lia)) as Hm.
      pose proof (Z.div_mod a 10 ltac:(lia)) as Hdm.
      split; [lia|].
      replace (1 + ilog10_fuel fuel (a / 10)) with (Z.succ (ilog10_fuel fuel (a / 10))) by lia.
      rewrite Z.pow_succ_r by lia.
      replace (Z.succ (ilog10_fuel fuel (a / 10)) + 1)
        with (Z.succ (ilog10_fuel fuel (a / 10) + 1)) by lia.
      rewrite Z.pow_succ_r by lia. lia.
Qed.

Lemma ilog10_spec (a : Z) :
  0 < a -> 0 <= ilog10 a /\ 10 ^ ilog10 a <= a < 10 ^ (ilog10 a + 1).
Proof.
  intros Ha. unfold ilog10. apply ilog10_fuel_spec. split; [exact Ha|].
  destruct (Z.log2_spec a Ha) as [_ Hhi].
  pose proof (Z.log2_nonneg a) as Hn.
  rewrite Nat2Z.inj_succ, Z2Nat.id by lia.
  eapply Z.lt_le_trans; [exact Hhi|].
  apply Z.pow_le_mono_l. lia.
Qed.

Lemma pow10_nonneg_inject (k : Z) : 0 <= k -> pow10 k = inject_Z (10 ^ k).
Proof. intros H. unfold pow10. destruct (Z.leb_spec 0 k); [reflexivity|lia]. Qed.

Lemma pow10_pred k : (pow10 k == 10 * pow10 (k - 1))%Q.
Proof. rewrite <- pow10_succ. now replace (k - 1 + 1) with k by lia. Qed.

(** The decade of a positive value. *)
Lemma floor_log10_spec (x : Q) :
  (0 < x)%Q ->
  (pow10 (floor_log10 x) <= x)%Q /\ (x < pow10 (floor_log10 x + 1))%Q.
Proof.
  intros Hx. unfold floor_log10.
  destruct x as [a b]. cbn [Qnum Qden].
  assert (Ha : 0 < a) by (unfold Qlt in Hx; cbn in Hx; lia).
  destruct (ilog10_spec a Ha) as (Hla0 & Hla1 & Hla2).
  destruct (ilog10_spec (Z.pos b) ltac:(lia)) as (Hlb0 & Hlb1 & Hlb2).
  set (la := ilog10 a) in *. set (lb := ilog10 (Z.pos b)) in *.
  set (x := a # b).
  assert (Hxab : (x * inject_Z (Z.pos b) == inject_Z a)%Q).
  { unfold x, Qeq, Qmult, inject_Z. cbn. lia. }
  assert (Hk : (pow10 (la - lb) * pow10 lb == pow10 la)%Q).
  { rewrite <- pow10_add. now replace (la - lb + lb) with la by lia. }
  rewrite (pow10_nonneg_inject la), (pow10_nonneg_inject lb) in Hk by assumption.
  assert (HA1 : (inject_Z (10 ^ la) <= inject_Z a)%Q) by now rewrite <- Zle_Qle.
  assert (HA2 : (inject_Z a < 10 * inject_Z (10 ^ la))%Q).
  { change 10%Q with (inject_Z 10). rewrite <- inject_Z_mult, <- Zlt_Qlt.
    rewrite <- Z.pow_succ_r by lia. now replace (Z.succ la) with (la + 1) by lia. }
  assert (HB1 : (inject_Z (10 ^ lb) <= inject_Z (Z.pos b))%Q) by now rewrite <- Zle_Qle.
  assert (HB2 : (inject_Z (Z.pos b) < 10 * inject_Z (10 ^ lb))%Q).
  { change 10%Q with (inject_Z 10). rewrite <- inject_Z_mult, <- Zlt_Qlt.
    rewrite <- Z.pow_succ_r by lia. now replace (Z.succ lb) with (lb + 1) by lia. }
  assert (HPB : (0 < inject_Z (10 ^ lb))%Q).
  { change 0%Q with (inject_Z 0). rewrite <- Zlt_Qlt. apply Z.pow_pos_nonneg; lia. }
  pose proof (pow10_pos (la - lb)) as HPk.
  set (A := inject_Z a) in *. set (B := inject_Z (Z.pos b)) in *.
  set (PA := inject_Z (10 ^ la)) in *. set (PB := inject_Z (10 ^ lb)) in *.
  set (Pk := pow10 (la - lb)) in *.
  assert (Hup : (x < 10 * Pk)%Q).
  { assert (H1 : (x * B < 10 * Pk * B)%Q) by nra. nra. }
  assert (Hlow : (Pk < 10 * x)%Q).
  { assert (H1 : (Pk * PB < 10 * x * PB)%Q) by nra. nra. }
  destruct (Qle_bool Pk x) eqn:E.
  - apply Qle_bool_iff in E. split; [exact E|]. rewrite pow10_succ. exact Hup.
  - assert (Hn : ~ (Pk <= x)%Q) by (rewrite <- Qle_bool_iff; congruence).
    apply Qnot_le_lt in Hn.
    replace (la - lb - 1 + 1) with (la - lb) by lia. fold Pk.
    split; [|exact Hn].
    assert (E10 : (Pk == 10 * pow10 (la - lb - 1))%Q) by apply pow10_pred.
    lra.
Qed.

Lemma ceil_log10_spec (x : Q) :
  (0 < x)%Q ->
  (pow10 (ceil_log10 x - 1) < x)%Q /\ (x <= pow10 (ceil_log10 x))%Q
  /\ (ceil_log10 x = floor_log10 x \/ ceil_log10 x = floor_log10 x + 1)
  /\ (ceil_log10 x = floor_log10 x -> (x == pow10 (floor_log10 x))%Q).
Proof.
  intros Hx. destruct (floor_log10_spec x Hx) as [Hlo Hhi].
  unfold ceil_log10. destruct (Qeq_bool x (pow10 (floor_log10 x))) eqn:E.
  - apply Qeq_bool_iff in E. split; [|split; [|split]].
    + rewrite (pow10_pred (floor_log10 x)) in E.
      pose proof (pow10_pos (floor_log10 x - 1)). lra.
    + lra.
    + now left.
    + intros _. exact E.
  - apply Qeq_bool_neq in E. split; [|split; [|split]].
    + replace (floor_log10 x + 1 - 1) with (floor_log10 x) by lia.
      apply Qle_lteq in Hlo as [Hlt|Heq]; [exact Hlt|]. exfalso. apply E. now symmetry.
    + lra.
    + now right.
    + intros Hc. lia.
Qed.

End NumericFacts.

(** ** Float to token *)

Module FormatFacts.
Import Codec Format CodecFacts.

Lemma append_assoc (a b c : string) : (a +:+ b) +:+ c = a +:+ (b +:+ c).
Proof. induction a as [|x a IH]; [reflexivity|]. now rewrite !append_cons, IH. Qed.

Lemma length_append (a b : string) :
  String.length (a +:+ b) = (String.length a + String.length b)%nat.
Proof.
  induction a as [|x a IH]; [reflexivity|]. rewrite append_cons. simpl. now rewrite IH.
Qed.

Lemma digit_char_is_digit z : is_digit (digit_char (z mod 10)) = true.
Proof.
  pose proof (Z.mod_pos_bound z 10 eq_refl) as H.
  assert (E : z mod 10 = 0 \/ z mod 10 = 1 \/ z mod 10 = 2 \/ z mod 10 = 3
              \/ z mod 10 = 4 \/ z mod 10 = 5 \/ z mod 10 = 6 \/ z mod 10 = 7
              \/ z mod 10 = 8 \/ z mod 10 = 9) by lia.
  repeat (destruct E as [E|E]; [rewrite E; reflexivity|]).
  rewrite E. reflexivity.
Qed.

Lemma digits_fixed_spec n : forall m acc,
  exists D, digits_fixed n m acc = D +:+ acc
            /\ all_chars is_digit D = true /\ String.length D = n.
Proof.
  induction n as [|n IH]; intros m acc.
  - exists ""%string. repeat split.
  - cbn [digits_fixed].
    destruct (IH (m / 10) (String (digit_char (m mod 10)) acc)) as (D & -> & HD & HL).
    exists (D +:+ String (digit_char (m mod 10)) ""). split; [|split].
    + now rewrite append_assoc.
    + rewrite all_chars_app, HD. cbn [all_chars]. now rewrite digit_char_is_digit.
    + rewrite length_append, HL. simpl. lia.
Qed.

Lemma dec_digits_spec fuel : forall n acc,
  exists D, dec_digits fuel n acc = D +:+ acc
            /\ all_chars is_digit D = true
            /\ (1 <= fuel -> 1 <= String.length D)%nat
            /\ ((2 <= fuel)%nat -> 10 <= n -> (2 <= String.length D)%nat).
Proof.
  induction fuel as [|fuel IH]; intros n acc.
  - exists ""%string. repeat split; lia.
  - cbn [dec_digits]. destruct (Z.ltb_spec n 10) as [Hn|Hn].
    + exists (String (digit_char (n mod 10)) ""). repeat split.
      * cbn [all_chars]. now rewrite digit_char_is_digit.
      * simpl. lia.
      * lia.
    + destruct (IH (n / 10) (String (digit_char (n mod 10)) acc)) as (D & -> & HD & H1 & _).
      exists (D +:+ String (digit_char (n mod 10)) ""). split; [|split; [|split]].
      * now rewrite append_assoc.
      * rewrite all_chars_app, HD. cbn [all_chars]. now rewrite digit_char_is_digit.
      * intros _. rewrite length_append. simpl. lia.
      * intros Hf _. rewrite length_append. simpl.
        assert (1 <= String.length D)%nat by (apply H1; lia). lia.
Qed.

Lemma exponent_text_shape e :
  exists sg ex, exponent_text e = String sg ex
    /\ (Ascii.eqb sg "+" || Ascii.eqb sg "-") = true
    /\ all_chars is_digit ex = true /\ (2 <= String.length ex)%nat.
Proof.
  unfold exponent_text.
  destruct (dec_digits_spec (S (Z.to_nat (Z.log2 (Z.abs e)))) (Z.abs e) "")
    as (D & -> & HD & H1 & H2).
  rewrite append_nil_r.
  eexists _, _. split; [reflexivity|]. split; [now destruct (e <? 0)|].
  destruct (Z.ltb_spec (Z.abs e) 10) as [Ha|Ha].
  - split; [cbn [all_chars]; now rewrite HD|].
    simpl. assert (1 <= String.length D)%nat by (apply H1; lia). lia.
  - split; [exact HD|]. apply H2; [|exact Ha].
    assert (3 <= Z.log2 (Z.abs e)).
    { change 3 with (Z.log2 8). apply Z.log2_le_mono. lia. }
    lia.
Qed.

Lemma split_at_app (p : ascii -> bool) s c t :
  all_chars (fun x => negb (p x)) s = true -> p c = true ->
  split_at p (s +:+ String c t) = (s, Some t).
Proof.
  intros Hs Hc. induction s as [|x s IH].
  - change ("" +:+ String c t)%string with (String c t). cbn [split_at]. now rewrite Hc.
  - cbn [all_chars] in Hs. apply andb_true_iff in Hs as [Hx Hs].
    rewrite append_cons. cbn [split_at].
    apply negb_true_iff in Hx. now rewrite Hx, (IH Hs).
Qed.

Lemma digit_not (c a : ascii) : is_digit a = false -> is_digit c = true -> Ascii.eqb a c = false.
Proof. intros Ha Hc. destruct (Ascii.eqb_spec a c) as [->|]; congruence. Qed.

Lemma digit_neq_r (c a : ascii) : is_digit a = false -> is_digit c = true -> Ascii.eqb c a = false.
Proof. intros Ha Hc. rewrite Ascii.eqb_sym. now apply digit_not. Qed.

Lemma mantissa_digits_all D t :
  all_chars is_digit D = true ->
  mantissa_digits (D +:+ t) = (String.length D + mantissa_digits t)%nat.
Proof.
  induction D as [|c D IH]; [reflexivity|].
  cbn [all_chars]. intros [Hc HD]%andb_true_iff.
  rewrite append_cons. cbn [mantissa_digits String.length].
  rewrite (digit_neq_r c "e" eq_refl Hc), Hc, (IH HD). reflexivity.
Qed.

Lemma no_suffix_letter_app a b :
  no_suffix_letter (a +:+ b) = no_suffix_letter a && no_suffix_letter b.
Proof. apply all_chars_app. Qed.

Lemma digits_no_suffix D : all_chars is_digit D = true -> no_suffix_letter D = true.
Proof.
  apply all_chars_impl. intros c ->. reflexivity.
Qed.

(** The shape of what [.12e] prints. *)
Lemma format_e_shape (x : Q) :
  is_exp_token 12 (format_e 12 x) = true
  /\ mantissa_digits (format_e 12 x) = 13%nat
  /\ no_suffix_letter (format_e 12 x) = true.
Proof.
  unfold format_e. destruct (decompose 12 (Qabs x)) as [m e].
  destruct (digits_fixed_spec 13 m "") as (D & -> & HD & HL).
  rewrite append_nil_r.
  destruct D as [|d rest]; [discriminate HL|].
  cbn [all_chars] in HD. apply andb_true_iff in HD as [Hd Hrest].
  simpl in HL. injection HL as HL.
  destruct (exponent_text_shape e) as (sg & ex & -> & Hsg & Hex & Hlen).
  assert (Hbody : is_exp_body 12 (String d (String "." rest) +:+ String "e" (String sg ex)) = true).
  { rewrite !append_cons. cbn [is_exp_body]. rewrite Hd. cbn [andb Ascii.eqb Bool.eqb].
    rewrite (split_at_app (Ascii.eqb "e") rest "e" (String sg ex)).
    - rewrite Hrest, HL, Hsg, Hex. cbn [andb Nat.eqb].
      now apply Nat.leb_le.
    - eapply all_chars_impl; [|exact Hrest].
      intros c Hc. now rewrite (digit_not c "e" eq_refl Hc).
    - reflexivity. }
  assert (Hmd : mantissa_digits (String d (String "." rest) +:+ String "e" (String sg ex)) = 13%nat).
  { rewrite !append_cons. cbn [mantissa_digits].
    rewrite (digit_neq_r d "e" eq_refl Hd), Hd. cbn [Ascii.eqb Bool.eqb is_digit].
    rewrite (mantissa_digits_all rest _ Hrest), HL. reflexivity. }
  assert (Hns : no_suffix_letter (String d (String "." rest) +:+ String "e" (String sg ex)) = true).
  { rewrite no_suffix_letter_app. apply andb_true_iff. split.
    - unfold no_suffix_letter. cbn [all_chars]. rewrite Hd. cbn [orb andb].
      now apply digits_no_suffix.
    - unfold no_suffix_letter. cbn [all_chars]. cbn [Ascii.eqb Bool.eqb].
      apply orb_true_iff in Hsg as [Hs|Hs]; rewrite Hs, ?orb_true_r; cbn [andb];
        now apply digits_no_suffix. }
  destruct (Qlt_le_dec x 0).
  - change ("-" +:+ ?b +:+ ?c)%string with (String "-" (b +:+ c)).
    cbn [is_exp_token mantissa_digits]. change (Ascii.eqb "-" "-") with true.
    change (Ascii.eqb "-" "e") with false. change (is_digit "-") with false.
    cbv iota. rewrite Hbody, Hmd. repeat split.
    unfold no_suffix_letter in *. cbn [all_chars]. now rewrite Hns.
  - change ("" +:+ ?b +:+ ?c)%string with (b +:+ c).
    rewrite Hmd, Hns. repeat split.
    rewrite !append_cons in *. cbn [is_exp_token].
    now rewrite (digit_neq_r d "-" eq_refl Hd).
Qed.

(** The first of [S n] digits is the digit of weight [10^n]. *)
Lemma digits_fixed_lead n : forall m acc,
  digits_fixed (S n) m acc
  = String (digit_char ((m / 10 ^ Z.of_nat n) mod 10)) (digits_fixed n m acc).
Proof.
  induction n as [|n IH]; intros m acc.
  - cbn [digits_fixed]. change (10 ^ Z.of_nat 0) with 1. now rewrite Z.div_1_r.
  - change (digits_fixed (S (S n)) m acc)
      with (digits_fixed (S n) (m / 10) (String (digit_char (m mod 10)) acc)).
    rewrite IH. rewrite Z.div_div by (try lia; apply Z.pow_pos_nonneg; lia).
    rewrite Nat2Z.inj_succ, Z.pow_succ_r by lia. reflexivity.
Qed.

Lemma round_half_even_bounds (q : Q) :
  Qfloor q <= Numeric.round_half_even q <= Qfloor q + 1.
Proof.
  unfold Numeric.round_half_even.
  destruct (q - inject_Z (Qfloor q) ?= 1 # 2)%Q; [destruct (Z.even (Qfloor q))| |]; lia.
Qed.

(** The mantissa of a positive value has exactly thirteen digits. *)
Lemma decompose_range (a : Q) :
  (0 < a)%Q -> 10 ^ 12 <= fst (decompose 12 a) < 10 ^ 13.
Proof.
  intros Ha. unfold decompose.
  destruct (Qeq_bool a 0) eqn:E; [apply Qeq_bool_iff in E; lra|].
  destruct (NumericFacts.floor_log10_spec a Ha) as [Hlo Hhi].
  set (e0 := Numeric.floor_log10 a) in *.
  set (p := pow10 (e0 - Z.of_nat 12)).
  assert (Hp : (0 < p)%Q) by apply pow10_pos.
  assert (E12 : (pow10 e0 == inject_Z (10 ^ 12) * p)%Q).
  { unfold p. change (inject_Z (10 ^ 12)) with (pow10 12). rewrite <- pow10_add.
    now replace (12 + (e0 - Z.of_nat 12)) with e0 by lia. }
  assert (E13 : (pow10 (e0 + 1) == inject_Z (10 ^ 13) * p)%Q).
  { unfold p. change (inject_Z (10 ^ 13)) with (pow10 13). rewrite <- pow10_add.
    now replace (13 + (e0 - Z.of_nat 12)) with (e0 + 1) by lia. }
  assert (Hq1 : (inject_Z (10 ^ 12) <= a / p)%Q) by (apply Qle_shift_div_l; lra).
  assert (Hq2 : (a / p < inject_Z (10 ^ 13))%Q) by (apply Qlt_shift_div_r; lra).
  pose proof (round_half_even_bounds (a / p)) as [Hr1 Hr2].
  assert (Hf1 : 10 ^ 12 <= Qfloor (a / p)).
  { rewrite <- (Qfloor_Z (10 ^ 12)). now apply Qfloor_resp_le. }
  assert (Hf2 : Qfloor (a / p) < 10 ^ 13).
  { pose proof (Qfloor_le (a / p)) as Hfl.
    rewrite Zlt_Qlt. lra. }
  change (Z.of_nat 12 + 1) with 13. change (Z.of_nat 12) with 12 in *.
  destruct (Z.eqb_spec (Numeric.round_half_even (a / p)) (10 ^ 13)) as [Heq|Hne];
    cbn [fst]; lia.
Qed.

Lemma digit_char_nonzero (d : Z) :
  1 <= d <= 9 ->
  is_digit (digit_char d) = true /\ Ascii.eqb (digit_char d) "0" = false.
Proof.
  intros H.
  assert (E : d = 1 \/ d = 2 \/ d = 3 \/ d = 4 \/ d = 5 \/ d = 6 \/ d = 7 \/ d = 8 \/ d = 9)
    by lia.
  repeat (destruct E as [E|E]; [rewrite E; split; reflexivity|]).
  rewrite E. split; reflexivity.
Qed.

(** A value other than zero is written normalized; zero is written as zeros. *)
Lemma format_e_normal (x : Q) :
  (~ (x == 0)%Q -> leading_nonzero (format_e 12 x) = true)
  /\ ((x == 0)%Q -> format_e 12 x = zero_token).
Proof.
  split.
  - intros Hx. unfold format_e.
    assert (Ha : (0 < Qabs x)%Q).
    { pose proof (Qabs_nonneg x) as H0. apply Qle_lteq in H0 as [H0|H0]; [exact H0|].
      exfalso. apply Hx. symmetry in H0.
      destruct (Qlt_le_dec x 0) as [Hn|Hp].
      - rewrite Qabs_neg in H0 by lra. lra.
      - rewrite Qabs_pos in H0 by lra. exact H0. }
    pose proof (decompose_range (Qabs x) Ha) as Hm.
    destruct (decompose 12 (Qabs x)) as [m e]. cbn [fst] in Hm.
    rewrite (digits_fixed_lead 12).
    assert (Hd : 1 <= (m / 10 ^ Z.of_nat 12) mod 10 <= 9).
    { change (10 ^ Z.of_nat 12) with (10 ^ 12).
      assert (1 <= m / 10 ^ 12) by (apply Z.div_le_lower_bound; lia).
      assert (m / 10 ^ 12 < 10) by (apply Z.div_lt_upper_bound; lia).
      rewrite Z.mod_small by lia. lia. }
    destruct (digit_char_nonzero _ Hd) as [H1 H2].
    set (d := digit_char ((m / 10 ^ Z.of_nat 12) mod 10)) in *.
    destruct (Qlt_le_dec x 0).
    + change ("-" +:+ ?b +:+ ?c)%string with (String "-" (b +:+ c)).
      rewrite append_cons. cbn [leading_nonzero]. change (Ascii.eqb "-" "-") with true.
      cbv iota. now rewrite H1, H2.
    + change ("" +:+ ?b +:+ ?c)%string with (b +:+ c).
      rewrite append_cons. cbn [leading_nonzero].
      rewrite (digit_neq_r d "-" eq_refl H1). now rewrite H1, H2.
  - intros Hx. unfold format_e.
    assert (Ha : (Qabs x == 0)%Q) by (rewrite Hx; reflexivity).
    unfold decompose. rewrite (Qeq_eq_bool _ _ Ha).
    destruct (Qlt_le_dec x 0) as [Hn|_]; [lra|]. reflexivity.
Qed.

End FormatFacts.

(** ** Python lists and loops *)

Module PyFacts.
Import Py.

Lemma bind_Ok {A B : Type} (m : outcome A) (k : A -> outcome B) (r : B) :
  (x ← m; k x) = Ok r -> exists a, m = Ok a /\ k a = Ok r.
Proof. destruct m as [a|f]; [exists a; split; [reflexivity|assumption]|discriminate]. Qed.

Lemma get_item_Ok {A : Type} (l : list A) (i : nat) (x : A) :
  get_item l i = Ok x <-> l !! i = Some x.
Proof.
  unfold get_item, of_option. destruct (l !! i); split; intros H; congruence.
Qed.

Lemma get_item_Some {A : Type} (l : list A) (i : nat) (x : A) :
  l !! i = Some x -> get_item l i = Ok x.
Proof. apply get_item_Ok. Qed.

Lemma set_item_Ok {A : Type} (l l' : list A) (i : nat) (x : A) :
  set_item l i x = Ok l' -> (i < length l)%nat /\ l' = <[i:=x]> l.
Proof. unfold set_item. destruct (decide _); [|discriminate]. intros [= <-]. auto. Qed.

Lemma set_item_lt {A : Type} (l : list A) (i : nat) (x : A) :
  (i < length l)%nat -> set_item l i x = Ok (<[i:=x]> l).
Proof. intros H. unfold set_item. destruct (decide _); [reflexivity|contradiction]. Qed.

Lemma set_item_ge {A : Type} (l : list A) (i : nat) (x : A) :
  (length l <= i)%nat -> set_item l i x = Fail IndexError.
Proof. intros H. unfold set_item. destruct (decide _); [lia|reflexivity]. Qed.

(** Loop invariants: what holds at entry and is kept by every pass holds at exit. *)
Lemma for_range_from_inv {St : Type} (P : nat -> St -> Prop) (body : nat -> St -> outcome St)
    (n : nat) : forall (start : nat) (s r : St),
  for_range_from start n body s = Ok r ->
  P start s ->
  (forall k s1 s2, (start <= k < start + n)%nat -> P k s1 -> body k s1 = Ok s2 -> P (S k) s2) ->
  P (start + n)%nat r.
Proof.
  induction n as [|n IH]; intros start s r Hrun Hs Hstep.
  - injection Hrun as <-. now rewrite Nat.add_0_r.
  - cbn [for_range_from] in Hrun. apply bind_Ok in Hrun as (s1 & Hb & Hrest).
    replace (start + S n)%nat with (S start + n)%nat by lia.
    apply (IH (S start) s1 r Hrest).
    + apply (Hstep start s s1); [lia|assumption|assumption].
    + intros k a b Hk. apply Hstep. lia.
Qed.

End PyFacts.

(** ** Netlist model *)

Module NetlistFacts.
Import Py Netlist PyFacts.

Lemma set_value_Ok (nl nl' : netlist) (i : nat) (tok : string) :
  set_value nl i tok = Ok nl' ->
  exists l : line, nl !! i = Some l /\ (3 < length l)%nat /\ nl' = <[i:=<[3%nat:=tok]> l]> nl.
Proof.
  unfold set_value. intros H.
  apply bind_Ok in H as (l & Hl%get_item_Ok & H).
  apply bind_Ok in H as (l' & [Hlt ->]%set_item_Ok & [= <-]).
  exists l. auto.
Qed.

(** One assignment [netlist[i][3] = tok]: line [i] keeps its length and every
    token but the fourth, and every other line is the same. *)
Lemma set_value_frame (nl nl' : netlist) (i : nat) (tok : string) :
  set_value nl i tok = Ok nl' ->
  length nl' = length nl
  /\ (forall j, j <> i -> nl' !! j = nl !! j)
  /\ exists l l' : line, nl !! i = Some l /\ nl' !! i = Some l'
       /\ length l' = length l /\ l' !! 3%nat = Some tok
       /\ forall t, t <> 3%nat -> l' !! t = l !! t.
Proof.
  intros (l & Hl & Hlt & ->)%set_value_Ok.
  split; [apply length_insert|]. split.
  - intros j Hj. now apply list_lookup_insert_ne.
  - exists l, (<[3%nat:=tok]> l). split; [exact Hl|]. split.
    + apply list_lookup_insert_eq. now apply lookup_lt_Some in Hl.
    + split; [apply length_insert|]. split.
      * now apply list_lookup_insert_eq.
      * intros t Ht. now apply list_lookup_insert_ne.
Qed.

Lemma serialize_from (nl : netlist) (n : nat) : forall (start : nat) (out : string),
  (start + n = length nl)%nat ->
  for_range_from start n
    (fun k out => thisLine ← get_item nl k; Ok (out +:+ record_text thisLine)) out
  = Ok (out +:+ lines_text (drop start nl)).
Proof.
  induction n as [|n IH]; intros start out Hlen.
  - rewrite drop_ge by lia. cbn [for_range_from lines_text fold_right].
    now rewrite CodecFacts.append_nil_r.
  - destruct (lookup_lt_is_Some_2 nl start) as [l Hl]; [lia|].
    cbn [for_range_from]. rewrite (get_item_Some _ _ _ Hl).
    cbn [mbind outcome_bind]. rewrite IH by lia.
    rewrite (drop_S _ _ _ Hl). cbn [lines_text fold_right].
    now rewrite FormatFacts.append_assoc.
Qed.

(** Serialization: one record per line, tokens joined by single spaces, in
    netlist order. *)
Lemma serialize_text (nl : netlist) :
  serialize (length nl) nl = Ok (lines_text nl).
Proof.
  unfold serialize, for_range. now rewrite serialize_from by lia.
Qed.

End NetlistFacts.

(** ** Objective function: the netlist update *)

Module UpdateFacts.
Import Py Netlist PyFacts NetlistFacts Objective.

Section Update.
Variable np_exp : Q -> Q.

Lemma value_token_Ok nomParams optParams k tok :
  value_token np_exp nomParams optParams k = Ok tok ->
  exists nom p, nomParams !! k = Some nom /\ optParams !! k = Some p
                /\ tok = Format.format_e 12 (nom * np_exp p).
Proof.
  unfold value_token. intros H.
  apply bind_Ok in H as (nom & Hn%get_item_Ok & H).
  apply bind_Ok in H as (p & Hp%get_item_Ok & [= <-]).
  eauto.
Qed.

Lemma write_step_Ok (kw : kwargs) optParams k (nl nl2 : netlist) :
  (tok ← value_token np_exp (nomParamsD kw) optParams k;
   line ← get_item (OptLineD kw) k;
   set_value nl line tok) = Ok nl2 ->
  exists x line (l : Netlist.line),
    OptLineD kw !! k = Some line /\ nl !! line = Some l /\ (3 < length l)%nat
    /\ nl2 = <[line:=<[3%nat:=Format.format_e 12 x]> l]> nl.
Proof.
  intros H. apply bind_Ok in H as (tok & (nom & p & _ & _ & ->)%value_token_Ok & H).
  apply bind_Ok in H as (line & Hline%get_item_Ok & H).
  apply set_value_Ok in H as (l & Hl & Hlt & ->).
  eauto 10.
Qed.

Lemma write_values_frame_upto (kw : kwargs) optParams nl' :
  write_values np_exp kw optParams = Ok nl' -> frame_upto kw (numOptdD kw) nl'.
Proof.
  unfold write_values, for_range. intros H.
  apply (for_range_from_inv (frame_upto kw) _ _ 0%nat _ _ H).
  - split; [reflexivity|]. intros j l Hl. exists l. auto.
  - clear H. intros k nl nl2 _ [Hlen Hinv] Hstep.
    apply write_step_Ok in Hstep as (x & line & ll & Hline & Hll & Hlt & ->).
    split; [now rewrite length_insert|].
    intros j l Hl. destruct (Hinv j l Hl) as (l' & Hl' & Hlen' & Htok & Hsame).
    destruct (decide (j = line)) as [->|Hne].
    + assert (ll = l') as -> by congruence.
      exists (<[3%nat:=Format.format_e 12 x]> l'). split; [|split; [|split]].
      * apply list_lookup_insert_eq. now apply lookup_lt_Some in Hll.
      * now rewrite length_insert.
      * intros t Ht. rewrite list_lookup_insert_ne by congruence. now apply Htok.
      * intros Hun. exfalso. apply (Hun k); [lia|exact Hline].
    + exists l'. split; [|split; [|split]]; try assumption.
      * now rewrite list_lookup_insert_ne.
      * intros Hun. apply Hsame. intros k' Hk'. apply Hun. lia.
Qed.

Lemma write_values_written_upto (kw : kwargs) optParams nl' :
  write_values np_exp kw optParams = Ok nl' -> written_upto kw (numOptdD kw) nl'.
Proof.
  unfold write_values, for_range. intros H.
  apply (for_range_from_inv (written_upto kw) _ _ 0%nat _ _ H).
  - intros k' line Hk'. lia.
  - clear H. intros k nl nl2 _ Hinv Hstep.
    apply write_step_Ok in Hstep as (x & line & ll & Hline & Hll & Hlt & ->).
    assert (Hnew : exists (l : Netlist.line) y,
               <[line:=<[3%nat:=Format.format_e 12 x]> ll]> nl !! line = Some l
               /\ l !! 3%nat = Some (Format.format_e 12 y)).
    { exists (<[3%nat:=Format.format_e 12 x]> ll), x. split.
      - apply list_lookup_insert_eq. now apply lookup_lt_Some in Hll.
      - now apply list_lookup_insert_eq. }
    intros k' line' Hk' Hline'.
    destruct (decide (line' = line)) as [->|Hne]; [exact Hnew|].
    assert (k' <> k) by congruence.
    destruct (Hinv k' line') as (l & y & Hl & Hy); [lia|assumption|].
    exists l, y. split; [|exact Hy]. now rewrite list_lookup_insert_ne.
Qed.

(** C8: the update loop of the objective function changes nothing but the
    fourth token (index 3) of the lines it is pointed at: the netlist keeps
    its lines and their order, every line keeps its length and all its other
    tokens, a line that is no target is left as it was; a single assignment
    [netlist[i][3] = tok] leaves every other line and every other token of
    line [i] alone; and the file written afterwards is one record per line,
    in order, each the line's tokens joined by single spaces. *)
Theorem netlist_mutation_isolated (kw : kwargs) (optParams : list Q) (nl' : netlist) :
  write_values np_exp kw optParams = Ok nl' ->
  numlines_netlistD kw = length (netlistD kw) ->
  length nl' = length (netlistD kw)
  /\ (forall j (l : Netlist.line), netlistD kw !! j = Some l ->
        exists l' : Netlist.line, nl' !! j = Some l' /\ length l' = length l
          /\ (forall t, t <> 3%nat -> l' !! t = l !! t)
          /\ ((forall k, (k < numOptdD kw)%nat -> OptLineD kw !! k <> Some j) -> l' = l))
  /\ (forall (nl nl1 : netlist) i tok, set_value nl i tok = Ok nl1 ->
        length nl1 = length nl
        /\ (forall j, j <> i -> nl1 !! j = nl !! j)
        /\ exists l l' : Netlist.line, nl !! i = Some l /\ nl1 !! i = Some l'
             /\ length l' = length l /\ l' !! 3%nat = Some tok
             /\ forall t, t <> 3%nat -> l' !! t = l !! t)
  /\ serialize (numlines_netlistD kw) nl' = Ok (lines_text nl')
  /\ lines_text nl'
     = fold_right (fun thisLine rest => (String.concat " " thisLine +:+ newline) +:+ rest)
         EmptyString nl'.
Proof.
  intros Hw Hn. destruct (write_values_frame_upto kw optParams nl' Hw) as [Hlen Hfr].
  split; [exact Hlen|]. split; [exact Hfr|]. split; [apply set_value_frame|].
  split; [|reflexivity]. rewrite Hn, <- Hlen. apply serialize_text.
Qed.

(** C7 (amended): every value token the objective function writes into the
    netlist is exponential notation with one digit before the point and
    twelve after it, thirteen significant digits in all, then the exponent
    mark, a sign and at least two exponent digits; no unit or magnitude
    suffix letter appears in it, and the leading digit is not 0 unless the
    value written is zero. *)
Theorem written_tokens_exponential (kw : kwargs) (optParams : list Q) (nl' : netlist)
    (k line : nat) :
  write_values np_exp kw optParams = Ok nl' ->
  (k < numOptdD kw)%nat -> OptLineD kw !! k = Some line ->
  exists (l : Netlist.line) tok, nl' !! line = Some l /\ l !! 3%nat = Some tok
    /\ Format.is_exp_token 12 tok = true
    /\ Format.mantissa_digits tok = 13%nat
    /\ Format.no_suffix_letter tok = true
    /\ (Format.leading_nonzero tok = true \/ tok = Format.zero_token).
Proof.
  intros Hw Hk Hline.
  destruct (write_values_written_upto kw optParams nl' Hw k line Hk Hline)
    as (l & x & Hl & Hx).
  exists l, (Format.format_e 12 x). split; [exact Hl|]. split; [exact Hx|].
  destruct (FormatFacts.format_e_shape x) as (H1 & H2 & H3).
  destruct (FormatFacts.format_e_normal x) as [Hnz Hz].
  repeat (split; [assumption|]).
  destruct (Qeq_dec x 0) as [E|E]; [right; now apply Hz|left; now apply Hnz].
Qed.
End Update.

End UpdateFacts.

(** ** Start-up resolution of the tunable instances *)

Module ResolveFacts.
Import Py Netlist PyFacts.

Section Resolve.
Variable names : list string.
Variables maxv minv : list Q.
Variable nl : netlist.
Hypothesis Hne : Forall (fun l : line => l ≠ []) nl.
Hypothesis Hsv : served names maxv minv nl.

Local Abbreviation numOptd := (length names).
Local Abbreviation recorded := (Netlist.recorded names).

Lemma recorded_le st M : recorded st M -> (length M <= numOptd)%nat.
Proof.
  intros (Ho & _ & _ & _ & Ht). rewrite <- Ho.
  rewrite <- Ht at 1. rewrite length_take. lia.
Qed.

Lemma scan_line_miss kk k name st :
  names !! kk = Some name -> (k < length nl)%nat ->
  line_matches nl name k = false -> scan_line names maxv minv nl kk k st = Ok st.
Proof.
  intros Hname Hk Hm. unfold scan_line, line_matches in *.
  destruct (lookup_lt_is_Some_2 nl k Hk) as [l Hl]. rewrite Hl in Hm.
  rewrite (get_item_Some _ _ _ Hl), (get_item_Some _ _ _ Hname). cbn [mbind outcome_bind].
  destruct l as [|d l].
  - exfalso. pose proof Hne as Hne'. rewrite Forall_forall in Hne'.
    apply (Hne' []); [|reflexivity]. eapply list_elem_of_lookup_2. exact Hl.
  - cbn. now rewrite Hm.
Qed.

Lemma scan_line_hit kk k name st M :
  names !! kk = Some name -> (k < length nl)%nat ->
  line_matches nl name k = true -> recorded st M ->
  ((length M < numOptd)%nat ->
     exists st', scan_line names maxv minv nl kk k st = Ok st' /\ recorded st' (M ++ [k]))
  /\ ((numOptd <= length M)%nat ->
     scan_line names maxv minv nl kk k st = Fail IndexError).
Proof.
  intros Hname Hk Hm (Ho & Hu & Hlb & Hkkk & Ht).
  destruct (Hsv kk name Hname) as [Hmx Hmn].
  { intros E. assert (Hin : k ∈ matching_lines nl name).
    { unfold matching_lines. apply list_elem_of_filter. split; [exact Hm|].
      apply elem_of_seq. lia. }
    rewrite E in Hin. now apply elem_of_nil in Hin. }
  unfold scan_line, line_matches in *.
  destruct (lookup_lt_is_Some_2 nl k Hk) as [l Hl]. rewrite Hl in Hm.
  rewrite (get_item_Some _ _ _ Hl), (get_item_Some _ _ _ Hname). cbn [mbind outcome_bind].
  destruct l as [|d l]; [discriminate|]. cbn [get_item lookup list_lookup of_option].
  cbn [mbind outcome_bind]. rewrite Hm. rewrite Hkkk. replace (S (length M) - 1)%nat with (length M) by lia.
  split.
  - intros Hlt. rewrite set_item_lt by lia. cbn [mbind outcome_bind].
    assert (Hkk : (kk < numOptd)%nat) by (now apply lookup_lt_Some in Hname).
    destruct (lookup_lt_is_Some_2 maxv kk) as [mx Hmxv]; [lia|].
    destruct (lookup_lt_is_Some_2 minv kk) as [mn Hmnv]; [lia|].
    rewrite (get_item_Some _ _ _ Hmxv). cbn [mbind outcome_bind].
    rewrite set_item_lt by lia. cbn [mbind outcome_bind].
    rewrite (get_item_Some _ _ _ Hmnv). cbn [mbind outcome_bind].
    rewrite set_item_lt by lia. cbn [mbind outcome_bind].
    eexists. split; [reflexivity|]. unfold recorded. cbn.
    rewrite !length_insert, length_app. cbn.
    repeat (split; [first [assumption|lia]|]).
    replace (length M + 1)%nat with (S (length M)) by lia.
    rewrite (take_S_r _ _ k).
    + rewrite take_insert_ge by lia. now rewrite Ht.
    + apply list_lookup_insert_eq. lia.
  - intros Hge. rewrite set_item_ge by lia. reflexivity.
Qed.

(** The inner loop, over the lines [start .. start + n - 1]. *)
Lemma scan_lines_spec kk name (n : nat) : forall start st M,
  names !! kk = Some name -> (start + n <= length nl)%nat -> recorded st M ->
  let R := filter (fun k => line_matches nl name k = true) (seq start n) in
  ((length M + length R <= numOptd)%nat ->
     exists st', for_range_from start n (scan_line names maxv minv nl kk) st = Ok st'
                 /\ recorded st' (M ++ R))
  /\ ((numOptd < length M + length R)%nat ->
     for_range_from start n (scan_line names maxv minv nl kk) st = Fail IndexError).
Proof.
  induction n as [|n IH]; intros start st M Hname Hlen Hrec R.
  - subst R. cbn. rewrite app_nil_r. split; [eauto|].
    pose proof (recorded_le st M Hrec). lia.
  - subst R. cbn [seq for_range_from]. rewrite filter_cons.
    destruct (decide (line_matches nl name start = true)) as [Hm|Hm].
    + destruct (scan_line_hit kk start name st M Hname ltac:(lia) Hm Hrec) as [Hok Hbad].
      cbn [length]. split.
      * intros Hle. destruct Hok as (st1 & -> & Hrec1); [lia|]. cbn [mbind outcome_bind].
        destruct (IH (S start) st1 (M ++ [start]) Hname ltac:(lia) Hrec1) as [H1 _].
        rewrite length_app in H1. cbn in H1.
        destruct H1 as (st' & -> & Hrec'); [lia|].
        exists st'. split; [reflexivity|]. now rewrite <- app_assoc in Hrec'.
      * intros Hgt. destruct (decide (length M < numOptd)%nat) as [Hlt|Hge].
        -- destruct Hok as (st1 & -> & Hrec1); [lia|]. cbn [mbind outcome_bind].
           destruct (IH (S start) st1 (M ++ [start]) Hname ltac:(lia) Hrec1) as [_ H2].
           apply H2. rewrite length_app. cbn. lia.
        -- rewrite Hbad by lia. reflexivity.
    + apply not_true_is_false in Hm.
      rewrite (scan_line_miss kk start name st Hname ltac:(lia) Hm).
      cbn [mbind outcome_bind]. apply IH; [assumption|lia|assumption].
Qed.

(** The outer loop, over the instances [start .. start + n - 1]. *)
Lemma scan_names_spec (n : nat) : forall start st M,
  (start + n <= numOptd)%nat -> recorded st M ->
  let R := concat (map (matching_lines nl) (take n (drop start names))) in
  ((length M + length R <= numOptd)%nat ->
     exists st',
       for_range_from start n
         (fun kk st => for_range (length nl) (scan_line names maxv minv nl kk) st) st = Ok st'
       /\ recorded st' (M ++ R))
  /\ ((numOptd < length M + length R)%nat ->
     for_range_from start n
       (fun kk st => for_range (length nl) (scan_line names maxv minv nl kk) st) st
     = Fail IndexError).
Proof.
  induction n as [|n IH]; intros start st M Hlen Hrec R.
  - subst R. rewrite take_0. cbn [map concat for_range_from length]. rewrite app_nil_r.
    split; [eauto|]. pose proof (recorded_le st M Hrec). lia.
  - destruct (lookup_lt_is_Some_2 names start) as [name Hname]; [lia|].
    subst R. rewrite (drop_S _ _ _ Hname), firstn_cons. cbn [map concat for_range_from].
    rewrite length_app.
    destruct (scan_lines_spec start name (length nl) 0%nat st M Hname ltac:(lia) Hrec)
      as [Hok Hbad].
    fold (matching_lines nl name) in Hok, Hbad. unfold for_range.
    split.
    + intros Hle. destruct Hok as (st1 & -> & Hrec1); [lia|]. cbn [mbind outcome_bind].
      destruct (IH (S start) st1 (M ++ matching_lines nl name) ltac:(lia) Hrec1) as [H1 _].
      rewrite length_app in H1. destruct H1 as (st' & H1 & Hrec'); [lia|].
      unfold for_range in H1. rewrite H1.
      exists st'. split; [reflexivity|]. now rewrite <- app_assoc in Hrec'.
    + intros Hgt.
      destruct (decide (length M + length (matching_lines nl name) <= numOptd)%nat)
        as [Hle|Hnle].
      * destruct Hok as (st1 & -> & Hrec1); [lia|]. cbn [mbind outcome_bind].
        destruct (IH (S start) st1 (M ++ matching_lines nl name) ltac:(lia) Hrec1) as [_ H2].
        unfold for_range in H2. apply H2. rewrite length_app. lia.
      * rewrite Hbad by lia. reflexivity.
Qed.

Lemma resolve_spec :
  let m := length (all_matches names nl) in
  (m = numOptd -> exists st, resolve names maxv minv nl = Ok st
                             /\ OptLine st = all_matches names nl)
  /\ ((m < numOptd)%nat -> resolve names maxv minv nl = Fail SysExit)
  /\ ((numOptd < m)%nat -> resolve names maxv minv nl = Fail IndexError).
Proof.
  intros m. unfold resolve, for_range.
  set (st0 := {| OptLine := replicate numOptd 0%nat; UB := replicate numOptd 0%Q;
                 LB := replicate numOptd 0%Q; kkk := 1 |}).
  assert (Hrec0 : recorded st0 []).
  { unfold recorded, st0. cbn. rewrite !length_replicate. auto. }
  destruct (scan_names_spec numOptd 0%nat st0 [] ltac:(lia) Hrec0) as [Hok Hbad].
  assert (E : take numOptd (drop 0 names) = names) by apply firstn_all.
  rewrite E in Hok, Hbad. fold (all_matches names nl) in Hok, Hbad.
  unfold for_range in Hok, Hbad.
  fold m in Hok, Hbad. cbn [length app Nat.add] in Hok, Hbad.
  split; [|split].
  - intros Hm. destruct Hok as (st' & -> & Hrec'); [lia|]. cbn [mbind outcome_bind].
    destruct Hrec' as (Ho & _ & _ & Hk & Ht). fold m in Hk, Ht.
    rewrite Hk. destruct (decide _) as [Hd|_]; [lia|].
    exists st'. split; [reflexivity|]. rewrite <- Ht, Hm, <- Ho. now rewrite firstn_all.
  - intros Hm. destruct Hok as (st' & -> & Hrec'); [lia|]. cbn [mbind outcome_bind].
    destruct Hrec' as (_ & _ & _ & Hk & _). fold m in Hk.
    rewrite Hk. destruct (decide _) as [_|Hd]; [reflexivity|lia].
  - intros Hm. rewrite Hbad by lia. reflexivity.
Qed.

Lemma exactly_one_count :
  (forall name, In name names -> length (matching_lines nl name) = 1%nat) ->
  length (all_matches names nl) = numOptd.
Proof.
  unfold all_matches. clear Hne Hsv. induction names as [|a l IH]; intros H.
  - reflexivity.
  - cbn [map concat]. rewrite length_app, H by (left; reflexivity).
    cbn [length]. f_equal. apply IH. intros name Hin. apply H. now right.
Qed.
End Resolve.

(** What the loops read where they run through. *)
Lemma for_range_from_body_Ok {St : Type} (body : nat -> St -> outcome St) (n : nat) :
  forall (start : nat) (s r : St),
  for_range_from start n body s = Ok r ->
  forall k, (start <= k < start + n)%nat -> exists s1 s2, body k s1 = Ok s2.
Proof.
  induction n as [|n IH]; intros start s r H k Hk; [lia|].
  cbn [for_range_from] in H. apply bind_Ok in H as (s1 & Hb & Hrest).
  destruct (decide (k = start)) as [->|Hne]; [eauto|].
  apply (IH (S start) s1 r Hrest). lia.
Qed.

Lemma for_range_from_failure {St : Type} (body : nat -> St -> outcome St) (e : failure)
    (n : nat) : forall (start : nat) (s : St) (f : failure),
  (forall k s1 f1, body k s1 = Fail f1 -> f1 = e) ->
  for_range_from start n body s = Fail f -> f = e.
Proof.
  induction n as [|n IH]; intros start s f Hb H; [discriminate H|].
  cbn [for_range_from] in H. destruct (body start s) as [s1|f1] eqn:E.
  - cbn [mbind outcome_bind] in H. exact (IH _ _ _ Hb H).
  - cbn [mbind outcome_bind] in H. injection H as <-. exact (Hb _ _ _ E).
Qed.

(** Every read of the inner loop body that can go wrong is an index. *)
Lemma scan_line_raises names maxv minv nl kk k st f :
  scan_line names maxv minv nl kk k st = Fail f -> f = IndexError.
Proof.
  unfold scan_line, get_item, set_item, of_option. intros H.
  repeat match type of H with
         | context [match ?o with Some _ => _ | None => _ end] => destruct o
         | context [if ?b then _ else _] => destruct b
         | (Ok _ ≫= _) = _ => cbn [mbind outcome_bind] in H
         | (Fail _ ≫= _) = _ => cbn [mbind outcome_bind] in H
         | Fail _ = Fail _ => injection H as <-
         | Ok _ = Fail _ => discriminate H
         end; reflexivity.
Qed.

(** A pass of the inner loop body that went through has found a first token
    on its line and, on a match, the two bounds of its name. *)
Lemma scan_line_Ok_inv names maxv minv nl kk k st st' name (l : line) :
  scan_line names maxv minv nl kk k st = Ok st' ->
  names !! kk = Some name -> nl !! k = Some l ->
  l <> []
  /\ (line_matches nl name k = true ->
      (kk < length maxv)%nat /\ (kk < length minv)%nat).
Proof.
  intros H Hname Hl. unfold scan_line in H.
  rewrite (get_item_Some _ _ _ Hl), (get_item_Some _ _ _ Hname) in H.
  cbn [mbind outcome_bind] in H.
  apply bind_Ok in H as (d & Hd%get_item_Ok & H).
  split; [intros ->; discriminate Hd|].
  unfold line_matches. rewrite Hl. destruct l as [|d' l]; [discriminate|].
  injection Hd as ->. intros Hm. rewrite Hm in H.
  apply bind_Ok in H as (ol & _ & H).
  apply bind_Ok in H as (mx & Hmx%get_item_Ok & H).
  apply bind_Ok in H as (ub & _ & H).
  apply bind_Ok in H as (mn & Hmn%get_item_Ok & _).
  split; eapply lookup_lt_Some; eassumption.
Qed.

(** The two loops run through on a scannable input only. *)
Lemma scan_Ok_scannable names maxv minv nl st0 st :
  for_range (length names)
    (fun kk st => for_range (length nl) (scan_line names maxv minv nl kk) st) st0 = Ok st ->
  scannable names maxv minv nl.
Proof.
  unfold for_range. intros H.
  assert (Hat : forall kk k name (l : line),
            names !! kk = Some name -> nl !! k = Some l ->
            exists s1 s2, scan_line names maxv minv nl kk k s1 = Ok s2).
  { intros kk k name l Hname Hl.
    destruct (for_range_from_body_Ok _ _ _ _ _ H kk) as (a & b & Hin).
    { apply lookup_lt_Some in Hname. lia. }
    apply (for_range_from_body_Ok _ _ _ _ _ Hin k).
    apply lookup_lt_Some in Hl. lia. }
  split.
  - destruct names as [|name0 names']; [now left|right].
    apply Forall_lookup. intros k l Hl.
    destruct (Hat 0%nat k name0 l eq_refl Hl) as (s1 & s2 & Hs).
    exact (proj1 (scan_line_Ok_inv _ _ _ _ _ _ _ _ _ _ Hs eq_refl Hl)).
  - intros kk name Hname Hm.
    destruct (matching_lines nl name) as [|k M] eqn:E; [contradiction|].
    assert (Hin : k ∈ matching_lines nl name) by (rewrite E; left).
    unfold matching_lines in Hin. apply list_elem_of_filter in Hin as [Hk Hseq].
    apply elem_of_seq in Hseq.
    destruct (lookup_lt_is_Some_2 nl k ltac:(lia)) as [l Hl].
    destruct (Hat kk k name l Hname Hl) as (s1 & s2 & Hs).
    exact (proj2 (scan_line_Ok_inv _ _ _ _ _ _ _ _ _ _ Hs Hname Hl) Hk).
Qed.

(** The resolution ends in a result or in [sys.exit] on a scannable input
    only, and in no other exception than an IndexError. *)
Lemma resolve_inv names maxv minv nl :
  match resolve names maxv minv nl with
  | Ok _ | Fail SysExit => scannable names maxv minv nl
  | Fail IndexError => True
  | Fail _ => False
  end.
Proof.
  unfold resolve.
  destruct (for_range (length names)
              (fun kk st => for_range (length nl) (scan_line names maxv minv nl kk) st) _)
    as [st|f] eqn:E.
  - cbn [mbind outcome_bind]. apply scan_Ok_scannable in E.
    destruct (decide _); exact E.
  - cbn [mbind outcome_bind]. unfold for_range in E.
    apply (for_range_from_failure _ IndexError) in E; [now subst f|].
    intros kk s1 f1 H1. apply (for_range_from_failure _ IndexError) in H1; [exact H1|].
    intros k s2 f2. apply scan_line_raises.
Qed.

(** On a scannable input the outcome is decided by the number of matches. *)
Lemma resolve_scannable names maxv minv nl :
  scannable names maxv minv nl ->
  let m := length (all_matches names nl) in
  (m = length names -> exists st, resolve names maxv minv nl = Ok st
                                  /\ OptLine st = all_matches names nl)
  /\ ((m < length names)%nat -> resolve names maxv minv nl = Fail SysExit)
  /\ ((length names < m)%nat -> resolve names maxv minv nl = Fail IndexError).
Proof.
  intros [[->|Hne] Hsv] m.
  - subst m. cbn. split; [|split]; [|lia|lia].
    intros _. eexists. split; reflexivity.
  - exact (resolve_spec names maxv minv nl Hne Hsv).
Qed.

Lemma well_formed_scannable names maxv minv nl :
  well_formed names maxv minv nl -> scannable names maxv minv nl.
Proof.
  intros (Hne & Hmx & Hmn). split; [now right|].
  intros kk name Hname _. apply lookup_lt_Some in Hname. lia.
Qed.


End ResolveFacts.

(** ** Simulation synchronizer *)

Module SyncFacts.
Import Sync.

Lemma poll_unchanged (r : run) (md5 : Z) :
  (forall t, md5_at r t = md5) -> forall fuel t, poll fuel r md5 t = Fail Hang.
Proof.
  intros Hsame. induction fuel as [|fuel IH]; intros t; [reflexivity|].
  cbn [poll]. rewrite Hsame, Z.eqb_refl. apply IH.
Qed.

(** The loop ends at the first read that finds another hash. *)
Lemma poll_changed (r : run) (md5 : Z) (n : nat) : forall fuel t,
  (forall i, (i < n)%nat -> md5_at r (t + i) = md5) ->
  md5_at r (t + n) <> md5 -> (n < fuel)%nat ->
  poll fuel r md5 t = Ok (S (t + n)).
Proof.
  induction n as [|n IH]; intros fuel t Hbefore Hat Hfuel.
  - destruct fuel as [|fuel]; [lia|]. cbn [poll]. rewrite Nat.add_0_r in *.
    apply Z.eqb_neq in Hat. now rewrite Hat.
  - destruct fuel as [|fuel]; [lia|]. cbn [poll].
    pose proof (Hbefore 0%nat ltac:(lia)) as H0. rewrite Nat.add_0_r in H0.
    rewrite H0, Z.eqb_refl.
    replace (t + S n)%nat with (S t + n)%nat in * by lia.
    apply IH; [|assumption|lia].
    intros i Hi. replace (S t + i)%nat with (t + S i)%nat by lia. apply Hbefore. lia.
Qed.

(** With a failed launch the exit is reached only once the polling is over. *)
Lemma runSim_abort_after_poll (r : run) (n fuel : nat) :
  status r <> 0 ->
  (forall i, (i < n)%nat -> md5_at r i = md5_before r) ->
  md5_at r n <> md5_before r -> (n < fuel)%nat ->
  poll fuel r (md5_before r) 0 = Ok (S n) /\ runSim fuel r = Fail SysExit.
Proof.
  intros Hst Hbefore Hat Hfuel.
  assert (Hp : poll fuel r (md5_before r) 0 = Ok (S n)).
  { apply (poll_changed r (md5_before r) n fuel 0%nat); assumption. }
  split; [exact Hp|]. unfold runSim. rewrite Hp. cbn [mbind outcome_bind].
  apply Z.eqb_neq in Hst. now rewrite Hst.
Qed.

(** C2: after a launch that reports a nonzero status, while the artifact's
    hash stays what it was, the synchronizer is still polling whatever time it
    is given: the status is tested only behind the poll loop, so the run is
    not aborted. *)
Theorem nonzero_status_still_polling (r : run) :
  status r <> 0 -> (forall t, md5_at r t = md5_before r) ->
  forall fuel, runSim fuel r = Fail Hang /\ runSim fuel r <> Fail SysExit.
Proof.
  intros _ Hsame fuel. unfold runSim.
  rewrite (poll_unchanged r (md5_before r) Hsame). split; [reflexivity|discriminate].
Qed.

End SyncFacts.

(** ** Objective function: the residual *)

Module ObjectiveFacts.
Import Py Netlist PyFacts Objective.

Lemma broadcast_same_length (op : Q -> Q -> Q) (a b : list Q) :
  length a = length b -> broadcast op a b = Ok (zip_with op a b).
Proof. intros H. unfold broadcast. destruct (decide _); [reflexivity|contradiction]. Qed.

Section Residual.
Variable np_exp : Q -> Q.
Variable complex : Type.
Variable c_abs : complex -> Q.
Variable c_angle : complex -> Q.
Variable np_unwrap : list Q -> list Q.
Variable simulate : string -> Sync.run * raw complex.

(** [np.unwrap] keeps the shape of its argument. *)
Hypothesis np_unwrap_length : forall l, length (np_unwrap l) = length l.

Local Abbreviation simulated := (Objective.simulated complex c_abs c_angle np_unwrap).

Lemma response_Ok (LTR : raw complex) node matchMode outNode freqx :
  LTR node = Some outNode -> LTR "frequency"%string = Some freqx ->
  matchMode = 1 \/ matchMode = 2 \/ matchMode = 3 ->
  response complex c_abs c_angle np_unwrap LTR node matchMode
  = Ok (simulated matchMode outNode).
Proof.
  intros Hn Hf Hm. unfold response, get_trace, simulated. rewrite Hn, Hf.
  cbn [of_option mbind outcome_bind].
  destruct Hm as [-> | [-> | ->]]; reflexivity.
Qed.

(** C4: an evaluation that gets through the simulation returns
    (target - simulated) multiplied elementwise by the error weights, the
    simulated vector being the magnitudes in match mode 1, the unwrapped
    phases in mode 2, and in mode 3 the magnitudes followed by the phases,
    each segment as long as the frequency trace. *)
Theorem objective_residual (fuel iterationCount : nat) (optParams : list Q) (kw : kwargs)
    (nl : netlist) (text : string) (r : Sync.run) (LTR : raw complex)
    (outNode freqx : list complex) (reads : nat) :
  write_values np_exp kw optParams = Ok nl ->
  serialize (numlines_netlistD kw) nl = Ok text ->
  simulate text = (r, LTR) ->
  Sync.runSim fuel r = Ok reads ->
  LTR (LTspice_output_nodeD kw) = Some outNode ->
  LTR "frequency"%string = Some freqx ->
  length outNode = length freqx ->
  matchModeD kw = 1 \/ matchModeD kw = 2 \/ matchModeD kw = 3 ->
  length (targetD kw) = length (simulated (matchModeD kw) outNode) ->
  length (errWeightsD kw) = length (targetD kw) ->
  exists ev,
    optLTspice np_exp complex c_abs c_angle np_unwrap simulate
      fuel iterationCount optParams kw = Ok ev
    /\ err ev = zip_with Qmult
                  (zip_with Qminus (targetD kw) (simulated (matchModeD kw) outNode))
                  (errWeightsD kw)
    /\ (matchModeD kw = 1 -> simulated (matchModeD kw) outNode = map c_abs outNode)
    /\ (matchModeD kw = 2 ->
        simulated (matchModeD kw) outNode = np_unwrap (map c_angle outNode))
    /\ (matchModeD kw = 3 ->
        simulated (matchModeD kw) outNode
        = map c_abs outNode ++ np_unwrap (map c_angle outNode))
    /\ length (map c_abs outNode) = length freqx
    /\ length (np_unwrap (map c_angle outNode)) = length freqx.
Proof.
  intros Hw Hs Hsim Hrun Hn Hf Hlen Hm Ht He.
  unfold optLTspice. rewrite Hw. cbn [mbind outcome_bind]. rewrite Hs.
  cbn [mbind outcome_bind]. rewrite Hsim, Hrun. cbn [mbind outcome_bind].
  rewrite (response_Ok LTR _ _ outNode freqx Hn Hf Hm). cbn [mbind outcome_bind].
  destruct (decide _) as [Hd|_]; [contradiction|].
  rewrite (broadcast_same_length Qminus) by exact Ht. cbn [mbind outcome_bind].
  rewrite (broadcast_same_length Qmult).
  2:{ rewrite length_zip_with_l_eq by exact Ht. now rewrite He. }
  cbn [mbind outcome_bind]. eexists. split; [reflexivity|]. cbn [err].
  split; [reflexivity|].
  split; [intros E; unfold simulated; now rewrite E|].
  split; [intros E; unfold simulated; now rewrite E|].
  split; [intros E; unfold simulated; now rewrite E|].
  rewrite np_unwrap_length, !length_map. auto.
Qed.

(** C5: when the target is not as long as the simulated response, no
    residual is returned: the evaluation that reaches the comparison exits
    there, and no evaluation returns a vector cut to the shorter length or
    any other. *)
Theorem length_mismatch_is_fatal (fuel iterationCount : nat) (optParams : list Q)
    (kw : kwargs) (nl : netlist) (text : string) (r : Sync.run) (LTR : raw complex)
    (optCurrent : list Q) :
  write_values np_exp kw optParams = Ok nl ->
  serialize (numlines_netlistD kw) nl = Ok text ->
  simulate text = (r, LTR) ->
  response complex c_abs c_angle np_unwrap LTR (LTspice_output_nodeD kw) (matchModeD kw)
    = Ok optCurrent ->
  length (targetD kw) <> length optCurrent ->
  (forall ev, optLTspice np_exp complex c_abs c_angle np_unwrap simulate
                fuel iterationCount optParams kw <> Ok ev)
  /\ (forall reads, Sync.runSim fuel r = Ok reads ->
        optLTspice np_exp complex c_abs c_angle np_unwrap simulate
          fuel iterationCount optParams kw = Fail SysExit).
Proof.
  intros Hw Hs Hsim Hresp Hne.
  unfold optLTspice. rewrite Hw. cbn [mbind outcome_bind]. rewrite Hs.
  cbn [mbind outcome_bind]. rewrite Hsim.
  destruct (Sync.runSim fuel r) as [reads|f]; cbn [mbind outcome_bind].
  - rewrite Hresp. cbn [mbind outcome_bind].
    destruct (decide _) as [_|Hd]; [|contradiction].
    split; [discriminate|reflexivity].
  - split; [discriminate|]. intros reads H. discriminate H.
Qed.
End Residual.

End ObjectiveFacts.

(** ** Preferred-series quantizer *)

Module QuantizerFacts.
Import Py Numeric Quantizer PyFacts NumericFacts.

(** *** Bin edges as adjacent pairs *)

Lemma adjacent_cons (f : Q -> Q -> Q) (a b : Q) (p : list Q) :
  adjacent f (a :: b :: p) = f a b :: adjacent f (b :: p).
Proof. reflexivity. Qed.

Lemma adjacent_zip (f : Q -> Q -> Q) (p : list Q) :
  zip_with f (removelast p) (tail p) = adjacent f p.
Proof.
  induction p as [|a p IH]; [reflexivity|].
  destruct p as [|b p]; [reflexivity|].
  change (removelast (a :: b :: p)) with (a :: removelast (b :: p)).
  rewrite adjacent_cons. cbn [tail zip_with]. f_equal. exact IH.
Qed.

Lemma adjacent_init (p : list Q) : removelast p = adjacent (fun a _ => a) p.
Proof.
  induction p as [|a p IH]; [reflexivity|].
  destruct p as [|b p]; [reflexivity|].
  change (removelast (a :: b :: p)) with (a :: removelast (b :: p)).
  rewrite adjacent_cons. f_equal. exact IH.
Qed.

Lemma adjacent_tail (p : list Q) : tail p = adjacent (fun _ b => b) p.
Proof.
  induction p as [|a p IH]; [reflexivity|].
  destruct p as [|b p]; [reflexivity|].
  rewrite adjacent_cons. cbn [tail] in *. f_equal. exact IH.
Qed.

Lemma edges_policy (pol : policy) (p : list Q) :
  edges (Codec.lower (policy_name pol)) p = Ok (adjacent (edge pol) p).
Proof.
  destruct pol; unfold edges; cbn [policy_name];
    match goal with |- context [Codec.lower ?s] =>
      let r := eval vm_compute in (Codec.lower s) in change (Codec.lower s) with r end;
    cbn [String.eqb Ascii.eqb Bool.eqb]; cbv iota.
  - now rewrite adjacent_zip.
  - now rewrite adjacent_zip.
  - now rewrite adjacent_init.
  - now rewrite adjacent_tail.
Qed.

(** Where [np.digitize] stops: either at once, or just behind a pair whose
    edge is not above [x], the next edge (if any) being above it. *)
Lemma digitize_bracket (f : Q -> Q -> Q) (x : Q) (p : list Q) :
  (digitize x (adjacent f p) = 0%nat
   /\ forall a b r, p = a :: b :: r -> ~ (f a b <= x)%Q)
  \/ (exists l1 a y l2, p = l1 ++ a :: y :: l2
        /\ digitize x (adjacent f p) = S (length l1)
        /\ (f a y <= x)%Q
        /\ forall c r, l2 = c :: r -> ~ (f y c <= x)%Q).
Proof.
  induction p as [|a p IH].
  - left. split; [reflexivity|]. intros a b r H. discriminate H.
  - destruct p as [|b p].
    + left. split; [reflexivity|]. intros a' b r H. discriminate H.
    + rewrite adjacent_cons. cbn [digitize]. destruct (Qle_bool (f a b) x) eqn:E.
      * right. apply Qle_bool_iff in E.
        destruct IH as [[H0 Hno]|(l1 & a' & y & l2 & Hp & Hi & Hle & Hno)].
        -- exists [], a, b, p. split; [reflexivity|]. split; [now rewrite H0|].
           split; [exact E|]. intros c r ->. now apply (Hno b c r).
        -- exists (a :: l1), a', y, l2. split; [now rewrite Hp|].
           split; [now rewrite Hi|]. split; assumption.
      * left. split; [reflexivity|]. intros a0 b0 r [= <- <- <-].
        rewrite <- Qle_bool_iff. congruence.
Qed.

Lemma lookup_second (l1 l2 : list Q) (a y : Q) :
  (l1 ++ a :: y :: l2) !! S (length l1) = Some y.
Proof.
  replace (l1 ++ a :: y :: l2) with ((l1 ++ [a]) ++ y :: l2) by now rewrite <- app_assoc.
  replace (S (length l1)) with (length (l1 ++ [a])) by (rewrite length_app; cbn; lia).
  apply list_lookup_middle. reflexivity.
Qed.

(** *** Properties of the edge policies, between neighbours [0 < a < b] *)

Lemma edge_between (pol : policy) (a b : Q) :
  (0 < a)%Q -> (a < b)%Q -> (a <= edge pol a b)%Q /\ (edge pol a b <= b)%Q.
Proof.
  intros Ha Hab. destruct pol; cbn [edge].
  - split.
    + apply Qle_shift_div_l; [lra|nra].
    + apply Qle_shift_div_r; [lra|nra].
  - split.
    + apply Qle_shift_div_l; lra.
    + apply Qle_shift_div_r; lra.
  - lra.
  - lra.
Qed.

Lemma edge_above (pol : policy) (a b : Q) :
  pol <> Up -> (0 < a)%Q -> (a < b)%Q -> (a < edge pol a b)%Q.
Proof.
  intros Hp Ha Hab. destruct pol; cbn [edge]; [| |contradiction|lra].
  - apply Qlt_shift_div_l; [lra|nra].
  - apply Qlt_shift_div_l; lra.
Qed.

Lemma edge_mono_l (pol : policy) (g a y : Q) :
  (0 < g)%Q -> (g <= a)%Q -> (0 < y)%Q -> (edge pol g y <= edge pol a y)%Q.
Proof.
  intros Hg Hga Hy. destruct pol; cbn [edge]; try lra.
  - apply Qle_shift_div_r; [lra|].
    assert (E : (2 * a * y / (a + y) * (g + y) == 2 * a * y * (g + y) / (a + y))%Q)
      by (field; lra).
    rewrite E. apply Qle_shift_div_l; [lra|]. nra.
  - apply Qle_shift_div_r; [lra|].
    assert (E : ((a + y) / 2 * 2 == a + y)%Q) by field. rewrite E. lra.
Qed.

Lemma edge_mono_r (pol : policy) (y c g : Q) :
  (0 < y)%Q -> (0 < c)%Q -> (c <= g)%Q -> (edge pol y c <= edge pol y g)%Q.
Proof.
  intros Hy Hc Hcg. destruct pol; cbn [edge]; try lra.
  - apply Qle_shift_div_r; [lra|].
    assert (E : (2 * y * g / (y + g) * (y + c) == 2 * y * g * (y + c) / (y + g))%Q)
      by (field; lra).
    rewrite E. apply Qle_shift_div_l; [lra|]. nra.
  - apply Qle_shift_div_r; [lra|].
    assert (E : ((y + g) / 2 * 2 == y + g)%Q) by field. rewrite E. lra.
Qed.

(** *** The extended series as a table *)

(** The decades [lo, lo+1, ..., lo+c-1]. *)
Lemma arange_S (lo : Z) (c : nat) :
  map (fun i => lo + Z.of_nat i) (seq 0 (S c))
  = lo :: map (fun i => (lo + 1) + Z.of_nat i) (seq 0 c).
Proof.
  cbn [seq map]. f_equal; [lia|].
  rewrite <- seq_shift, map_map. apply map_ext. intros i. lia.
Qed.

Lemma in_arange (a b e : Z) : In e (arange a b) <-> a <= e < b.
Proof.
  unfold arange. rewrite in_map_iff. split.
  - intros (i & <- & Hi%in_seq). lia.
  - intros He. exists (Z.to_nat (e - a)). split; [lia|]. apply in_seq. lia.
Qed.

Section Series.
Variable ns : list Z.
Hypothesis Hok : series_ok ns = true.

Local Abbreviation table := (Quantizer.table ns).

Lemma ns_range : Forall (fun v => 100 <= v < 1000) ns.
Proof.
  unfold series_ok in Hok. rewrite !andb_true_iff in Hok.
  destruct Hok as [[[_ _] Hr] _]. rewrite forallb_forall in Hr.
  apply Forall_forall. intros v Hv%list_elem_of_In. specialize (Hr v Hv). lia.
Qed.

Lemma increasingZ_sorted (l : list Z) : increasingZ l = true -> StronglySorted Z.lt l.
Proof.
  induction l as [|a l IH]; [constructor|].
  destruct l as [|b l]; [repeat constructor|].
  cbn [increasingZ]. intros [Hab Hl]%andb_true_iff. apply Z.ltb_lt in Hab.
  specialize (IH Hl). constructor; [exact IH|].
  apply StronglySorted_inv in IH as [_ Hb].
  constructor; [exact Hab|]. eapply Forall_impl; [exact Hb|]. intros c Hc. cbn in Hc. lia.
Qed.

Lemma ns_sorted : StronglySorted Z.lt ns.
Proof.
  apply increasingZ_sorted. unfold series_ok in Hok. rewrite !andb_true_iff in Hok.
  tauto.
Qed.

(** The first three base values. *)
Lemma ns_head : exists v1 v2 rest, ns = 100 :: v1 :: v2 :: rest /\ 100 < v1 < v2.
Proof.
  pose proof ns_sorted as Hs. unfold series_ok in Hok. rewrite !andb_true_iff in Hok.
  destruct Hok as [[[Hlen _] _] H100].
  destruct ns as [|v0 [|v1 [|v2 rest]]]; try discriminate Hlen.
  apply Z.eqb_eq in H100. subst v0. exists v1, v2, rest. split; [reflexivity|].
  apply StronglySorted_inv in Hs as [Hs H0].
  apply StronglySorted_inv in Hs as [_ H1].
  apply Forall_cons in H0 as [H01 _]. apply Forall_cons in H1 as [H12 _]. lia.
Qed.

Lemma table_S (lo : Z) (c : nat) :
  table lo (S c) = map (fun n => (inject_Z n * pow10 lo)%Q) ns ++ table (lo + 1) c.
Proof. unfold table. now rewrite arange_S. Qed.

Lemma in_table (lo : Z) (c : nat) (t : Q) :
  In t (table lo c) <->
  exists v e, In v ns /\ lo <= e < lo + Z.of_nat c /\ t = (inject_Z v * pow10 e)%Q.
Proof.
  unfold table, extend. rewrite in_flat_map. split.
  - intros (p & Hp & Ht). apply in_map_iff in Hp as (e & <- & He).
    apply in_map_iff in He as (i & <- & Hi%in_seq).
    apply in_map_iff in Ht as (v & <- & Hv).
    exists v, (lo + Z.of_nat i). split; [exact Hv|]. split; [lia|reflexivity].
  - intros (v & e & Hv & He & ->). exists (pow10 e). split.
    + apply in_map_iff. exists e. split; [reflexivity|].
      apply in_map_iff. exists (Z.to_nat (e - lo)). split; [lia|]. apply in_seq. lia.
    + apply in_map_iff. exists v. split; [reflexivity|exact Hv].
Qed.

(** A series point [v * 10^e] lies in the decade [[10^(e+2), 10^(e+3))]. *)
Lemma point_bounds (v e : Z) :
  In v ns ->
  (pow10 (e + 2) <= inject_Z v * pow10 e)%Q /\ (inject_Z v * pow10 e < pow10 (e + 3))%Q.
Proof.
  intros Hv. pose proof ns_range as Hr. rewrite Forall_forall in Hr.
  specialize (Hr v (proj2 (list_elem_of_In _ _) Hv)).
  assert (H1 : (100 <= inject_Z v)%Q) by (change 100%Q with (inject_Z 100); rewrite <- Zle_Qle; lia).
  assert (H2 : (inject_Z v < 1000)%Q) by (change 1000%Q with (inject_Z 1000); rewrite <- Zlt_Qlt; lia).
  pose proof (pow10_pos e) as Hp.
  assert (E2 : (pow10 (e + 2) == 100 * pow10 e)%Q).
  { rewrite pow10_add. change (pow10 2) with (inject_Z 100). change (inject_Z 100) with 100%Q. ring. }
  assert (E3 : (pow10 (e + 3) == 1000 * pow10 e)%Q).
  { rewrite pow10_add. change (pow10 3) with (inject_Z 1000). change (inject_Z 1000) with 1000%Q. ring. }
  rewrite E2, E3. split; nra.
Qed.

Lemma table_bounds (lo : Z) (c : nat) (t : Q) :
  In t (table lo c) ->
  (pow10 (lo + 2) <= t)%Q /\ (t < pow10 (lo + Z.of_nat c + 2))%Q /\ (0 < t)%Q.
Proof.
  intros (v & e & Hv & He & ->)%in_table.
  destruct (point_bounds v e Hv) as [H1 H2].
  pose proof (pow10_le (lo + 2) (e + 2) ltac:(lia)) as H3.
  pose proof (pow10_le (e + 3) (lo + Z.of_nat c + 2) ltac:(lia)) as H4.
  pose proof (pow10_pos (lo + 2)). repeat split; lra.
Qed.

Lemma block_sorted (t : Q) (l : list Z) :
  (0 < t)%Q -> StronglySorted Z.lt l ->
  StronglySorted Qlt (map (fun n => (inject_Z n * t)%Q) l).
Proof.
  intros Ht. induction 1 as [|a l Hl IH Ha]; [constructor|].
  cbn [map]. constructor; [exact IH|].
  apply Forall_map. eapply Forall_impl; [exact Ha|]. intros b Hab. cbn.
  assert ((inject_Z a < inject_Z b)%Q) by (rewrite <- Zlt_Qlt; exact Hab). nra.
Qed.

(** The table is strictly increasing. *)
Lemma table_sorted (c : nat) : forall lo, StronglySorted Qlt (table lo c).
Proof.
  induction c as [|c IH]; intros lo; [constructor|].
  rewrite table_S. apply StronglySorted_app_2.
  - intros x1 x2 H1%list_elem_of_In H2%list_elem_of_In.
    apply in_map_iff in H1 as (v & <- & Hv).
    destruct (point_bounds v lo Hv) as [_ Hup].
    destruct (table_bounds (lo + 1) c x2 H2) as [Hlow _].
    replace (lo + 1 + 2) with (lo + 3) in Hlow by lia. lra.
  - apply block_sorted; [apply pow10_pos|apply ns_sorted].
  - apply IH.
Qed.

(** The table of a call on the single value [x]. *)
Lemma extended_series_table (x : Q) :
  (0 < x)%Q ->
  exists c : nat,
    extended_series ns x [] = table (floor_log10 x - 3) c
    /\ floor_log10 x - 3 + Z.of_nat c = ceil_log10 x - 1
    /\ (2 <= c)%nat.
Proof.
  intros Hx. destruct (ceil_log10_spec x Hx) as (_ & _ & Hc & _).
  exists (Z.to_nat (ceil_log10 x - 1 - (floor_log10 x - 3))).
  split; [reflexivity|]. lia.
Qed.
Lemma sorted_split (l1 l2 : list Q) (a y : Q) :
  StronglySorted Qlt (l1 ++ a :: y :: l2) ->
  (forall t, In t l1 -> (t < a)%Q) /\ (a < y)%Q /\ (forall t, In t l2 -> (y < t)%Q).
Proof.
  intros H. apply StronglySorted_app in H as (Hcross & _ & Hr).
  apply StronglySorted_inv in Hr as [Hr Ha].
  apply StronglySorted_inv in Hr as [_ Hy].
  split; [|split].
  - intros t Ht. apply Hcross; [now apply list_elem_of_In|left].
  - now apply Forall_cons in Ha as [Hay _].
  - intros t Ht. rewrite Forall_forall in Hy. apply Hy. now apply list_elem_of_In.
Qed.

(** The edges of an increasing table of positive values are in increasing
    order, as [np.digitize] requires of its bins. *)
Lemma edges_sorted (pol : policy) (p : list Q) :
  StronglySorted Qlt p -> Forall (fun t => (0 < t)%Q) p ->
  Sorted Qle (adjacent (edge pol) p).
Proof.
  induction p as [|a p IH]; [constructor|].
  destruct p as [|b p]; [constructor|].
  intros Hs Hp. rewrite adjacent_cons.
  apply StronglySorted_inv in Hs as [Hs Ha]. apply Forall_cons in Hp as [Ha0 Hp].
  constructor; [now apply IH|].
  destruct p as [|c p]; [constructor|]. rewrite adjacent_cons. constructor.
  apply Forall_cons in Ha as [Hab _].
  apply StronglySorted_inv in Hs as [_ Hb]. apply Forall_cons in Hb as [Hbc _].
  apply Forall_cons in Hp as [Hb0 _].
  destruct (edge_between pol a b Ha0 Hab) as [_ H1].
  destruct (edge_between pol b c Hb0 Hbc) as [H2 _]. lra.
Qed.

Lemma table_edges_sorted (pol : policy) (lo : Z) (c : nat) :
  Sorted Qle (adjacent (edge pol) (table lo c)).
Proof.
  apply edges_sorted; [apply table_sorted|].
  apply Forall_forall. intros t Ht%list_elem_of_In. now apply (table_bounds lo c t).
Qed.

(** The bin of a positive value: it has a lower and an upper neighbour in
    the table, and the value lies between the two edges around it. *)
Lemma select_bracket (pol : policy) (x : Q) :
  (0 < x)%Q ->
  exists l1 a y c l2,
    extended_series ns x [] = l1 ++ a :: y :: c :: l2
    /\ select (extended_series ns x []) (adjacent (edge pol) (extended_series ns x [])) x
       = Ok (Some y)
    /\ (edge pol a y <= x)%Q /\ (x < edge pol y c)%Q.
Proof.
  intros Hx. destruct (extended_series_table x Hx) as (cnt & -> & Hcnt & Hc2).
  destruct (floor_log10_spec x Hx) as [Hfl _].
  destruct (ceil_log10_spec x Hx) as (_ & Hce & _ & _).
  set (lo := floor_log10 x - 3) in *.
  replace (floor_log10 x) with (lo + 3) in Hfl by (unfold lo; lia).
  replace (ceil_log10 x) with (lo + Z.of_nat cnt + 1) in Hce by lia.
  destruct ns_head as (v1 & v2 & rest & Hns & Hv).
  assert (Hin1 : In v1 ns) by (rewrite Hns; cbn; tauto).
  assert (Hin2 : In v2 ns) by (rewrite Hns; cbn; tauto).
  pose proof (table_sorted cnt lo) as Hsort.
  destruct (digitize_bracket (edge pol) x (table lo cnt))
    as [[_ Hno]|(l1 & a & y & l2 & HT & Hi & Hle & Hno)].
  - (* the first edge is not above x *)
    exfalso. destruct cnt as [|cnt]; [lia|].
    rewrite table_S, Hns in Hno. cbn [map app] in Hno.
    apply (Hno _ _ _ eq_refl).
    destruct (point_bounds v1 lo Hin1) as [_ Hup].
    pose proof (pow10_pos lo) as Hp.
    assert (H01 : (inject_Z 100 * pow10 lo < inject_Z v1 * pow10 lo)%Q).
    { assert ((inject_Z 100 < inject_Z v1)%Q) by (rewrite <- Zlt_Qlt; lia). nra. }
    assert (H0 : (0 < inject_Z 100 * pow10 lo)%Q) by (change (inject_Z 100) with 100%Q; nra).
    destruct (edge_between pol _ _ H0 H01) as [_ Hb]. lra.
  - rewrite HT in Hsort. destruct (sorted_split _ _ _ _ Hsort) as (Hl1 & Hay & Hl2).
    assert (Ha : In a (table lo cnt)) by (rewrite HT, in_app_iff; cbn; tauto).
    assert (Hy : In y (table lo cnt)) by (rewrite HT, in_app_iff; cbn; tauto).
    destruct (table_bounds lo cnt a Ha) as (_ & _ & Ha0).
    destruct (edge_between pol a y Ha0 Hay) as [Hea _].
    destruct l2 as [|c l2].
    + (* the last edge is above x *)
      exfalso.
      set (top := lo + Z.of_nat cnt - 1).
      assert (Htop : lo <= top < lo + Z.of_nat cnt) by (unfold top; lia).
      assert (Hh1 : In (inject_Z v1 * pow10 top)%Q (table lo cnt)).
      { apply in_table. exists v1, top. auto. }
      assert (Hh2 : In (inject_Z v2 * pow10 top)%Q (table lo cnt)).
      { apply in_table. exists v2, top. auto. }
      pose proof (pow10_pos top) as Hp.
      assert (E0 : (pow10 (lo + Z.of_nat cnt + 1) == 100 * pow10 top)%Q).
      { replace (lo + Z.of_nat cnt + 1) with (top + 2) by (unfold top; lia).
        rewrite pow10_add. change (pow10 2) with (inject_Z 100).
        change (inject_Z 100) with 100%Q. ring. }
      assert (H1 : (100 < inject_Z v1)%Q)
        by (change 100%Q with (inject_Z 100); rewrite <- Zlt_Qlt; lia).
      assert (H12 : (inject_Z v1 < inject_Z v2)%Q) by (rewrite <- Zlt_Qlt; lia).
      assert (Hh1a : (inject_Z v1 * pow10 top <= a)%Q).
      { rewrite HT, in_app_iff in Hh1. cbn [In] in Hh1.
        destruct Hh1 as [H|[H|[H|[]]]].
        - apply Qlt_le_weak. now apply Hl1.
        - rewrite H. apply Qle_refl.
        - exfalso. rewrite HT, in_app_iff in Hh2. cbn [In] in Hh2.
          assert (Hyh : (y == inject_Z v1 * pow10 top)%Q) by (rewrite H; reflexivity).
          destruct Hh2 as [H2|[H2|[H2|[]]]].
          + specialize (Hl1 _ H2). nra.
          + assert (Hah : (a == inject_Z v2 * pow10 top)%Q) by (rewrite H2; reflexivity).
            nra.
          + assert (Hyh2 : (y == inject_Z v2 * pow10 top)%Q) by (rewrite H2; reflexivity).
            nra. }
      rewrite E0 in Hce. nra.
    + exists l1, a, y, c, l2. split; [exact HT|]. split; [|split; [exact Hle|]].
      * unfold select. rewrite Hi. cbn [Nat.eqb]. rewrite Nat.sub_0_r.
        rewrite HT at 1. unfold get_item. now rewrite lookup_second.
      * apply Qnot_le_lt. now apply (Hno c l2).
Qed.

(** The bin with respect to the whole series, whatever the decades of the
    table: every series point below the result has its edge not above the
    value, every series point above it has its edge above the value. *)
Lemma select_bin (pol : policy) (x : Q) :
  (0 < x)%Q ->
  exists y,
    select (extended_series ns x []) (adjacent (edge pol) (extended_series ns x [])) x
    = Ok (Some y)
    /\ on_series ns y /\ (0 < y)%Q
    /\ (forall g, on_series ns g -> (g < y)%Q -> (edge pol g y <= x)%Q)
    /\ (forall g, on_series ns g -> (y < g)%Q -> (x < edge pol y g)%Q).
Proof.
  intros Hx. destruct (select_bracket pol x Hx) as (l1 & a & y & c & l2 & HT & Hsel & Hlo & Hhi).
  destruct (extended_series_table x Hx) as (cnt & ET & _ & _).
  set (lo := floor_log10 x - 3) in *. rewrite ET in HT.
  pose proof (table_sorted cnt lo) as Hsort. rewrite HT in Hsort.
  destruct (sorted_split _ _ _ _ Hsort) as (Hl1 & Hay & Hl2).
  assert (Hsort' : StronglySorted Qlt ((l1 ++ [a]) ++ y :: c :: l2))
    by now rewrite <- app_assoc.
  destruct (sorted_split _ _ _ _ Hsort') as (_ & Hyc & Hl2').
  assert (Ha : In a (table lo cnt)) by (rewrite HT, in_app_iff; cbn; tauto).
  assert (Hy : In y (table lo cnt)) by (rewrite HT, in_app_iff; cbn; tauto).
  assert (Hc : In c (table lo cnt)) by (rewrite HT, in_app_iff; cbn; tauto).
  destruct (table_bounds lo cnt a Ha) as (Halo & _ & Ha0).
  destruct (table_bounds lo cnt y Hy) as (_ & Hyhi & Hy0).
  destruct (table_bounds lo cnt c Hc) as (Hclo & Hchi & Hc0).
  exists y. split; [exact Hsel|]. split; [|split; [exact Hy0|split]].
  - apply in_table in Hy as (v & e & Hv & _ & ->). exists v, e. split; [exact Hv|reflexivity].
  - intros g (v & e & Hv & Hg) Hgy.
    destruct (point_bounds v e Hv) as [Hglo Hghi]. rewrite <- Hg in Hglo, Hghi.
    assert (Hg0 : (0 < g)%Q) by (pose proof (pow10_pos (e + 2)); lra).
    assert (Hga : (g <= a)%Q).
    { destruct (Z_lt_dec e lo) as [He|He].
      - pose proof (pow10_le (e + 3) (lo + 2) ltac:(lia)). lra.
      - destruct (Z_lt_dec e (lo + Z.of_nat cnt)) as [He'|He'].
        + assert (Hin : In (inject_Z v * pow10 e)%Q (table lo cnt)).
          { apply in_table. exists v, e. split; [exact Hv|]. split; [lia|reflexivity]. }
          rewrite HT, in_app_iff in Hin. cbn [In] in Hin.
          destruct Hin as [H|[H|[H|[H|H]]]].
          * specialize (Hl1 _ H). lra.
          * rewrite <- H in *. lra.
          * rewrite <- H in *. lra.
          * rewrite <- H in *. lra.
          * specialize (Hl2' _ H). lra.
        + pose proof (pow10_le (lo + Z.of_nat cnt + 2) (e + 2) ltac:(lia)). lra. }
    pose proof (edge_mono_l pol g a y Hg0 Hga Hy0). lra.
  - intros g (v & e & Hv & Hg) Hgy.
    destruct (point_bounds v e Hv) as [Hglo Hghi]. rewrite <- Hg in Hglo, Hghi.
    assert (Hcg : (c <= g)%Q).
    { destruct (Z_lt_dec e lo) as [He|He].
      - pose proof (pow10_le (e + 3) (lo + 2) ltac:(lia)). lra.
      - destruct (Z_lt_dec e (lo + Z.of_nat cnt)) as [He'|He'].
        + assert (Hin : In (inject_Z v * pow10 e)%Q (table lo cnt)).
          { apply in_table. exists v, e. split; [exact Hv|]. split; [lia|reflexivity]. }
          rewrite HT, in_app_iff in Hin. cbn [In] in Hin.
          destruct Hin as [H|[H|[H|[H|H]]]].
          * specialize (Hl1 _ H). lra.
          * rewrite <- H in *. lra.
          * rewrite <- H in *. lra.
          * rewrite <- H in *. lra.
          * specialize (Hl2' _ H). lra.
        + pose proof (pow10_le (lo + Z.of_nat cnt + 2) (e + 2) ltac:(lia)). lra. }
    pose proof (edge_mono_r pol y c g Hy0 Hc0 Hcg). lra.
Qed.

(** A value that equals a member of its own table, under a policy other
    than round-up, is in that member's bin. *)
Lemma select_member (pol : policy) (x y0 : Q) :
  pol <> Up -> (0 < x)%Q -> In y0 (extended_series ns x []) -> (x == y0)%Q ->
  select (extended_series ns x []) (adjacent (edge pol) (extended_series ns x [])) x
  = Ok (Some y0).
Proof.
  intros Hpol Hx Hin Heq.
  destruct (select_bracket pol x Hx) as (l1 & a & y & c & l2 & HT & Hsel & Hlo & Hhi).
  rewrite Hsel. do 2 f_equal.
  destruct (extended_series_table x Hx) as (cnt & ET & _ & _).
  set (lo := floor_log10 x - 3) in *.
  pose proof (table_sorted cnt lo) as Hsort. rewrite <- ET, HT in Hsort.
  destruct (sorted_split _ _ _ _ Hsort) as (Hl1 & Hay & Hl2).
  assert (Hsort' : StronglySorted Qlt ((l1 ++ [a]) ++ y :: c :: l2))
    by now rewrite <- app_assoc.
  destruct (sorted_split _ _ _ _ Hsort') as (_ & Hyc & Hl2').
  assert (Ha : In a (table lo cnt)) by (rewrite <- ET, HT, in_app_iff; cbn; tauto).
  assert (Hy : In y (table lo cnt)) by (rewrite <- ET, HT, in_app_iff; cbn; tauto).
  destruct (table_bounds lo cnt a Ha) as (_ & _ & Ha0).
  destruct (table_bounds lo cnt y Hy) as (_ & _ & Hy0).
  pose proof (edge_above pol a y Hpol Ha0 Hay) as Hab.
  destruct (edge_between pol y c Hy0 Hyc) as [_ Hbc].
  rewrite HT, in_app_iff in Hin. cbn [In] in Hin.
  destruct Hin as [H|[H|[H|[H|H]]]].
  - specialize (Hl1 _ H). lra.
  - rewrite <- H in *. lra.
  - exact H.
  - rewrite <- H in *. lra.
  - specialize (Hl2' _ H). lra.
Qed.
End Series.

Lemma E_SERIES_ok (ser : string) (ns : list Z) :
  E_SERIES ser = Some ns -> series_ok ns = true.
Proof.
  unfold E_SERIES.
  repeat (destruct (String.eqb ser _); [intros [= <-]; vm_compute; reflexivity|]).
  discriminate.
Qed.

Lemma idr_pos (x : Q) : (0 < x)%Q -> idr x = true.
Proof.
  intros Hx. unfold idr. apply negb_true_iff.
  destruct (Qle_bool x 0) eqn:E; [|reflexivity].
  apply Qle_bool_iff in E. lra.
Qed.

(** A call on one positive value under a supported series and policy. *)
Lemma round63_scalar (ser : string) (ns : list Z) (pol : policy) (x : Q) (y : Q) :
  E_SERIES ser = Some ns -> (0 < x)%Q ->
  select (extended_series ns x []) (adjacent (edge pol) (extended_series ns x [])) x
  = Ok (Some y) ->
  round63 [x] ser (Some (policy_name pol)) = Ok [Some y].
Proof.
  intros HE Hx Hsel. unfold round63. rewrite HE.
  rewrite filter_cons, filter_nil.
  destruct (decide (idr x = true)) as [_|Hn]; [|exfalso; apply Hn; now apply idr_pos].
  rewrite edges_policy. cbn [mbind outcome_bind mapM]. rewrite Hsel. reflexivity.
Qed.

(** Under the policy up every positive value, a member of the table or not,
    is answered by a series value strictly above it. *)
Lemma round63_up_above (ser : string) (ns : list Z) (x : Q) :
  E_SERIES ser = Some ns -> (0 < x)%Q ->
  exists y, round63 [x] ser (Some (policy_name Up)) = Ok [Some y] /\ (x < y)%Q.
Proof.
  intros HE Hx. pose proof (E_SERIES_ok ser ns HE) as Hok.
  destruct (select_bracket ns Hok Up x Hx) as (l1 & a & y & c & l2 & _ & Hsel & _ & Hhi).
  exists y. split; [now apply (round63_scalar ser ns Up x y)|exact Hhi].
Qed.

(** C1 (amended): for every supported series and for the bin-edge policies
    arithmetic, harmonic and down, a positive value that equals a member of
    the extended series table of its own call is returned as that member,
    exactly. *)
Theorem round63_on_series (ser : string) (ns : list Z) (pol : policy) (x y : Q) :
  E_SERIES ser = Some ns -> pol <> Up -> (0 < x)%Q ->
  In y (extended_series ns x []) -> (x == y)%Q ->
  round63 [x] ser (Some (policy_name pol)) = Ok [Some y].
Proof.
  intros HE Hpol Hx Hin Heq.
  apply (round63_scalar ser ns pol x y HE Hx).
  apply select_member; [now apply (E_SERIES_ok ser)|assumption..].
Qed.

(** C9: for every supported series and every bin-edge policy the quantizer
    answers every positive value, and its answer does not decrease when the
    value increases, whether or not the two values share a decade. *)
Theorem round63_monotone (ser : string) (ns : list Z) (pol : policy) (x1 x2 : Q) :
  E_SERIES ser = Some ns -> (0 < x1)%Q -> (x1 <= x2)%Q ->
  exists y1 y2,
    round63 [x1] ser (Some (policy_name pol)) = Ok [Some y1]
    /\ round63 [x2] ser (Some (policy_name pol)) = Ok [Some y2]
    /\ (y1 <= y2)%Q.
Proof.
  intros HE Hx1 Hle. pose proof (E_SERIES_ok ser ns HE) as Hok.
  assert (Hx2 : (0 < x2)%Q) by lra.
  destruct (select_bin ns Hok pol x1 Hx1) as (y1 & Hs1 & Hg1 & Hp1 & Hlow1 & _).
  destruct (select_bin ns Hok pol x2 Hx2) as (y2 & Hs2 & Hg2 & Hp2 & _ & Hup2).
  exists y1, y2.
  split; [now apply (round63_scalar ser ns pol x1 y1)|].
  split; [now apply (round63_scalar ser ns pol x2 y2)|].
  destruct (Qlt_le_dec y2 y1) as [Hlt|Hge]; [|exact Hge].
  exfalso. specialize (Hlow1 y2 Hg2 Hlt). specialize (Hup2 y1 Hg1 Hlt). lra.
Qed.

End QuantizerFacts.

(** ** Scenarios *)

Module Scenarios.
Import Py Netlist Objective Quantizer Examples.

Lemma nonzero_status_still_polling_witness :
  Sync.runSim 1000 run_failed = Fail Hang /\ Sync.runSim 1000 run_failed <> Fail SysExit.
Proof.
  apply (SyncFacts.nonzero_status_still_polling run_failed).
  - discriminate.
  - reflexivity.
Defined.



Lemma written_tokens_exponential_witness :
  exists (l : line) tok, netlist3_written !! 0%nat = Some l /\ l !! 3%nat = Some tok
    /\ Format.is_exp_token 12 tok = true
    /\ Format.mantissa_digits tok = 13%nat
    /\ Format.no_suffix_letter tok = true
    /\ (Format.leading_nonzero tok = true \/ tok = Format.zero_token).
Proof.
  apply (UpdateFacts.written_tokens_exponential exp_series kw_both [0%Q] netlist3_written 0 0).
  - vm_compute. reflexivity.
  - cbn. lia.
  - reflexivity.
Defined.

(** The token written for 1000 carries thirteen significant digits, not twelve. *)
Lemma written_token_counterexample :
  write_values exp_series kw_both [0%Q] = Ok netlist3_written
  /\ netlist3_written !! 0%nat = Some ["R1"; "out"; "0"; "1.000000000000e+03"]%string
  /\ Format.mantissa_digits "1.000000000000e+03" = 13%nat
  /\ Format.mantissa_digits "1.000000000000e+03" <> 12%nat
  /\ Format.is_exp_token 11 "1.000000000000e+03" = false.
Proof.
  split; [vm_compute; reflexivity|]. split; [reflexivity|].
  split; [reflexivity|]. split; [discriminate|reflexivity].
Qed.

Lemma netlist_mutation_isolated_witness :
  length netlist3_written = 3%nat
  /\ netlist3_written !! 1%nat = netlist3 !! 1%nat
  /\ serialize 3 netlist3_written = Ok (lines_text netlist3_written).
Proof.
  destruct (UpdateFacts.netlist_mutation_isolated exp_series kw_both [0%Q] netlist3_written)
    as (Hlen & Hframe & _ & Hser & _).
  - vm_compute. reflexivity.
  - reflexivity.
  - split; [exact Hlen|]. split; [reflexivity|exact Hser].
Defined.

Lemma objective_residual_witness :
  exists ev,
    optLTspice exp_series Q real_abs real_angle unwrap_flat simulate_two_points
      5 0 [0%Q] kw_both = Ok ev
    /\ err ev = zip_with Qmult
                  (zip_with Qminus [1; 1; 0; 0]%Q ([1 # 2; 1 # 4] ++ [0; 0])%Q)
                  [1; 2; 1; 1]%Q.
Proof.
  edestruct (ObjectiveFacts.objective_residual exp_series Q real_abs real_angle unwrap_flat
               simulate_two_points (fun l => eq_refl) 5 0 [0%Q] kw_both
               netlist3_written (lines_text netlist3_written) run_done raw_two_points
               [1 # 2; 1 # 4]%Q [1; 10]%Q 3)
    as (ev & Hev & Herr & _).
  - vm_compute. reflexivity.
  - vm_compute. reflexivity.
  - reflexivity.
  - reflexivity.
  - reflexivity.
  - reflexivity.
  - reflexivity.
  - right. right. reflexivity.
  - reflexivity.
  - reflexivity.
  - exists ev. split; [exact Hev|exact Herr].
Defined.

Lemma length_mismatch_is_fatal_witness :
  length (targetD kw_fifty) = 50%nat
  /\ optLTspice exp_series Q real_abs real_angle unwrap_flat simulate_forty_nine
       5 0 [0%Q] kw_fifty = Fail SysExit.
Proof.
  split; [reflexivity|].
  destruct (ObjectiveFacts.length_mismatch_is_fatal exp_series Q real_abs real_angle
              unwrap_flat simulate_forty_nine 5 0 [0%Q] kw_fifty
              netlist3_written (lines_text netlist3_written) run_done raw_forty_nine
              (replicate 49 (1 # 2)%Q)) as [_ H].
  - vm_compute. reflexivity.
  - vm_compute. reflexivity.
  - reflexivity.
  - vm_compute. reflexivity.
  - vm_compute. lia.
  - apply (H 3%nat). reflexivity.
Defined.

Lemma member_150 : In 150%Q (extended_series E96 150 []).
Proof.
  apply list_elem_of_In, (list_elem_of_lookup_2 _ 113%nat). vm_compute. reflexivity.
Qed.

Lemma round63_on_series_witness :
  round63 [150%Q] "E96" (Some "arithmetic"%string) = Ok [Some 150%Q].
Proof.
  apply (QuantizerFacts.round63_on_series "E96" E96 Arithmetic 150 150).
  - reflexivity.
  - discriminate.
  - reflexivity.
  - exact member_150.
  - reflexivity.
Defined.

(** Under the policy up, the series value 150 is moved to the next one. *)
Lemma round63_up_counterexample :
  In 150%Q (extended_series E96 150 [])
  /\ round63 [150%Q] "E96" (Some "up"%string) = Ok [Some 154%Q]
  /\ round63 [150%Q] "E96" (Some "up"%string) <> Ok [Some 150%Q].
Proof.
  split; [exact member_150|].
  assert (E : round63 [150%Q] "E96" (Some "up"%string) = Ok [Some 154%Q])
    by (vm_compute; reflexivity).
  split; [exact E|]. rewrite E. discriminate.
Qed.

Lemma round63_monotone_witness :
  exists y1 y2,
    round63 [999%Q] "E96" (Some "arithmetic"%string) = Ok [Some y1]
    /\ round63 [1001%Q] "E96" (Some "arithmetic"%string) = Ok [Some y2]
    /\ (y1 <= y2)%Q.
Proof.
  apply (QuantizerFacts.round63_monotone "E96" E96 Arithmetic 999 1001).
  - reflexivity.
  - reflexivity.
  - discriminate.
Defined.

End Scenarios.

(** ** Preferred-series quantizer: arrays, bins and failures *)

Module BinFacts.
Import Py Numeric Quantizer Bins PyFacts NumericFacts QuantizerFacts.

Lemma pow10_lt_inv (a b : Z) : (pow10 a < pow10 b)%Q -> a < b.
Proof.
  intros H. destruct (Z_lt_dec a b) as [|Hn]; [assumption|].
  pose proof (pow10_le b a ltac:(lia)). lra.
Qed.

Lemma idr_true (x : Q) : idr x = true <-> (0 < x)%Q.
Proof.
  split; [|apply idr_pos]. unfold idr. intros H%negb_true_iff.
  apply Qnot_le_lt. rewrite <- Qle_bool_iff. congruence.
Qed.

Lemma positive_entries_pos (X : list Q) (t : Q) :
  In t (positive_entries X) -> (0 < t)%Q.
Proof.
  unfold positive_entries. intros H%list_elem_of_In.
  apply list_elem_of_filter in H as [H _]. now apply idr_true.
Qed.

(** [np.min] and [np.max] pick an entry that bounds all the others. *)
Lemma np_min_spec (l : list Q) : forall x,
  In (np_min x l) (x :: l) /\ forall t, In t (x :: l) -> (np_min x l <= t)%Q.
Proof.
  induction l as [|y l IH]; intros x.
  - cbn. split; [now left|]. intros t [<-|[]]. apply Qle_refl.
  - unfold np_min. cbn [fold_left]. fold (np_min (if Qle_bool y x then y else x) l).
    destruct (IH (if Qle_bool y x then y else x)) as [Hin Hle].
    destruct (Qle_bool y x) eqn:E.
    + apply Qle_bool_iff in E. split.
      * destruct Hin as [<-|Hin]; [right; now left|right; now right].
      * intros t [<-|[<-|Ht]].
        -- specialize (Hle y (or_introl eq_refl)). lra.
        -- apply Hle. now left.
        -- apply Hle. now right.
    + assert (Hxy : (x < y)%Q).
      { apply Qnot_le_lt. rewrite <- Qle_bool_iff. congruence. }
      split.
      * destruct Hin as [<-|Hin]; [now left|right; now right].
      * intros t [<-|[<-|Ht]].
        -- apply Hle. now left.
        -- specialize (Hle x (or_introl eq_refl)). lra.
        -- apply Hle. now right.
Qed.

Lemma np_max_spec (l : list Q) : forall x,
  In (np_max x l) (x :: l) /\ forall t, In t (x :: l) -> (t <= np_max x l)%Q.
Proof.
  induction l as [|y l IH]; intros x.
  - cbn. split; [now left|]. intros t [<-|[]]. apply Qle_refl.
  - unfold np_max. cbn [fold_left]. fold (np_max (if Qle_bool x y then y else x) l).
    destruct (IH (if Qle_bool x y then y else x)) as [Hin Hle].
    destruct (Qle_bool x y) eqn:E.
    + apply Qle_bool_iff in E. split.
      * destruct Hin as [<-|Hin]; [right; now left|right; now right].
      * intros t [<-|[<-|Ht]].
        -- specialize (Hle y (or_introl eq_refl)). lra.
        -- apply Hle. now left.
        -- apply Hle. now right.
    + assert (Hxy : (y < x)%Q).
      { apply Qnot_le_lt. rewrite <- Qle_bool_iff. congruence. }
      split.
      * destruct Hin as [<-|Hin]; [now left|right; now right].
      * intros t [<-|[<-|Ht]].
        -- apply Hle. now left.
        -- specialize (Hle x (or_introl eq_refl)). lra.
        -- apply Hle. now right.
Qed.

Section Series.
Variable ns : list Z.
Hypothesis Hok : series_ok ns = true.

Local Abbreviation table := (Quantizer.table ns).

(** The table of a call whose positive entries are [x :: l]: it starts one
    decade below the smallest entry and ends one decade above the largest. *)
Lemma extended_series_covers (x : Q) (l : list Q) :
  (forall t, In t (x :: l) -> (0 < t)%Q) ->
  exists (lo : Z) (cnt : nat),
    extended_series ns x l = table lo cnt /\ (1 <= cnt)%nat
    /\ forall t, In t (x :: l) ->
         (pow10 (lo + 3) <= t)%Q /\ (t <= pow10 (lo + Z.of_nat cnt + 1))%Q.
Proof.
  intros Hpos.
  destruct (np_min_spec l x) as [Hmin_in Hmin]. destruct (np_max_spec l x) as [Hmax_in Hmax].
  pose proof (Hpos _ Hmin_in) as Hmin0. pose proof (Hpos _ Hmax_in) as Hmax0.
  destruct (floor_log10_spec _ Hmin0) as [Hfl Hfl'].
  destruct (floor_log10_spec _ Hmax0) as [Hfx Hfx'].
  destruct (ceil_log10_spec _ Hmax0) as (_ & Hce & Hc & _).
  assert (Hmm : (np_min x l <= np_max x l)%Q) by now apply Hmin.
  assert (Hff : floor_log10 (np_min x l) <= floor_log10 (np_max x l)).
  { assert (floor_log10 (np_min x l) < floor_log10 (np_max x l) + 1); [|lia].
    apply pow10_lt_inv. lra. }
  exists (floor_log10 (np_min x l) - 3),
         (Z.to_nat (ceil_log10 (np_max x l) - 1 - (floor_log10 (np_min x l) - 3))).
  split; [reflexivity|]. split; [lia|].
  intros t Ht. specialize (Hmin t Ht). specialize (Hmax t Ht).
  replace (floor_log10 (np_min x l) - 3 + 3) with (floor_log10 (np_min x l)) by lia.
  rewrite Z2Nat.id by lia.
  replace (floor_log10 (np_min x l) - 3
           + (ceil_log10 (np_max x l) - 1 - (floor_log10 (np_min x l) - 3)) + 1)
    with (ceil_log10 (np_max x l)) by lia.
  split; lra.
Qed.

(** The bin of a value inside a table that has a decade to spare on each side. *)
Lemma table_bracket (pol : policy) (lo : Z) (cnt : nat) (x : Q) :
  (pow10 (lo + 3) <= x)%Q -> (x <= pow10 (lo + Z.of_nat cnt + 1))%Q ->
  exists l1 a y c l2,
    table lo cnt = l1 ++ a :: y :: c :: l2
    /\ select (table lo cnt) (adjacent (edge pol) (table lo cnt)) x = Ok (Some y)
    /\ (edge pol a y <= x)%Q /\ (x < edge pol y c)%Q.
Proof.
  intros Hfl Hce.
  assert (Hc1 : (1 <= cnt)%nat).
  { destruct cnt as [|cnt]; [|lia]. exfalso.
    pose proof (pow10_lt (lo + Z.of_nat 0 + 1) (lo + 3) ltac:(lia)). lra. }
  destruct (ns_head ns Hok) as (v1 & v2 & rest & Hns & Hv).
  assert (Hin1 : In v1 ns) by (rewrite Hns; cbn; tauto).
  assert (Hin2 : In v2 ns) by (rewrite Hns; cbn; tauto).
  pose proof (table_sorted ns Hok cnt lo) as Hsort.
  destruct (digitize_bracket (edge pol) x (table lo cnt))
    as [[_ Hno]|(l1 & a & y & l2 & HT & Hi & Hle & Hno)].
  - exfalso. destruct cnt as [|cnt]; [lia|].
    rewrite table_S, Hns in Hno. cbn [map app] in Hno.
    apply (Hno _ _ _ eq_refl).
    destruct (point_bounds ns Hok v1 lo Hin1) as [_ Hup].
    pose proof (pow10_pos lo) as Hp.
    assert (H01 : (inject_Z 100 * pow10 lo < inject_Z v1 * pow10 lo)%Q).
    { assert ((inject_Z 100 < inject_Z v1)%Q) by (rewrite <- Zlt_Qlt; lia). nra. }
    assert (H0 : (0 < inject_Z 100 * pow10 lo)%Q) by (change (inject_Z 100) with 100%Q; nra).
    destruct (edge_between pol _ _ H0 H01) as [_ Hb]. lra.
  - rewrite HT in Hsort. destruct (sorted_split _ _ _ _ Hsort) as (Hl1 & Hay & Hl2).
    assert (Ha : In a (table lo cnt)) by (rewrite HT, in_app_iff; cbn; tauto).
    destruct (table_bounds ns Hok lo cnt a Ha) as (_ & _ & Ha0).
    destruct (edge_between pol a y Ha0 Hay) as [Hea _].
    destruct l2 as [|c l2].
    + exfalso.
      set (top := lo + Z.of_nat cnt - 1).
      assert (Htop : lo <= top < lo + Z.of_nat cnt) by (unfold top; lia).
      assert (Hh1 : In (inject_Z v1 * pow10 top)%Q (table lo cnt)).
      { apply in_table. exists v1, top. auto. }
      assert (Hh2 : In (inject_Z v2 * pow10 top)%Q (table lo cnt)).
      { apply in_table. exists v2, top. auto. }
      pose proof (pow10_pos top) as Hp.
      assert (E0 : (pow10 (lo + Z.of_nat cnt + 1) == 100 * pow10 top)%Q).
      { replace (lo + Z.of_nat cnt + 1) with (top + 2) by (unfold top; lia).
        rewrite pow10_add. change (pow10 2) with (inject_Z 100).
        change (inject_Z 100) with 100%Q. ring. }
      assert (H1 : (100 < inject_Z v1)%Q)
        by (change 100%Q with (inject_Z 100); rewrite <- Zlt_Qlt; lia).
      assert (H12 : (inject_Z v1 < inject_Z v2)%Q) by (rewrite <- Zlt_Qlt; lia).
      assert (Hh1a : (inject_Z v1 * pow10 top <= a)%Q).
      { rewrite HT, in_app_iff in Hh1. cbn [In] in Hh1.
        destruct Hh1 as [H|[H|[H|[]]]].
        - apply Qlt_le_weak. now apply Hl1.
        - rewrite H. apply Qle_refl.
        - exfalso. rewrite HT, in_app_iff in Hh2. cbn [In] in Hh2.
          assert (Hyh : (y == inject_Z v1 * pow10 top)%Q) by (rewrite H; reflexivity).
          destruct Hh2 as [H2|[H2|[H2|[]]]].
          + specialize (Hl1 _ H2). nra.
          + assert (Hah : (a == inject_Z v2 * pow10 top)%Q) by (rewrite H2; reflexivity).
            nra.
          + assert (Hyh2 : (y == inject_Z v2 * pow10 top)%Q) by (rewrite H2; reflexivity).
            nra. }
      rewrite E0 in Hce. nra.
    + exists l1, a, y, c, l2. split; [exact HT|]. split; [|split; [exact Hle|]].
      * unfold select. rewrite Hi. cbn [Nat.eqb]. rewrite Nat.sub_0_r.
        rewrite HT at 1. unfold get_item. now rewrite lookup_second.
      * apply Qnot_le_lt. now apply (Hno c l2).
Qed.

(** The answer is a member of the table and the bin of the value in the
    whole series. *)
Lemma table_bin (pol : policy) (lo : Z) (cnt : nat) (x : Q) :
  (pow10 (lo + 3) <= x)%Q -> (x <= pow10 (lo + Z.of_nat cnt + 1))%Q ->
  exists y,
    select (table lo cnt) (adjacent (edge pol) (table lo cnt)) x = Ok (Some y)
    /\ In y (table lo cnt) /\ in_bin ns pol x y.
Proof.
  intros Hfl Hce.
  destruct (table_bracket pol lo cnt x Hfl Hce)
    as (l1 & a & y & c & l2 & HT & Hsel & Hlo & Hhi).
  pose proof (table_sorted ns Hok cnt lo) as Hsort. rewrite HT in Hsort.
  destruct (sorted_split _ _ _ _ Hsort) as (Hl1 & Hay & Hl2).
  assert (Hsort' : StronglySorted Qlt ((l1 ++ [a]) ++ y :: c :: l2))
    by now rewrite <- app_assoc.
  destruct (sorted_split _ _ _ _ Hsort') as (_ & Hyc & Hl2').
  assert (Ha : In a (table lo cnt)) by (rewrite HT, in_app_iff; cbn; tauto).
  assert (Hy : In y (table lo cnt)) by (rewrite HT, in_app_iff; cbn; tauto).
  assert (Hc : In c (table lo cnt)) by (rewrite HT, in_app_iff; cbn; tauto).
  destruct (table_bounds ns Hok lo cnt a Ha) as (Halo & _ & Ha0).
  destruct (table_bounds ns Hok lo cnt y Hy) as (_ & Hyhi & Hy0).
  destruct (table_bounds ns Hok lo cnt c Hc) as (Hclo & Hchi & Hc0).
  exists y. split; [exact Hsel|]. split; [exact Hy|].
  split; [|split; [exact Hy0|split]].
  - apply in_table in Hy as (v & e & Hv & _ & ->). exists v, e. split; [exact Hv|reflexivity].
  - intros g (v & e & Hv & Hg) Hgy.
    destruct (point_bounds ns Hok v e Hv) as [Hglo Hghi]. rewrite <- Hg in Hglo, Hghi.
    assert (Hg0 : (0 < g)%Q) by (pose proof (pow10_pos (e + 2)); lra).
    assert (Hga : (g <= a)%Q).
    { destruct (Z_lt_dec e lo) as [He|He].
      - pose proof (pow10_le (e + 3) (lo + 2) ltac:(lia)). lra.
      - destruct (Z_lt_dec e (lo + Z.of_nat cnt)) as [He'|He'].
        + assert (Hin : In (inject_Z v * pow10 e)%Q (table lo cnt)).
          { apply in_table. exists v, e. split; [exact Hv|]. split; [lia|reflexivity]. }
          rewrite HT, in_app_iff in Hin. cbn [In] in Hin.
          destruct Hin as [H|[H|[H|[H|H]]]].
          * specialize (Hl1 _ H). lra.
          * rewrite <- H in *. lra.
          * rewrite <- H in *. lra.
          * rewrite <- H in *. lra.
          * specialize (Hl2' _ H). lra.
        + pose proof (pow10_le (lo + Z.of_nat cnt + 2) (e + 2) ltac:(lia)). lra. }
    pose proof (edge_mono_l pol g a y Hg0 Hga Hy0). lra.
  - intros g (v & e & Hv & Hg) Hgy.
    destruct (point_bounds ns Hok v e Hv) as [Hglo Hghi]. rewrite <- Hg in Hglo, Hghi.
    assert (Hcg : (c <= g)%Q).
    { destruct (Z_lt_dec e lo) as [He|He].
      - pose proof (pow10_le (e + 3) (lo + 2) ltac:(lia)). lra.
      - destruct (Z_lt_dec e (lo + Z.of_nat cnt)) as [He'|He'].
        + assert (Hin : In (inject_Z v * pow10 e)%Q (table lo cnt)).
          { apply in_table. exists v, e. split; [exact Hv|]. split; [lia|reflexivity]. }
          rewrite HT, in_app_iff in Hin. cbn [In] in Hin.
          destruct Hin as [H|[H|[H|[H|H]]]].
          * specialize (Hl1 _ H). lra.
          * rewrite <- H in *. lra.
          * rewrite <- H in *. lra.
          * rewrite <- H in *. lra.
          * specialize (Hl2' _ H). lra.
        + pose proof (pow10_le (lo + Z.of_nat cnt + 2) (e + 2) ltac:(lia)). lra. }
    pose proof (edge_mono_r pol y c g Hy0 Hc0 Hcg). lra.
Qed.

(** A value has one bin only. *)
Lemma in_bin_unique (pol : policy) (x y1 y2 : Q) :
  in_bin ns pol x y1 -> in_bin ns pol x y2 -> (y1 == y2)%Q.
Proof.
  intros (Hg1 & _ & Hlo1 & Hup1) (Hg2 & _ & Hlo2 & Hup2).
  destruct (Qlt_le_dec y1 y2) as [H|H].
  - specialize (Hlo2 y1 Hg1 H). specialize (Hup1 y2 Hg2 H). lra.
  - apply Qle_lteq in H as [H|H]; [|now symmetry].
    specialize (Hlo1 y2 Hg2 H). specialize (Hup2 y1 Hg1 H). lra.
Qed.
End Series.

Lemma mapM_outcome {A B : Type} (f : A -> outcome B) (l : list A) (k : list B) :
  Forall2 (fun a b => f a = Ok b) l k -> mapM f l = Ok k.
Proof.
  induction 1 as [|a b l k Hab _ IH]; [reflexivity|].
  cbn [mapM]. rewrite Hab. cbn [mbind outcome_bind].
  change (mapM f l) with (mapM f l) in IH. rewrite IH. reflexivity.
Qed.

Lemma policy_of_name (r : string) :
  supported_rnd r = true -> exists pol, r = policy_name pol.
Proof.
  unfold supported_rnd. rewrite !orb_true_iff.
  intros [[[H|H]|H]|H]; apply String.eqb_eq in H; subst r;
    [exists Harmonic|exists Arithmetic|exists Up|exists Down]; reflexivity.
Qed.

Lemma edges_unsupported (r : string) (p : list Q) :
  supported_rnd r = false -> edges r p = Fail ValueError.
Proof.
  unfold supported_rnd, edges. rewrite !orb_false_iff.
  intros [[[-> ->] ->] ->]. reflexivity.
Qed.

Lemma edges_supported (pol : policy) (p : list Q) :
  edges (policy_name pol) p = Ok (adjacent (edge pol) p).
Proof.
  rewrite <- (edges_policy pol p). f_equal. now destruct pol.
Qed.

(** A call with at least one positive entry, under a supported series and a
    policy name that is supported once lower-cased. *)
Lemma round63_positive (X : list Q) (ser r : string) (ns : list Z) (pol : policy)
    (x : Q) (l : list Q) :
  E_SERIES ser = Some ns -> Codec.lower r = policy_name pol ->
  positive_entries X = x :: l ->
  exists ys,
    round63 X ser (Some r) = Ok (map Some ys)
    /\ Forall2 (fun t y => In y (extended_series ns x l) /\ in_bin ns pol t y) (x :: l) ys.
Proof.
  intros HE Hr HX. pose proof (E_SERIES_ok ser ns HE) as Hok.
  assert (Hpos : forall t, In t (x :: l) -> (0 < t)%Q).
  { intros t Ht. apply (positive_entries_pos X). now rewrite HX. }
  destruct (extended_series_covers ns x l Hpos) as (lo & cnt & ET & _ & Hcov).
  assert (Hall : forall t, In t (x :: l) ->
            exists y, select (Quantizer.table ns lo cnt)
                        (adjacent (edge pol) (Quantizer.table ns lo cnt)) t = Ok (Some y)
                      /\ In y (Quantizer.table ns lo cnt) /\ in_bin ns pol t y).
  { intros t Ht. destruct (Hcov t Ht) as [H1 H2]. now apply table_bin. }
  assert (Hys : exists ys,
            Forall2 (fun t oy => select (Quantizer.table ns lo cnt)
                                   (adjacent (edge pol) (Quantizer.table ns lo cnt)) t = Ok oy)
              (x :: l) (map Some ys)
            /\ Forall2 (fun t y => In y (Quantizer.table ns lo cnt) /\ in_bin ns pol t y)
                 (x :: l) ys).
  { clear HX Hpos Hcov. induction (x :: l) as [|t ts IH].
    - exists []. split; constructor.
    - destruct (Hall t (or_introl eq_refl)) as (y & Hs & Hin & Hb).
      destruct IH as (ys & H1 & H2); [intros u Hu; apply Hall; now right|].
      exists (y :: ys). split; constructor; auto. }
  destruct Hys as (ys & Hsel & Hbins). exists ys. split.
  - unfold round63. rewrite HE. fold (positive_entries X). rewrite HX, Hr, ET.
    rewrite edges_supported. cbn [mbind outcome_bind].
    now apply mapM_outcome.
  - rewrite ET. exact Hbins.
Qed.

Lemma round63_scalar_bin (ser r : string) (ns : list Z) (pol : policy) (x : Q) :
  E_SERIES ser = Some ns -> Codec.lower r = policy_name pol -> (0 < x)%Q ->
  exists y, round63 [x] ser (Some r) = Ok [Some y] /\ in_bin ns pol x y.
Proof.
  intros HE Hr Hx.
  assert (HX : positive_entries [x] = [x]).
  { unfold positive_entries. rewrite filter_cons, filter_nil.
    destruct (decide (idr x = true)) as [_|Hn]; [reflexivity|].
    exfalso. apply Hn. now apply idr_pos. }
  destruct (round63_positive [x] ser r ns pol x [] HE Hr HX) as (ys & Hrun & Hb).
  apply Forall2_cons_inv_l in Hb as (y & ys' & [_ Hbin] & Hnil & ->).
  apply Forall2_nil_inv_l in Hnil as ->.
  exists y. split; [exact Hrun|exact Hbin].
Qed.

Lemma lower_policy_name (pol : policy) : Codec.lower (policy_name pol) = policy_name pol.
Proof. now destruct pol. Qed.

Lemma lower_char_idem (c : ascii) : Codec.lower_char (Codec.lower_char c) = Codec.lower_char c.
Proof. destruct c as [[] [] [] [] [] [] [] []]; reflexivity. Qed.

Lemma lower_idem (s : string) : Codec.lower (Codec.lower s) = Codec.lower s.
Proof.
  induction s as [|c s IH]; [reflexivity|].
  cbn [Codec.lower]. now rewrite lower_char_idem, IH.
Qed.

Section SeriesPoints.
Variable ns : list Z.
Hypothesis Hok : series_ok ns = true.

Lemma on_series_pos (g : Q) : on_series ns g -> (0 < g)%Q.
Proof.
  intros (v & e & Hv & Hg). destruct (point_bounds ns Hok v e Hv) as [H _].
  pose proof (pow10_pos (e + 2)). lra.
Qed.

Lemma on_series_times10 (g : Q) : on_series ns g -> on_series ns (10 * g).
Proof.
  intros (v & e & Hv & Hg). exists v, (e + 1). split; [exact Hv|].
  rewrite Hg, pow10_succ. ring.
Qed.

Lemma on_series_div10 (g : Q) : on_series ns g -> on_series ns (g / 10).
Proof.
  intros (v & e & Hv & Hg). exists v, (e - 1). split; [exact Hv|].
  rewrite Hg, (pow10_pred e). field.
Qed.

Lemma edge_compat (pol : policy) (a a' b b' : Q) :
  (a == a')%Q -> (b == b')%Q -> (edge pol a b == edge pol a' b')%Q.
Proof. intros Ha Hb. destruct pol; cbn [edge]; now rewrite ?Ha, ?Hb. Qed.

Lemma edge_times10 (pol : policy) (a b : Q) :
  (0 < a)%Q -> (0 < b)%Q -> (edge pol (10 * a) (10 * b) == 10 * edge pol a b)%Q.
Proof.
  intros Ha Hb. destruct pol; cbn [edge]; try reflexivity.
  - field. lra.
  - field.
Qed.

(** The bins of the series repeat from decade to decade. *)
Lemma in_bin_times10 (pol : policy) (x y : Q) :
  in_bin ns pol x y -> in_bin ns pol (10 * x) (10 * y).
Proof.
  intros (Hy & Hy0 & Hlo & Hup). split; [now apply on_series_times10|].
  split; [lra|]. split.
  - intros g Hg Hgy. pose proof (on_series_pos g Hg) as Hg0.
    assert (Hg' : (g / 10 < y)%Q) by (apply Qlt_shift_div_r; lra).
    specialize (Hlo (g / 10)%Q (on_series_div10 g Hg) Hg').
    assert (Hd0 : (0 < g / 10)%Q) by (apply Qlt_shift_div_l; lra).
    pose proof (edge_times10 pol (g / 10)%Q y Hd0 Hy0) as E.
    assert (Eg : (g == 10 * (g / 10))%Q) by field.
    rewrite (edge_compat pol g (10 * (g / 10))%Q (10 * y)%Q (10 * y)%Q Eg (Qeq_refl _)).
    lra.
  - intros g Hg Hgy. pose proof (on_series_pos g Hg) as Hg0.
    assert (Hg' : (y < g / 10)%Q) by (apply Qlt_shift_div_l; lra).
    specialize (Hup (g / 10)%Q (on_series_div10 g Hg) Hg').
    assert (Hd0 : (0 < g / 10)%Q) by (apply Qlt_shift_div_l; lra).
    pose proof (edge_times10 pol y (g / 10)%Q Hy0 Hd0) as E.
    assert (Eg : (g == 10 * (g / 10))%Q) by field.
    rewrite (edge_compat pol (10 * y)%Q (10 * y)%Q g (10 * (g / 10))%Q (Qeq_refl _) Eg).
    lra.
Qed.

Lemma in_bin_nearest (x y g : Q) :
  in_bin ns Arithmetic x y -> on_series ns g -> (Qabs (x - y) <= Qabs (x - g))%Q.
Proof.
  intros (Hy & Hy0 & Hlo & Hup) Hg.
  pose proof (Qle_Qabs (x - g)) as H1.
  pose proof (Qle_Qabs (- (x - g))) as H2. rewrite Qabs_opp in H2.
  apply Qabs_Qle_condition.
  destruct (Qlt_le_dec g y) as [Hgy|Hyg].
  - specialize (Hlo g Hg Hgy). cbn [edge] in Hlo.
    assert (E : ((g + y) / 2 * 2 == g + y)%Q) by field. lra.
  - apply Qle_lteq in Hyg as [Hyg|Heq]; [|rewrite <- Heq in *; lra].
    specialize (Hup g Hg Hyg). cbn [edge] in Hup.
    assert (E : ((y + g) / 2 * 2 == y + g)%Q) by field. lra.
Qed.

Lemma in_bin_down (x y : Q) :
  in_bin ns Down x y ->
  (y <= x)%Q /\ forall g, on_series ns g -> (g <= x)%Q -> (g <= y)%Q.
Proof.
  intros (Hy & Hy0 & Hlo & Hup). split.
  - apply (Hlo (y / 10)%Q (on_series_div10 y Hy)). apply Qlt_shift_div_r; lra.
  - intros g Hg Hgx. destruct (Qlt_le_dec y g) as [H|H]; [|exact H].
    specialize (Hup g Hg H). cbn [edge] in Hup. lra.
Qed.

Lemma in_bin_up (x y : Q) :
  in_bin ns Up x y ->
  (x < y)%Q /\ forall g, on_series ns g -> (x < g)%Q -> (y <= g)%Q.
Proof.
  intros (Hy & Hy0 & Hlo & Hup). split.
  - apply (Hup (10 * y)%Q (on_series_times10 y Hy)). lra.
  - intros g Hg Hgx. destruct (Qlt_le_dec g y) as [H|H]; [|exact H].
    specialize (Hlo g Hg H). cbn [edge] in Hlo. lra.
Qed.
End SeriesPoints.

(** X1: a call on an array answers its positive entries only, one answer per
    positive entry and in their order; each answer is a member of the
    extended series of the call and equals the answer of a call on that
    entry alone. *)
Theorem round63_array_elementwise (X : list Q) (ser : string) (ns : list Z) (pol : policy)
    (x : Q) (l : list Q) :
  E_SERIES ser = Some ns -> positive_entries X = x :: l ->
  exists ys,
    round63 X ser (Some (policy_name pol)) = Ok (map Some ys)
    /\ length ys = length (positive_entries X)
    /\ Forall2 (fun t y =>
                  In y (extended_series ns x l)
                  /\ exists y', round63 [t] ser (Some (policy_name pol)) = Ok [Some y']
                                /\ (y == y')%Q)
         (positive_entries X) ys.
Proof.
  intros HE HX. pose proof (E_SERIES_ok ser ns HE) as Hok.
  destruct (round63_positive X ser (policy_name pol) ns pol x l HE
              (lower_policy_name pol) HX) as (ys & Hrun & Hb).
  exists ys. split; [exact Hrun|]. rewrite HX.
  split; [symmetry; eapply Forall2_length; exact Hb|].
  assert (Hpos : Forall (fun t => (0 < t)%Q) (x :: l)).
  { apply Forall_forall. intros t Ht%list_elem_of_In.
    apply (positive_entries_pos X). now rewrite HX. }
  set (T := extended_series ns x l) in *. clearbody T. clear HX Hrun.
  revert Hpos. generalize dependent (x :: l). intros L Hb.
  induction Hb as [|t y ts ys' [Hin Hbin] _ IH]; intros Hpos; [constructor|].
  apply Forall_cons in Hpos as [Ht Hpos]. constructor; [|now apply IH].
  split; [exact Hin|].
  destruct (round63_scalar_bin ser (policy_name pol) ns pol t HE
              (lower_policy_name pol) Ht) as (y' & Hr & Hb').
  exists y'. split; [exact Hr|]. now apply (in_bin_unique ns pol t).
Qed.

(** X2: [round63] fails in two cases only, each time with a ValueError: the
    series name is not in the table, or some entry is positive and the policy
    name, lower-cased, is none of harmonic, arithmetic, up, down. An array
    without a positive entry is answered even under an unknown policy. *)
Theorem round63_failure (X : list Q) (ser : string) (rnd : option string) (f : failure) :
  round63 X ser rnd = Fail f
  <-> f = ValueError
      /\ (E_SERIES ser = None
          \/ (positive_entries X <> []
              /\ supported_rnd
                   (Codec.lower match rnd with None => "arithmetic"%string | Some r => r end)
                 = false)).
Proof.
  set (r := match rnd with None => "arithmetic"%string | Some r => r end).
  assert (Hr : round63 X ser rnd = round63 X ser (Some r)) by (destruct rnd; reflexivity).
  rewrite Hr. clear Hr.
  destruct (E_SERIES ser) as [ns|] eqn:HE.
  2:{ unfold round63. rewrite HE. split; [intros [= <-]; auto|intros [-> _]; reflexivity]. }
  destruct (positive_entries X) as [|x l] eqn:HX.
  { unfold round63. rewrite HE. fold (positive_entries X). rewrite HX.
    split; [discriminate|]. intros [_ [H|[H _]]]; [discriminate|contradiction]. }
  destruct (supported_rnd (Codec.lower r)) eqn:Hs.
  - destruct (policy_of_name _ Hs) as (pol & Hpol).
    destruct (round63_positive X ser r ns pol x l HE Hpol HX) as (ys & -> & _).
    split; [discriminate|]. intros [_ [H|[_ H]]]; discriminate.
  - assert (E : round63 X ser (Some r) = Fail ValueError).
    { unfold round63. rewrite HE. fold (positive_entries X). rewrite HX.
      now rewrite edges_unsupported. }
    rewrite E. split; [intros [= <-]; split; [reflexivity|right; split; [discriminate|reflexivity]]|].
    intros [-> _]. reflexivity.
Qed.

(** X3: under the default policy (arithmetic) the answer for a positive
    value is a nearest point of the whole series: no series value, in any
    decade, is closer to the input. *)
Theorem round63_nearest (ser : string) (ns : list Z) (x : Q) :
  E_SERIES ser = Some ns -> (0 < x)%Q ->
  exists y, round63 [x] ser None = Ok [Some y] /\ on_series ns y
            /\ forall g, on_series ns g -> (Qabs (x - y) <= Qabs (x - g))%Q.
Proof.
  intros HE Hx. pose proof (E_SERIES_ok ser ns HE) as Hok.
  destruct (round63_scalar_bin ser "arithmetic" ns Arithmetic x HE eq_refl Hx)
    as (y & Hr & Hb).
  exists y. split; [exact Hr|]. split; [apply Hb|].
  intros g Hg. now apply (in_bin_nearest ns).
Qed.




(** X7: the policy name is taken without regard to case. *)
Theorem round63_policy_case (X : list Q) (ser r : string) :
  round63 X ser (Some r) = round63 X ser (Some (Codec.lower r)).
Proof. unfold round63. now rewrite lower_idem. Qed.

End BinFacts.

(** ** Value codec: reading back what was written *)

Module RoundTripFacts.
Import Codec Format Numeric CodecFacts FormatFacts NumericFacts.

Lemma replace_absent (a : ascii) (old new s : string) :
  all_chars (fun c => negb (Ascii.eqb a c)) s = true ->
  replace (String a old) new s = s.
Proof.
  unfold replace. induction s as [|c s IH]; [reflexivity|].
  cbn [all_chars]. intros [Hc Hs]%andb_true_iff. apply negb_true_iff in Hc.
  cbn [replace_from]. rewrite (prefix_head_neq a old c s Hc). f_equal. now apply IH.
Qed.

Lemma token_char_facts (c : ascii) :
  (is_digit c || Ascii.eqb c "." || Ascii.eqb c "e" || Ascii.eqb c "+" || Ascii.eqb c "-")
  = true ->
  lower_char c = c
  /\ Ascii.eqb micro c = false /\ Ascii.eqb "M" c = false /\ Ascii.eqb "G" c = false
  /\ Ascii.eqb "k" c = false /\ Ascii.eqb "p" c = false /\ Ascii.eqb "n" c = false
  /\ Ascii.eqb "u" c = false /\ Ascii.eqb "m" c = false.
Proof.
  destruct c as [[] [] [] [] [] [] [] []]; vm_compute; intros H;
    first [discriminate H | repeat split].
Qed.

Lemma lower_token (s : string) : no_suffix_letter s = true -> lower s = s.
Proof.
  unfold no_suffix_letter. induction s as [|c s IH]; [reflexivity|].
  cbn [all_chars]. intros [Hc Hs]%andb_true_iff.
  cbn [lower]. rewrite (proj1 (token_char_facts c Hc)). f_equal. now apply IH.
Qed.

Lemma token_absent (a : ascii) (s : string) :
  (forall c, (is_digit c || Ascii.eqb c "." || Ascii.eqb c "e" || Ascii.eqb c "+"
              || Ascii.eqb c "-") = true -> Ascii.eqb a c = false) ->
  no_suffix_letter s = true -> all_chars (fun c => negb (Ascii.eqb a c)) s = true.
Proof.
  intros Ha. apply all_chars_impl. intros c Hc. now rewrite (Ha c Hc).
Qed.

(** A token of digits, point, exponent mark and signs goes through the
    substitutions untouched. *)
Lemma parse_value_token (s : string) :
  no_suffix_letter s = true -> parse_value s = of_option ValueError (pyfloat s).
Proof.
  intros Hs. unfold parse_value.
  rewrite (replace_absent micro "" "u" s)
    by (apply token_absent; [intros c Hc; apply (token_char_facts c Hc)|exact Hs]).
  destruct (isnumeric s); cbn [negb]; [reflexivity|].
  unfold subst_suffixes.
  rewrite (replace_absent "M" "" "e6" s)
    by (apply token_absent; [intros c Hc; apply (token_char_facts c Hc)|exact Hs]).
  rewrite (replace_absent "G" "" "e9" s)
    by (apply token_absent; [intros c Hc; apply (token_char_facts c Hc)|exact Hs]).
  rewrite (lower_token s Hs).
  repeat rewrite (replace_absent _ _ _ s)
    by (apply token_absent; [intros c Hc; apply (token_char_facts c Hc)|exact Hs]).
  reflexivity.
Qed.

Lemma digit_val_char (d : Z) :
  0 <= d <= 9 -> is_digit (digit_char d) = true /\ digit_val (digit_char d) = d.
Proof.
  intros H.
  assert (E : d = 0 \/ d = 1 \/ d = 2 \/ d = 3 \/ d = 4 \/ d = 5 \/ d = 6 \/ d = 7
              \/ d = 8 \/ d = 9) by lia.
  repeat (destruct E as [E|E]; [rewrite E; split; reflexivity|]).
  rewrite E. split; reflexivity.
Qed.

Lemma digitpart_digit (b : bool) (d : Z) (s : string) (a : Z) (c : nat) :
  digitpart_from b (String (digit_char (d mod 10)) s) a c
  = digitpart_from true s (10 * a + d mod 10) (S c).
Proof.
  destruct (digit_val_char (d mod 10)) as [H1 H2].
  { pose proof (Z.mod_pos_bound d 10 eq_refl). lia. }
  cbn [digitpart_from]. now rewrite H1, H2.
Qed.

(** Reading the digits that [digits_fixed] wrote gives the number back. *)
Lemma digitpart_digits_fixed (n : nat) : forall m acc b a c,
  digitpart_from b (digits_fixed (S n) m acc) a c
  = digitpart_from true acc (a * 10 ^ Z.of_nat (S n) + m mod 10 ^ Z.of_nat (S n))
      (c + S n).
Proof.
  induction n as [|n IH]; intros m acc b a c.
  - cbn [digits_fixed]. rewrite digitpart_digit. change (10 ^ Z.of_nat 1) with 10.
    f_equal; lia.
  - change (digits_fixed (S (S n)) m acc)
      with (digits_fixed (S n) (m / 10) (String (digit_char (m mod 10)) acc)).
    rewrite IH, digitpart_digit. f_equal; [|lia].
    assert (Hp : 0 < 10 ^ Z.of_nat (S n)) by (apply Z.pow_pos_nonneg; lia).
    replace (10 ^ Z.of_nat (S (S n))) with (10 * 10 ^ Z.of_nat (S n))
      by (rewrite (Nat2Z.inj_succ (S n)), Z.pow_succ_r by lia; reflexivity).
    rewrite (Z.rem_mul_r m 10 (10 ^ Z.of_nat (S n))) by lia. lia.
Qed.

Lemma digitpart_dec_digits (fuel : nat) : forall n acc b a c,
  0 <= n < 10 ^ Z.of_nat (S fuel) ->
  exists k : nat,
    digitpart_from b (dec_digits (S fuel) n acc) a c
    = digitpart_from true acc (a * 10 ^ Z.of_nat k + n) (c + k).
Proof.
  induction fuel as [|fuel IH]; intros n acc b a c Hn.
  - change (10 ^ Z.of_nat 1) with 10 in Hn.
    cbn [dec_digits]. destruct (Z.ltb_spec n 10) as [Hlt|Hge]; [|lia].
    exists 1%nat. rewrite digitpart_digit. rewrite Z.mod_small by lia.
    change (10 ^ Z.of_nat 1) with 10. f_equal; lia.
  - change (dec_digits (S (S fuel)) n acc)
      with (let acc' := String (digit_char (n mod 10)) acc in
            if n <? 10 then acc' else dec_digits (S fuel) (n / 10) acc').
    cbv zeta. destruct (Z.ltb_spec n 10) as [Hlt|Hge].
    + exists 1%nat. rewrite digitpart_digit. rewrite Z.mod_small by lia.
      change (10 ^ Z.of_nat 1) with 10. f_equal; lia.
    + rewrite (Nat2Z.inj_succ (S fuel)), Z.pow_succ_r in Hn by lia.
      destruct (IH (n / 10) (String (digit_char (n mod 10)) acc) b a c) as (k & ->).
      { split; [apply Z.div_pos; lia|apply Z.div_lt_upper_bound; lia]. }
      exists (S k). rewrite digitpart_digit. f_equal; [|lia].
      rewrite Nat2Z.inj_succ, Z.pow_succ_r by lia.
      pose proof (Z.div_mod n 10 ltac:(lia)). lia.
Qed.

(** The exponent text reads back as the exponent. *)
Lemma parse_exponent_text (e : Z) : parse_exponent (exponent_text e) = Some e.
Proof.
  unfold exponent_text, parse_exponent.
  set (fuel := Z.to_nat (Z.log2 (Z.abs e))).
  assert (Hfuel : 0 <= Z.abs e < 10 ^ Z.of_nat (S fuel)).
  { split; [lia|]. unfold fuel. pose proof (Z.log2_nonneg (Z.abs e)) as Hl.
    rewrite Nat2Z.inj_succ, Z2Nat.id by lia.
    destruct (Z.eq_dec (Z.abs e) 0) as [E0|E0].
    - assert (0 < 10 ^ Z.succ (Z.log2 (Z.abs e))) by (apply Z.pow_pos_nonneg; lia). lia.
    - destruct (Z.log2_spec (Z.abs e) ltac:(lia)) as [_ Hhi].
      eapply Z.lt_le_trans; [exact Hhi|]. apply Z.pow_le_mono_l. lia. }
  assert (Hbody : exists cnt,
            digitpart (if Z.abs e <? 10
                       then String "0" (dec_digits (S fuel) (Z.abs e) "")
                       else dec_digits (S fuel) (Z.abs e) "") = Some (Z.abs e, cnt)).
  { unfold digitpart. destruct (Z.abs e <? 10).
    - cbn [digitpart_from is_digit]. change (is_digit "0") with true. cbv iota.
      destruct (digitpart_dec_digits fuel (Z.abs e) "" true (10 * 0 + digit_val "0") 1 Hfuel)
        as (k & ->).
      cbn [digitpart_from]. change (digit_val "0") with 0.
      replace (10 * 0 + 0) with 0 by lia. replace (0 * 10 ^ Z.of_nat k + Z.abs e) with (Z.abs e) by lia.
      eexists. reflexivity.
    - destruct (digitpart_dec_digits fuel (Z.abs e) "" false 0 0 Hfuel) as (k & ->).
      cbn [digitpart_from]. replace (0 * 10 ^ Z.of_nat k + Z.abs e) with (Z.abs e) by lia.
      eexists. reflexivity. }
  destruct Hbody as (cnt & Hbody).
  destruct (Z.ltb_spec e 0) as [Hneg|Hpos]; cbn [parse_sign]; rewrite Hbody;
    cbn [signed]; f_equal; lia.
Qed.

Lemma parse_sign_digit (d : ascii) (s : string) :
  is_digit d = true -> parse_sign (String d s) = (false, String d s).
Proof.
  destruct d as [[] [] [] [] [] [] [] []]; vm_compute; intros H;
    first [discriminate H | reflexivity].
Qed.

(** The mantissa text reads back as the mantissa. *)
Lemma parse_mantissa_digits (p : nat) (m : Z) (neg : bool) :
  0 <= m < 10 ^ Z.of_nat (S (S p)) ->
  exists d rest,
    digits_fixed (S (S p)) m "" = String d rest
    /\ parse_mantissa ((if neg then "-" else "") +:+ String d (String "." rest))
       = Some (signed neg m, S p)
    /\ all_chars (fun c => negb (is_e c)) ((if neg then "-" else "") +:+ String d (String "." rest))
       = true.
Proof.
  intros Hm.
  rewrite (digits_fixed_lead (S p)).
  set (d := digit_char ((m / 10 ^ Z.of_nat (S p)) mod 10)).
  set (rest := digits_fixed (S p) m "").
  exists d, rest. split; [reflexivity|].
  assert (Hp : 0 < 10 ^ Z.of_nat (S p)) by (apply Z.pow_pos_nonneg; lia).
  assert (Hlead : 0 <= m / 10 ^ Z.of_nat (S p) < 10).
  { split; [apply Z.div_pos; lia|]. apply Z.div_lt_upper_bound; [lia|].
    rewrite (Nat2Z.inj_succ (S p)), Z.pow_succ_r in Hm by lia. lia. }
  destruct (digit_val_char ((m / 10 ^ Z.of_nat (S p)) mod 10)) as [Hd Hv].
  { rewrite Z.mod_small by lia. lia. }
  fold d in Hd, Hv.
  assert (Hdot : Ascii.eqb "." d = false) by (now apply digit_not).
  assert (Hrest : rest = String (digit_char ((m / 10 ^ Z.of_nat p) mod 10))
                           (digits_fixed p m "")) by apply digits_fixed_lead.
  assert (Hsplit : split_at (Ascii.eqb ".") (String d (String "." rest))
                   = (String d "", Some rest)).
  { cbn [split_at]. rewrite Hdot. reflexivity. }
  assert (Hip : digitpart_opt (String d "") 0 = Some (m / 10 ^ Z.of_nat (S p), 1%nat)).
  { cbn [digitpart_opt digitpart_from]. rewrite Hd, Hv.
    rewrite Z.mod_small by lia. rewrite Z.mul_0_r, Z.add_0_l. reflexivity. }
  assert (Hfp : digitpart_opt rest (m / 10 ^ Z.of_nat (S p)) = Some (m, S p)).
  { rewrite Hrest at 1. cbn [digitpart_opt]. rewrite <- Hrest. unfold rest.
    rewrite digitpart_digits_fixed. cbn [digitpart_from].
    assert (E : m / 10 ^ Z.of_nat (S p) * 10 ^ Z.of_nat (S p) + m mod 10 ^ Z.of_nat (S p) = m).
    { pose proof (Z.div_mod m (10 ^ Z.of_nat (S p)) ltac:(lia)). lia. }
    rewrite E. reflexivity. }
  assert (Hdigits : all_chars is_digit rest = true).
  { unfold rest. destruct (digits_fixed_spec (S p) m "") as (D & HD & Hall & _).
    rewrite HD, append_nil_r. exact Hall. }
  assert (Hnoe : all_chars (fun c => negb (is_e c)) (String d (String "." rest)) = true).
  { cbn [all_chars]. unfold is_e at 1.
    rewrite (digit_neq_r d "e" eq_refl Hd), (digit_neq_r d "E" eq_refl Hd).
    cbn [orb negb andb]. change (is_e ".") with false. cbn [negb andb].
    eapply all_chars_impl; [|exact Hdigits]. intros c Hc. unfold is_e.
    now rewrite (digit_neq_r c "e" eq_refl Hc), (digit_neq_r c "E" eq_refl Hc). }
  split.
  - unfold parse_mantissa. destruct neg.
    + change ("-" +:+ String d (String "." rest))%string
        with (String "-" (String d (String "." rest))).
      cbn [parse_sign]. rewrite Hsplit.
      change (match String d "" with
              | EmptyString => _ | String _ _ => _ end) with
        (match digitpart_opt (String d "") 0 with
         | Some (i, _) =>
             match digitpart_opt rest i with
             | Some (m0, f) => Some (signed true m0, f)
             | None => None
             end
         | None => None
         end).
      now rewrite Hip, Hfp.
    + change ("" +:+ String d (String "." rest))%string with (String d (String "." rest)).
      rewrite (parse_sign_digit d _ Hd), Hsplit.
      change (match String d "" with
              | EmptyString => _ | String _ _ => _ end) with
        (match digitpart_opt (String d "") 0 with
         | Some (i, _) =>
             match digitpart_opt rest i with
             | Some (m0, f) => Some (signed false m0, f)
             | None => None
             end
         | None => None
         end).
      now rewrite Hip, Hfp.
  - destruct neg.
    + change ("-" +:+ String d (String "." rest))%string
        with (String "-" (String d (String "." rest))).
      cbn [all_chars]. change (is_e "-") with false. cbn [negb andb]. exact Hnoe.
    + exact Hnoe.
Qed.

Lemma round_half_even_error (t : Q) :
  (Qabs (inject_Z (round_half_even t) - t) <= 1 # 2)%Q.
Proof.
  unfold round_half_even. pose proof (Qfloor_le t) as H1. pose proof (Qlt_floor t) as H2.
  rewrite inject_Z_plus in H2. change (inject_Z 1) with 1%Q in H2.
  apply Qabs_Qle_condition.
  destruct (Qcompare_spec (t - inject_Z (Qfloor t)) (1 # 2)) as [E|E|E].
  - destruct (Z.even (Qfloor t)).
    + lra.
    + rewrite inject_Z_plus. change (inject_Z 1) with 1%Q. lra.
  - lra.
  - rewrite inject_Z_plus. change (inject_Z 1) with 1%Q. lra.
Qed.

(** Mantissa and exponent of a value: the mantissa has at most [prec + 1]
    digits and the pair is within half a unit of the last digit of the value. *)
Lemma decompose_spec (prec : nat) (a : Q) :
  (0 <= a)%Q ->
  0 <= fst (decompose prec a) < 10 ^ (Z.of_nat prec + 1)
  /\ (Qabs (inject_Z (fst (decompose prec a))
            * pow10 (snd (decompose prec a) - Z.of_nat prec) - a)
      <= a * ((1 # 2) * pow10 (- Z.of_nat prec)))%Q.
Proof.
  intros Ha0. unfold decompose.
  assert (Hpp : 0 < 10 ^ (Z.of_nat prec + 1)) by (apply Z.pow_pos_nonneg; lia).
  destruct (Qeq_bool a 0) eqn:E0.
  { apply Qeq_bool_iff in E0. cbn [fst snd]. split; [lia|].
    rewrite E0. apply Qabs_Qle_condition. split.
    - change (inject_Z 0) with 0%Q. lra.
    - change (inject_Z 0) with 0%Q. lra. }
  apply Qeq_bool_neq in E0.
  assert (Ha : (0 < a)%Q).
  { apply Qle_lteq in Ha0 as [H|H]; [exact H|]. exfalso. apply E0. now symmetry. }
  destruct (floor_log10_spec a Ha) as [Hlo Hhi].
  set (e0 := floor_log10 a) in *.
  set (p := pow10 (e0 - Z.of_nat prec)).
  set (P := inject_Z (10 ^ Z.of_nat prec)).
  assert (Hp : (0 < p)%Q) by apply pow10_pos.
  assert (HP : P = pow10 (Z.of_nat prec)) by (symmetry; apply pow10_nonneg_inject; lia).
  assert (E1 : (pow10 e0 == P * p)%Q).
  { unfold p. rewrite HP, <- pow10_add.
    now replace (Z.of_nat prec + (e0 - Z.of_nat prec)) with e0 by lia. }
  assert (E2 : (pow10 (e0 + 1) == 10 * P * p)%Q) by (rewrite pow10_succ, E1; ring).
  assert (E3 : (p == pow10 e0 * pow10 (- Z.of_nat prec))%Q).
  { unfold p. rewrite <- pow10_add. now replace (e0 + - Z.of_nat prec) with (e0 - Z.of_nat prec) by lia. }
  assert (Hm : (0 < pow10 (- Z.of_nat prec))%Q) by apply pow10_pos.
  set (t := (a / p)%Q).
  assert (Et : (t * p == a)%Q) by (unfold t; field; lra).
  assert (Ht1 : (P <= t)%Q) by (apply Qle_shift_div_l; lra).
  assert (Ht2 : (t < 10 * P)%Q) by (apply Qlt_shift_div_r; lra).
  pose proof (round_half_even_bounds t) as [Hr1 Hr2].
  pose proof (round_half_even_error t) as Herr.
  apply Qabs_Qle_condition in Herr as [Herr1 Herr2].
  assert (Hf1 : 10 ^ Z.of_nat prec <= Qfloor t).
  { rewrite <- (Qfloor_Z (10 ^ Z.of_nat prec)). now apply Qfloor_resp_le. }
  assert (Hf2 : Qfloor t < 10 ^ (Z.of_nat prec + 1)).
  { pose proof (Qfloor_le t) as Hfl. rewrite Zlt_Qlt.
    rewrite Z.pow_add_r, inject_Z_mult by lia. change (inject_Z (10 ^ 1)) with 10%Q.
    fold P. lra. }
  assert (Hp0 : 0 < 10 ^ Z.of_nat prec) by (apply Z.pow_pos_nonneg; lia).
  assert (Hbound : (p * (1 # 2) <= a * ((1 # 2) * pow10 (- Z.of_nat prec)))%Q).
  { rewrite E3. nra. }
  set (m0 := round_half_even t) in *.
  assert (Hval : forall m e,
            (inject_Z m * pow10 (e - Z.of_nat prec) == inject_Z m0 * p)%Q ->
            (Qabs (inject_Z m * pow10 (e - Z.of_nat prec) - a)
             <= a * ((1 # 2) * pow10 (- Z.of_nat prec)))%Q).
  { intros m e Hme. rewrite Hme. apply Qabs_Qle_condition. split; nra. }
  destruct (Z.eqb_spec m0 (10 ^ (Z.of_nat prec + 1))) as [Heq|Hne]; cbn [fst snd].
  - split; [rewrite Z.pow_add_r by lia; lia|].
    apply Hval. rewrite Heq.
    replace (e0 + 1 - Z.of_nat prec) with (e0 - Z.of_nat prec + 1) by lia.
    rewrite pow10_succ. fold p. rewrite Z.pow_add_r, inject_Z_mult by lia.
    change (inject_Z (10 ^ 1)) with 10%Q. ring.
  - split; [lia|]. apply Hval. reflexivity.
Qed.

Lemma format_e_chars (prec : nat) (x : Q) : no_suffix_letter (format_e prec x) = true.
Proof.
  unfold format_e. destruct (decompose prec (Qabs x)) as [m e].
  destruct (digits_fixed_spec (S prec) m "") as (D & -> & HD & HL).
  rewrite append_nil_r. destruct D as [|d rest]; [discriminate HL|].
  cbn [all_chars] in HD. apply andb_true_iff in HD as [Hd Hrest].
  destruct (exponent_text_shape e) as (sg & ex & -> & Hsg & Hex & _).
  rewrite !no_suffix_letter_app. apply andb_true_iff. split; [now destruct (Qlt_le_dec x 0)|].
  apply andb_true_iff. split.
  - unfold no_suffix_letter. cbn [all_chars]. rewrite Hd. cbn [orb andb].
    destruct prec; [now apply digits_no_suffix|].
    cbn [all_chars]. change (is_digit ".") with false. cbn [orb andb Ascii.eqb Bool.eqb].
    now apply digits_no_suffix.
  - unfold no_suffix_letter. cbn [all_chars]. cbn [Ascii.eqb Bool.eqb].
    apply orb_true_iff in Hsg as [Hs|Hs]; rewrite Hs, ?orb_true_r; cbn [andb];
      now apply digits_no_suffix.
Qed.

(** What [float] makes of a written token: the signed mantissa scaled by the
    exponent. *)
Lemma pyfloat_format_e (p : nat) (x : Q) :
  pyfloat (format_e (S p) x)
  = Some (scaled (signed (if Qlt_le_dec x 0 then true else false)
                    (fst (decompose (S p) (Qabs x))))
                 (snd (decompose (S p) (Qabs x)) - Z.of_nat (S p))).
Proof.
  destruct (decompose_spec (S p) (Qabs x) (Qabs_nonneg x)) as [Hm _].
  unfold format_e. destruct (decompose (S p) (Qabs x)) as [m e]. cbn [fst snd] in *.
  replace (Z.of_nat (S p) + 1) with (Z.of_nat (S (S p))) in Hm by lia.
  destruct (parse_mantissa_digits p m (if Qlt_le_dec x 0 then true else false) Hm)
    as (d & rest & -> & Hpm & Hnoe).
  assert (Esign : (if Qlt_le_dec x 0 then "-" else "")%string
                  = (if (if Qlt_le_dec x 0 then true else false) then "-" else "")%string)
    by now destruct (Qlt_le_dec x 0).
  rewrite Esign. rewrite <- append_assoc.
  unfold pyfloat.
  rewrite (split_at_app is_e _ "e" (exponent_text e) Hnoe eq_refl).
  rewrite Hpm, parse_exponent_text. reflexivity.
Qed.

(** X8: every token written in exponential notation, with the twelve
    fraction digits of the netlist or the three of the schematic, is read
    back by the value parser without error, as a number within half a unit of
    the last written digit of the value that was written. *)
Theorem written_token_read_back (p : nat) (x : Q) :
  exists q, parse_value (format_e (S p) x) = Ok q
            /\ (Qabs (q - x) <= Qabs x * ((1 # 2) * pow10 (- Z.of_nat (S p))))%Q.
Proof.
  eexists. split.
  - rewrite (parse_value_token _ (format_e_chars (S p) x)), pyfloat_format_e. reflexivity.
  - destruct (decompose_spec (S p) (Qabs x) (Qabs_nonneg x)) as [_ Hv].
    unfold scaled. set (m := fst (decompose (S p) (Qabs x))) in *.
    set (e := snd (decompose (S p) (Qabs x))) in *.
    set (V := (inject_Z m * pow10 (e - Z.of_nat (S p)))%Q) in *.
    set (B := (Qabs x * ((1 # 2) * pow10 (- Z.of_nat (S p))))%Q) in *.
    apply Qabs_Qle_condition in Hv as [Hv1 Hv2]. apply Qabs_Qle_condition.
    destruct (Qlt_le_dec x 0) as [Hneg|Hpos]; cbn [signed].
    + assert (Ex : (Qabs x == - x)%Q) by (apply Qabs_neg; lra).
      rewrite inject_Z_opp.
      assert (EV : (- inject_Z m * pow10 (e - Z.of_nat (S p)) == - V)%Q) by (unfold V; ring).
      rewrite EV. lra.
    + assert (Ex : (Qabs x == x)%Q) by (apply Qabs_pos; lra).
      fold V. lra.
Qed.

End RoundTripFacts.

(** ** Reading back what was written *)

Module ReaderFacts.
Import Codec Py Netlist Reader CodecFacts FormatFacts NetlistFacts.

Lemma flush_token w : is_token w = true -> flush w = [w].
Proof. destruct w; [discriminate|reflexivity]. Qed.

Lemma no_space_snoc w c :
  no_space w = true -> is_space c = false -> is_token (w +:+ String c "") = true.
Proof.
  intros Hw Hc. assert (H : no_space (w +:+ String c "") = true).
  { unfold no_space. rewrite all_chars_app. apply andb_true_iff. split; [exact Hw|].
    cbn [all_chars]. now rewrite Hc. }
  destruct w; exact H.
Qed.

Lemma is_token_no_space w : is_token w = true -> no_space w = true.
Proof. destruct w; [discriminate|auto]. Qed.

(** Every word [split] returns is a token. *)
Lemma split_from_tokens (s : string) : forall w,
  no_space w = true -> Forall (fun t => is_token t = true) (split_from w s).
Proof.
  induction s as [|c s IH]; intros w Hw; cbn [split_from].
  - destruct w; [constructor|]. constructor; [exact Hw|constructor].
  - destruct (is_space c) eqn:Hc.
    + apply Forall_app. split; [|now apply IH].
      destruct w; [constructor|]. constructor; [exact Hw|constructor].
    + apply IH. apply is_token_no_space. now apply no_space_snoc.
Qed.

Lemma split_from_app (t : string) : forall w s,
  no_space t = true -> split_from w (t +:+ s) = split_from (w +:+ t) s.
Proof.
  induction t as [|c t IH]; intros w s Ht.
  - now rewrite append_nil_r.
  - cbn [no_space all_chars] in Ht. apply andb_true_iff in Ht as [Hc Ht].
    apply negb_true_iff in Hc. rewrite append_cons. cbn [split_from]. rewrite Hc.
    rewrite (IH _ _ Ht), append_assoc. reflexivity.
Qed.

Lemma lstrip_split (s : string) : split (lstrip s) = split s.
Proof.
  unfold split. induction s as [|c s IH]; [reflexivity|].
  cbn [lstrip]. destruct (is_space c) eqn:Hc; [|reflexivity].
  cbn [split_from]. rewrite Hc. exact IH.
Qed.

Lemma rstrip_empty (s : string) : rstrip s = "" -> forall w, split_from w s = flush w.
Proof.
  induction s as [|c s IH]; intros H w; [reflexivity|].
  cbn [rstrip] in H. destruct (rstrip s) eqn:E; [|discriminate H].
  destruct (is_space c) eqn:Hc; [|discriminate H].
  cbn [split_from]. rewrite Hc, (IH eq_refl). cbn [flush]. now rewrite app_nil_r.
Qed.

Lemma rstrip_split (s : string) : forall w, split_from w (rstrip s) = split_from w s.
Proof.
  induction s as [|c s IH]; intros w; [reflexivity|].
  cbn [rstrip]. destruct (rstrip s) as [|c' r] eqn:E.
  - destruct (is_space c) eqn:Hc; cbn [split_from]; rewrite Hc.
    + rewrite (rstrip_empty s E). cbn [flush]. now rewrite app_nil_r.
    + now rewrite (rstrip_empty s E).
  - cbn [split_from]. destruct (is_space c); now rewrite <- IH.
Qed.

(** Stripping before splitting changes nothing. *)
Lemma words_split (s : string) : words s = split s.
Proof. unfold words, strip, split. rewrite rstrip_split. apply lstrip_split. Qed.

Lemma words_tokens (s : string) : Forall (fun t => is_token t = true) (words s).
Proof. rewrite words_split. now apply split_from_tokens. Qed.

Lemma concat_cons2 (sep t t2 : string) (l : list string) :
  String.concat sep (t :: t2 :: l) = t +:+ sep +:+ String.concat sep (t2 :: l).
Proof. reflexivity. Qed.

(** The words of a written record are the tokens it was written from. *)
Lemma words_record (l : line) :
  Forall (fun t => is_token t = true) l -> words (record_text l) = l.
Proof.
  intros Hl. rewrite words_split. unfold split, record_text, newline.
  induction l as [|t l IH].
  - reflexivity.
  - apply Forall_cons in Hl as [Ht Hl]. specialize (IH Hl).
    pose proof (is_token_no_space t Ht) as Hns.
    destruct l as [|t2 l].
    + cbn [String.concat]. rewrite (split_from_app t _ _ Hns).
      change ("" +:+ t) with t. cbn [split_from].
      change (is_space (ascii_of_nat 10)) with true. cbn [flush split_from].
      rewrite (flush_token t Ht). reflexivity.
    + rewrite concat_cons2, !append_assoc. rewrite (split_from_app t _ _ Hns).
      change ("" +:+ t) with t. rewrite append_cons. cbn [split_from].
      change (is_space " ") with true. rewrite (flush_token t Ht).
      change ("" +:+ ?x) with x. cbn [app]. f_equal. exact IH.
Qed.

Lemma no_space_inner (c : ascii) : is_space c = false -> inner_char c = true.
Proof. destruct c as [[] [] [] [] [] [] [] []]; vm_compute; congruence. Qed.

Lemma record_inner (l : line) :
  Forall (fun t => is_token t = true) l -> all_chars inner_char (String.concat " " l) = true.
Proof.
  intros Hl. induction l as [|t l IH]; [reflexivity|].
  apply Forall_cons in Hl as [Ht Hl]. specialize (IH Hl).
  assert (Hti : all_chars inner_char t = true).
  { apply is_token_no_space in Ht. revert Ht. apply all_chars_impl.
    intros c Hc. apply no_space_inner. now apply negb_true_iff. }
  destruct l as [|t2 l]; [exact Hti|].
  rewrite concat_cons2, !all_chars_app, Hti, IH. reflexivity.
Qed.

Lemma universal_newlines_inner (b : string) : forall rest,
  all_chars inner_char b = true ->
  universal_newlines (b +:+ String LF rest) = b +:+ String LF (universal_newlines rest).
Proof.
  induction b as [|c b IH]; intros rest Hb.
  - reflexivity.
  - cbn [all_chars] in Hb. apply andb_true_iff in Hb as [Hc Hb].
    unfold inner_char in Hc. apply andb_true_iff in Hc as [_ Hc]. apply negb_true_iff in Hc.
    rewrite append_cons. cbn [universal_newlines]. rewrite Hc. now rewrite (IH _ Hb).
Qed.

Lemma readlines_from_inner (b : string) : forall cur rest,
  all_chars inner_char b = true ->
  readlines_from cur (b +:+ String LF rest)
  = (cur +:+ b +:+ String LF "") :: readlines_from "" rest.
Proof.
  induction b as [|c b IH]; intros cur rest Hb.
  - change ("" +:+ ?x) with x. cbn [readlines_from]. rewrite Ascii.eqb_refl. reflexivity.
  - cbn [all_chars] in Hb. apply andb_true_iff in Hb as [Hc Hb].
    unfold inner_char in Hc. apply andb_true_iff in Hc as [Hc _]. apply negb_true_iff in Hc.
    rewrite append_cons. cbn [readlines_from]. rewrite Hc, (IH _ _ Hb).
    rewrite !append_assoc. reflexivity.
Qed.

(** The lines of a written netlist file are its records. *)
Lemma readlines_lines_text (nl : netlist) :
  tokenized nl -> readlines (lines_text nl) = map record_text nl.
Proof.
  unfold readlines. intros Hnl. induction nl as [|l nl IH]; [reflexivity|].
  apply Forall_cons in Hnl as [Hl Hnl]. specialize (IH Hnl).
  cbn [lines_text fold_right map]. fold (lines_text nl).
  unfold record_text at 1, newline. fold LF.
  rewrite append_assoc, append_cons. change ("" +:+ lines_text nl) with (lines_text nl).
  rewrite (universal_newlines_inner _ _ (record_inner l Hl)).
  rewrite (readlines_from_inner _ _ _ (record_inner l Hl)).
  rewrite IH. reflexivity.
Qed.

(** Reading a written netlist gives back the token lists it was written
    from. *)
Lemma read_back (nl : netlist) : tokenized nl -> read_netlist (lines_text nl) = nl.
Proof.
  intros Hnl. unfold read_netlist. rewrite (readlines_lines_text nl Hnl), map_map.
  induction nl as [|l nl IH]; [reflexivity|].
  apply Forall_cons in Hnl as [Hl Hnl]. cbn [map]. rewrite (words_record l Hl).
  f_equal. exact (IH Hnl).
Qed.

Lemma read_netlist_tokenized (text : string) : tokenized (read_netlist text).
Proof.
  unfold tokenized, read_netlist. apply Forall_map, Forall_forall. intros s _.
  apply words_tokens.
Qed.

(** X9: the netlist in memory is a normal form of the file. Whatever text the
    netlist was read from, writing it out the way the evaluation does never
    fails, and reading that file gives the very same token lists: only the
    layout of the white space is lost. *)
Theorem read_netlist_normal_form (text : string) :
  exists written,
    serialize (length (read_netlist text)) (read_netlist text) = Ok written
    /\ read_netlist written = read_netlist text.
Proof.
  exists (lines_text (read_netlist text)). split.
  - apply serialize_text.
  - apply read_back, read_netlist_tokenized.
Qed.

End ReaderFacts.

(** ** One evaluation after another *)

Module EvaluationFacts.
Import Codec Py Netlist Reader Startup Objective.
Import PyFacts NetlistFacts UpdateFacts ReaderFacts.

Lemma insert_value_eq (l1 l2 : line) (tok : string) :
  length l1 = length l2 -> (forall t, t <> 3%nat -> l1 !! t = l2 !! t) ->
  <[3%nat:=tok]> l1 = <[3%nat:=tok]> l2.
Proof.
  intros Hlen Hag. apply list_eq. intros t.
  destruct (decide (t = 3%nat)) as [->|Hne].
  - destruct (decide (3 < length l1)%nat) as [Hlt|Hge].
    + rewrite !list_lookup_insert_eq by lia. reflexivity.
    + rewrite !lookup_ge_None_2; [reflexivity| |]; rewrite length_insert; lia.
  - rewrite !list_lookup_insert_ne by congruence. now apply Hag.
Qed.

(** The same assignment on two netlists that agree: the same exception, or
    two netlists that agree and have the assigned line in common. *)
Lemma set_value_agree (P P' : nat -> Prop) (nl1 nl2 : netlist) (i : nat) (tok : string) :
  agree_but P nl1 nl2 -> (forall j, ~ P' j -> j = i \/ ~ P j) ->
  (exists f, set_value nl1 i tok = Fail f /\ set_value nl2 i tok = Fail f)
  \/ (exists a b, set_value nl1 i tok = Ok a /\ set_value nl2 i tok = Ok b
                  /\ agree_but P' a b).
Proof.
  intros [Hlen Hag] HP. unfold set_value, get_item.
  destruct (nl1 !! i) as [l1|] eqn:E1; destruct (nl2 !! i) as [l2|] eqn:E2.
  2:{ apply lookup_lt_Some in E1. apply lookup_ge_None in E2. lia. }
  2:{ apply lookup_lt_Some in E2. apply lookup_ge_None in E1. lia. }
  2:{ left. exists IndexError. split; reflexivity. }
  destruct (Hag i l1 l2 E1 E2) as (Hl & Htok & _).
  cbn [of_option mbind outcome_bind]. unfold set_item.
  destruct (decide (3 < length l1)%nat) as [H1|H1];
    destruct (decide (3 < length l2)%nat) as [H2|H2]; try lia.
  2:{ left. exists IndexError. split; reflexivity. }
  right. cbn [mbind outcome_bind]. do 2 eexists. split; [reflexivity|]. split; [reflexivity|].
  split; [now rewrite !length_insert|].
  intros j a b Ha Hb.
  destruct (decide (j = i)) as [->|Hne].
  - rewrite list_lookup_insert_eq in Ha by (now apply lookup_lt_Some in E1).
    rewrite list_lookup_insert_eq in Hb by (now apply lookup_lt_Some in E2).
    injection Ha as <-. injection Hb as <-.
    rewrite (insert_value_eq l1 l2 tok Hl Htok). auto.
  - rewrite list_lookup_insert_ne in Ha by congruence.
    rewrite list_lookup_insert_ne in Hb by congruence.
    destruct (Hag j a b Ha Hb) as (Hl' & Htok' & Heq). split; [exact Hl'|].
    split; [exact Htok'|]. intros Hn. apply Heq.
    destruct (HP j Hn) as [->|Hnp]; [contradiction|exact Hnp].
Qed.

Lemma agree_none (nl1 nl2 : netlist) :
  agree_but (fun _ => False) nl1 nl2 -> nl1 = nl2.
Proof.
  intros [Hlen Hag]. apply list_eq. intros j.
  destruct (nl1 !! j) as [l1|] eqn:E1; destruct (nl2 !! j) as [l2|] eqn:E2.
  - f_equal. apply (Hag j l1 l2 E1 E2). tauto.
  - apply lookup_lt_Some in E1. apply lookup_ge_None in E2. lia.
  - apply lookup_lt_Some in E2. apply lookup_ge_None in E1. lia.
  - reflexivity.
Qed.

Lemma agree_weaken (P Q : nat -> Prop) (nl1 nl2 : netlist) :
  (forall j, ~ Q j -> ~ P j) -> agree_but P nl1 nl2 -> agree_but Q nl1 nl2.
Proof.
  intros HPQ [Hlen Hag]. split; [exact Hlen|]. intros j l1 l2 H1 H2.
  destruct (Hag j l1 l2 H1 H2) as (Ha & Hb & Hc). auto.
Qed.

Section Evaluations.
Variable np_exp : Q -> Q.
Variable complex : Type.
Variable c_abs : complex -> Q.
Variable c_angle : complex -> Q.
Variable np_unwrap : list Q -> list Q.
Variable simulate : string -> Sync.run * raw complex.

(** The rest of the update loop does the same on two netlists that differ
    only in value tokens the loop is still to write. *)
Lemma write_from_agree (nomParams optParams : list Q) (OptLine : list nat) (cnt : nat) :
  forall (start : nat) (nl1 nl2 : netlist),
  agree_but (fun j => exists k, (start <= k < start + cnt)%nat /\ OptLine !! k = Some j) nl1 nl2 ->
  for_range_from start cnt
    (fun k nl => tok ← value_token np_exp nomParams optParams k;
                 line ← get_item OptLine k; set_value nl line tok) nl1
  = for_range_from start cnt
      (fun k nl => tok ← value_token np_exp nomParams optParams k;
                   line ← get_item OptLine k; set_value nl line tok) nl2.
Proof.
  induction cnt as [|cnt IH]; intros start nl1 nl2 Hag.
  - cbn [for_range_from]. f_equal. apply agree_none. revert Hag. apply agree_weaken.
    intros j _ (k & Hk & _). lia.
  - cbn [for_range_from].
    destruct (value_token np_exp nomParams optParams start) as [tok|f]; [|reflexivity].
    cbn [mbind outcome_bind].
    destruct (get_item OptLine start) as [i|f] eqn:Ei; [|reflexivity].
    apply get_item_Ok in Ei. cbn [mbind outcome_bind].
    destruct (set_value_agree _
                (fun j => exists k, (S start <= k < S start + cnt)%nat /\ OptLine !! k = Some j)
                nl1 nl2 i tok Hag) as [(f & -> & ->)|(a & b & -> & -> & Hab)].
    + intros j Hn. destruct (decide (j = i)) as [->|Hne]; [now left|right].
      intros (k & Hk & Hkj). destruct (decide (k = start)) as [->|Hks]; [congruence|].
      apply Hn. exists k. split; [lia|exact Hkj].
    + reflexivity.
    + cbn [mbind outcome_bind]. now apply IH.
Qed.

(** The update loop starting from the netlist an earlier evaluation left
    behind. *)
Lemma write_values_again (kw : kwargs) (p1 p2 : list Q) (nl1 : netlist) :
  write_values np_exp kw p1 = Ok nl1 ->
  write_values np_exp (with_netlist kw nl1) p2 = write_values np_exp kw p2.
Proof.
  intros H1. destruct (write_values_frame_upto np_exp kw p1 nl1 H1) as [Hlen Hfr].
  unfold write_values, for_range. cbn [with_netlist numOptdD nomParamsD OptLineD netlistD].
  apply write_from_agree. split; [exact Hlen|].
  intros j l1 l2 Hl1 Hl2. destruct (Hfr j l2 Hl2) as (l' & Hl' & Hlen' & Htok & Hsame).
  assert (l' = l1) as -> by congruence.
  split; [exact Hlen'|]. split; [exact Htok|].
  intros Hn. apply Hsame. intros k Hk Hkj. apply Hn. exists k. split; [lia|exact Hkj].
Qed.

(** X10: an evaluation does not depend on the evaluations made before it.
    The netlist is one list object that every evaluation updates in place, yet
    the evaluation of a parameter vector on the netlist an earlier evaluation
    has left behind is the evaluation on the netlist as it was read: the same
    netlist after the update and the same file, hence, the simulator
    answering the same file in the same way, the same residual or the same
    exception. *)
Theorem evaluation_history_independent (fuel1 fuel count1 count : nat)
    (p1 p2 : list Q) (kw : kwargs) (ev1 : evaluation) :
  optLTspice np_exp complex c_abs c_angle np_unwrap simulate fuel1 count1 p1 kw = Ok ev1 ->
  optLTspice np_exp complex c_abs c_angle np_unwrap simulate fuel count p2
    (with_netlist kw (netlist_after ev1))
  = optLTspice np_exp complex c_abs c_angle np_unwrap simulate fuel count p2 kw.
Proof.
  intros H1. assert (Hw : write_values np_exp kw p1 = Ok (netlist_after ev1)).
  { unfold optLTspice in H1. apply bind_Ok in H1 as (nl & Hnl & H1). rewrite Hnl. f_equal.
    apply bind_Ok in H1 as (text & _ & H1). destruct (simulate text) as [r LTR].
    apply bind_Ok in H1 as (reads & _ & H1). apply bind_Ok in H1 as (cur & _ & H1).
    destruct (decide _); [discriminate H1|].
    apply bind_Ok in H1 as (e1 & _ & H1). apply bind_Ok in H1 as (e2 & _ & [= <-]).
    reflexivity. }
  unfold optLTspice. rewrite (write_values_again kw p1 p2 _ Hw). reflexivity.
Qed.

(** Lines of tokens stay lines of tokens under the update loop. *)
Lemma format_e_token (prec : nat) (x : Q) : is_token (Format.format_e prec x) = true.
Proof.
  pose proof (RoundTripFacts.format_e_chars prec x) as H.
  assert (Hns : no_space (Format.format_e prec x) = true).
  { revert H. unfold Format.no_suffix_letter, no_space. apply CodecFacts.all_chars_impl.
    intros c. destruct c as [[] [] [] [] [] [] [] []]; vm_compute; congruence. }
  destruct (Format.format_e prec x) eqn:E; [|exact Hns].
  exfalso. unfold Format.format_e in E. destruct (Format.decompose prec (Qabs x)) as [m e].
  destruct (Qlt_le_dec x 0); destruct (Format.digits_fixed (S prec) m ""); discriminate E.
Qed.

Lemma write_values_tokenized (kw : kwargs) (optParams : list Q) (nl' : netlist) :
  tokenized (netlistD kw) -> write_values np_exp kw optParams = Ok nl' -> tokenized nl'.
Proof.
  intros Ht H. unfold write_values, for_range in H.
  apply (for_range_from_inv (fun _ nl => tokenized nl) _ _ 0%nat _ _ H Ht).
  clear H. intros k nl nl2 _ Hnl Hstep.
  apply write_step_Ok in Hstep as (x & i & l & _ & Hl & _ & ->).
  unfold tokenized in *. apply Forall_insert; [exact Hnl|].
  apply Forall_insert; [|apply format_e_token].
  rewrite Forall_lookup in Hnl. exact (Hnl i l Hl).
Qed.

(** X11: the file an evaluation writes holds exactly the netlist the
    evaluation leaves in memory. For a netlist of tokens, as [main] reads it,
    the update loop followed by the writing loop gives a text that the reader
    of [main] turns back into the updated netlist, token for token. *)
Theorem written_file_reads_back (kw : kwargs) (optParams : list Q) (nl' : netlist) :
  tokenized (netlistD kw) -> numlines_netlistD kw = length (netlistD kw) ->
  write_values np_exp kw optParams = Ok nl' ->
  exists text, serialize (numlines_netlistD kw) nl' = Ok text /\ read_netlist text = nl'.
Proof.
  intros Ht Hn Hw. exists (lines_text nl'). split.
  - destruct (write_values_frame_upto np_exp kw optParams nl' Hw) as [Hlen _].
    rewrite Hn, <- Hlen. apply serialize_text.
  - apply read_back. exact (write_values_tokenized kw optParams nl' Ht Hw).
Qed.

End Evaluations.

End EvaluationFacts.

(** ** From start-up to the evaluations *)

Module StartupFacts.
Import Codec Py Netlist Reader Startup Objective.
Import PyFacts NetlistFacts UpdateFacts ReaderFacts.

(** What a successful pass over the nominal values tells: every instance
    points at a line with a value token, and the value was read from it. *)
Lemma read_nominals_Ok (nl : netlist) (OptLine : list nat) (n : nat) (nom : list Q) :
  read_nominals nl OptLine n = Ok nom ->
  length nom = n /\ targets_valued nl OptLine n
  /\ forall k, (k < n)%nat ->
       exists i (l : line) tok v, OptLine !! k = Some i /\ nl !! i = Some l
         /\ l !! 3%nat = Some tok /\ parse_value tok = Ok v /\ nom !! k = Some v.
Proof.
  unfold read_nominals, for_range. intros H.
  pose (P := fun (k : nat) (nom : list Q) =>
               length nom = n
               /\ forall k', (k' < k)%nat ->
                    exists i (l : line) tok v, OptLine !! k' = Some i /\ nl !! i = Some l
                      /\ l !! 3%nat = Some tok /\ parse_value tok = Ok v
                      /\ nom !! k' = Some v).
  assert (HP : P (0 + n)%nat nom).
  { apply (for_range_from_inv P _ _ 0%nat _ _ H).
    - split; [apply length_replicate|]. intros k' Hk'. lia.
    - clear H. intros k s1 s2 Hk [Hlen Hinv] Hstep.
      apply bind_Ok in Hstep as (i & Hi%get_item_Ok & Hstep).
      apply bind_Ok in Hstep as (l & Hl%get_item_Ok & Hstep).
      apply bind_Ok in Hstep as (tok & Htok%get_item_Ok & Hstep).
      apply bind_Ok in Hstep as (v & Hv & Hstep).
      apply set_item_Ok in Hstep as [Hlt ->].
      split; [now rewrite length_insert|].
      intros k' Hk'. destruct (decide (k' = k)) as [->|Hne].
      + exists i, l, tok, v. repeat (split; [assumption|]).
        now apply list_lookup_insert_eq.
      + destruct (Hinv k') as (i' & l' & tok' & v' & H1 & H2 & H3 & H4 & H5); [lia|].
        exists i', l', tok', v'. repeat (split; [assumption|]).
        now rewrite list_lookup_insert_ne. }
  destruct HP as [Hlen Hall]. split; [exact Hlen|]. split; [|exact Hall].
  intros k Hk. destruct (Hall k Hk) as (i & l & tok & v & H1 & H2 & H3 & _).
  exists i, l. split; [exact H1|]. split; [exact H2|]. now apply lookup_lt_Some in H3.
Qed.

Section Safety.
Variable np_exp : Q -> Q.

(** With every target in place the update loop runs through, on any
    netlist of the shape of the one that was read. *)
Lemma write_from_total (nl0 : netlist) (nomParams optParams : list Q) (OptLine : list nat)
    (n : nat) :
  targets_valued nl0 OptLine n -> (n <= length nomParams)%nat -> (n <= length optParams)%nat ->
  forall (cnt start : nat) (nl : netlist),
  (start + cnt <= n)%nat ->
  length nl = length nl0 ->
  (forall j (l0 : line), nl0 !! j = Some l0 ->
     exists l : line, nl !! j = Some l /\ length l = length l0) ->
  exists nl',
    for_range_from start cnt
      (fun k nl => tok ← value_token np_exp nomParams optParams k;
                   line ← get_item OptLine k; set_value nl line tok) nl = Ok nl'.
Proof.
  intros Htv Hnom Hopt. induction cnt as [|cnt IH]; intros start nl Hle Hlen Hshape.
  - eexists. reflexivity.
  - cbn [for_range_from].
    destruct (lookup_lt_is_Some_2 nomParams start) as [nom Hn]; [lia|].
    destruct (lookup_lt_is_Some_2 optParams start) as [p Hp]; [lia|].
    destruct (Htv start) as (i & l0 & Hi & Hl0 & H3); [lia|].
    destruct (Hshape i l0 Hl0) as (l & Hl & Hll).
    unfold value_token. rewrite (get_item_Some _ _ _ Hn), (get_item_Some _ _ _ Hp).
    cbn [mbind outcome_bind]. rewrite (get_item_Some _ _ _ Hi). cbn [mbind outcome_bind].
    unfold set_value. rewrite (get_item_Some _ _ _ Hl). cbn [mbind outcome_bind].
    rewrite set_item_lt by lia. cbn [mbind outcome_bind].
    apply IH; [lia|now rewrite length_insert|].
    intros j l0' Hl0'. destruct (decide (j = i)) as [->|Hne].
    + assert (l0' = l0) as -> by congruence.
      eexists. split; [apply list_lookup_insert_eq; now apply lookup_lt_Some in Hl|].
      now rewrite length_insert.
    + rewrite list_lookup_insert_ne by congruence. now apply Hshape.
Qed.

(** X12: once the start-up of [main] has gone through, the update and the
    writing of an evaluation cannot fail: for every parameter vector with one
    entry per instance, each instance has its netlist line, the line has its
    value token, and all lines are written. *)
Theorem prepared_evaluation_writes (text : string) (names : list string) (maxv minv : list Q)
    (node : string) (matchMode : Z) (target errWeights : list Q) (kw : kwargs)
    (optParams : list Q) :
  prepare text names maxv minv node matchMode target errWeights = Ok kw ->
  length optParams = numOptdD kw ->
  exists nl' written,
    write_values np_exp kw optParams = Ok nl'
    /\ serialize (numlines_netlistD kw) nl' = Ok written.
Proof.
  unfold prepare. intros H Hp.
  apply bind_Ok in H as (st & _ & H). apply bind_Ok in H as (nom & Hnom & [= <-]).
  cbn [numOptdD] in Hp.
  destruct (read_nominals_Ok _ _ _ _ Hnom) as (Hlen & Htv & _).
  destruct (write_from_total (read_netlist text) nom optParams (OptLine st) (length names)
              Htv ltac:(lia) ltac:(lia) (length names) 0%nat (read_netlist text)
              ltac:(lia) eq_refl) as [nl' Hw].
  { intros j l0 Hl0. exists l0. auto. }
  exists nl', (lines_text nl'). split; [exact Hw|].
  cbn [numlines_netlistD].
  assert (Hl : length nl' = length (read_netlist text)).
  { exact (proj1 (write_values_frame_upto np_exp
                    {| LTspice_output_nodeD := node; matchModeD := matchMode;
                       targetD := target; errWeightsD := errWeights;
                       numlines_netlistD := length (read_netlist text);
                       netlistD := read_netlist text; nomParamsD := nom;
                       OptLineD := OptLine st; numOptdD := length names |}
                    optParams nl' Hw)). }
  rewrite <- Hl. apply serialize_text.
Qed.

End Safety.

(** Every exception of the inner scan is an IndexError. *)
Lemma scan_line_failure names maxv minv nl kk k st f :
  scan_line names maxv minv nl kk k st = Fail f -> f = IndexError.
Proof.
  unfold scan_line, get_item, set_item, of_option. intros H.
  repeat match type of H with
         | context [match ?o with Some _ => _ | None => _ end] => destruct o
         | context [if ?b then _ else _] => destruct b
         | (Ok _ ≫= _) = _ => cbn [mbind outcome_bind] in H
         | (Fail _ ≫= _) = _ => cbn [mbind outcome_bind] in H
         | Fail _ = Fail _ => injection H as <-
         | Ok _ = Fail _ => discriminate H
         end; reflexivity.
Qed.

Lemma scan_blank names maxv minv nl kk (cnt : nat) : forall start st b,
  (kk < length names)%nat -> nl !! b = Some [] -> (start <= b < start + cnt)%nat ->
  (start + cnt <= length nl)%nat ->
  for_range_from start cnt (scan_line names maxv minv nl kk) st = Fail IndexError.
Proof.
  induction cnt as [|cnt IH]; intros start st b Hkk Hb Hr Hle; [lia|].
  cbn [for_range_from].
  destruct (scan_line names maxv minv nl kk start st) as [st1|f] eqn:E.
  - cbn [mbind outcome_bind]. destruct (decide (b = start)) as [->|Hne].
    + exfalso. unfold scan_line in E. rewrite (get_item_Some _ _ _ Hb) in E.
      cbn [mbind outcome_bind] in E.
      destruct (lookup_lt_is_Some_2 names kk Hkk) as [name Hn].
      rewrite (get_item_Some _ _ _ Hn) in E. cbn [mbind outcome_bind] in E. discriminate E.
    + apply (IH (S start) st1 b); [assumption|assumption|lia|lia].
  - cbn [mbind outcome_bind]. f_equal. exact (scan_line_failure _ _ _ _ _ _ _ _ E).
Qed.

(** X13: a blank line in the netlist file stops the start-up with an
    IndexError as soon as one instance is to be tuned: the search for the
    instances reads the first token of every line. *)
Theorem blank_line_stops_startup (text : string) (names : list string) (maxv minv : list Q)
    (node : string) (matchMode : Z) (target errWeights : list Q) :
  In [] (read_netlist text) -> names <> [] ->
  prepare text names maxv minv node matchMode target errWeights = Fail IndexError.
Proof.
  intros Hin Hne. unfold prepare.
  assert (Hr : resolve names maxv minv (read_netlist text) = Fail IndexError).
  { unfold resolve, for_range. destruct names as [|name names]; [contradiction|].
    cbn [length for_range_from].
    apply list_elem_of_In, list_elem_of_lookup in Hin as [b Hb].
    rewrite (scan_blank _ maxv minv _ 0%nat (length (read_netlist text)) 0%nat _ b);
      [reflexivity|cbn [length]; lia|exact Hb| |lia].
    apply lookup_lt_Some in Hb. lia. }
  rewrite Hr. reflexivity.
Qed.

End StartupFacts.

(** ** When the synchronizer returns *)

Module PollFacts.
Import Sync.

(** The poll loop either meets a first read with another hash, or has seen
    the old hash at every read it was given time for. *)
Lemma poll_spec (r : run) (md5 : Z) (fuel : nat) : forall t,
  (exists n, (n < fuel)%nat /\ md5_at r (t + n) <> md5
             /\ (forall i, (i < n)%nat -> md5_at r (t + i) = md5)
             /\ poll fuel r md5 t = Ok (S (t + n)))
  \/ ((forall i, (i < fuel)%nat -> md5_at r (t + i) = md5) /\ poll fuel r md5 t = Fail Hang).
Proof.
  induction fuel as [|fuel IH]; intros t.
  - right. split; [intros i Hi; lia|reflexivity].
  - cbn [poll]. destruct (Z.eqb_spec (md5_at r t) md5) as [E|E].
    + destruct (IH (S t)) as [(n & Hn & Hat & Hbefore & Hp)|[Hall Hp]].
      * left. exists (S n). replace (t + S n)%nat with (S t + n)%nat by lia.
        split; [lia|]. split; [exact Hat|]. split; [|exact Hp].
        intros i Hi. destruct i as [|i]; [now rewrite Nat.add_0_r|].
        replace (t + S i)%nat with (S t + i)%nat by lia. apply Hbefore. lia.
      * right. split; [|exact Hp]. intros i Hi. destruct i as [|i]; [now rewrite Nat.add_0_r|].
        replace (t + S i)%nat with (S t + i)%nat by lia. apply Hall. lia.
    + left. exists 0%nat. rewrite Nat.add_0_r. split; [lia|]. split; [exact E|].
      split; [intros i Hi; lia|reflexivity].
Qed.

(** X14: the three ways a synchronized run can go. [runSim] returns exactly
    when the launch reported status 0 and some read of the artifact found a
    hash other than the one taken before the launch, and it returns at the
    first such read, whether or not the simulator has finished writing; it
    exits exactly when such a read came after a launch with another status;
    and it is still waiting exactly when every read so far has found the old
    hash. *)
Theorem runSim_outcomes (fuel : nat) (r : run) :
  (forall reads,
     runSim fuel r = Ok reads
     <-> status r = 0
         /\ exists n, reads = S n /\ (n < fuel)%nat /\ md5_at r n <> md5_before r
                      /\ forall i, (i < n)%nat -> md5_at r i = md5_before r)
  /\ (runSim fuel r = Fail SysExit
      <-> status r <> 0
          /\ exists n, (n < fuel)%nat /\ md5_at r n <> md5_before r)
  /\ (runSim fuel r = Fail Hang
      <-> forall i, (i < fuel)%nat -> md5_at r i = md5_before r).
Proof.
  unfold runSim.
  destruct (poll_spec r (md5_before r) fuel 0%nat) as [(n & Hn & Hat & Hbefore & ->)|[Hall ->]];
    cbn [mbind outcome_bind Nat.add] in *.
  - assert (Huniq : forall m, (m < fuel)%nat -> md5_at r m <> md5_before r ->
                (forall i, (i < m)%nat -> md5_at r i = md5_before r) -> m = n).
    { intros m Hm Hm1 Hm2. destruct (Nat.lt_trichotomy m n) as [Hlt|[Heq|Hgt]];
        [|exact Heq|].
      - exfalso. apply Hm1. now apply Hbefore.
      - exfalso. apply Hat. now apply Hm2. }
    destruct (Z.eqb_spec (status r) 0) as [E|E]; cbn [negb].
    + split; [|split].
      * intros reads. split.
        -- intros [= <-]. split; [exact E|]. exists n. auto.
        -- intros [_ (m & -> & Hm & Hm1 & Hm2)]. now rewrite (Huniq m Hm Hm1 Hm2).
      * split; [discriminate|]. intros [Hs _]. contradiction.
      * split; [discriminate|]. intros H. exfalso. apply Hat. now apply H.
    + split; [|split].
      * intros reads. split; [discriminate|]. intros [Hs _]. contradiction.
      * split; [|reflexivity]. intros _. split; [exact E|]. exists n. auto.
      * split; [discriminate|]. intros H. exfalso. apply Hat. now apply H.
  - split; [|split].
    + intros reads. split; [discriminate|].
      intros [_ (m & _ & Hm & Hm1 & _)]. exfalso. apply Hm1. now apply Hall.
    + split; [discriminate|]. intros [_ (m & Hm & Hm1)]. exfalso. apply Hm1. now apply Hall.
    + split; [intros _; exact Hall|reflexivity].
Qed.

End PollFacts.

(** ** A suffix the codec does not know *)

Module SuffixFacts.
Import Codec CodecFacts.

Lemma pyfloat_bad_exponent (s es : string) :
  plain s = true -> parse_exponent es = None -> pyfloat (s +:+ String "e" es) = None.
Proof.
  intros Hs He. unfold pyfloat. rewrite (split_at_plain_e s es Hs), He.
  destruct (parse_mantissa s) as [[mz f]|]; reflexivity.
Qed.

(** X15: the suffix Meg, the way LTspice spells mega, is not read in any
    capitalisation: after a bare numeral it stops the start-up with a
    ValueError, the leading letter being taken for M or m and the rest left
    behind in the exponent. *)
Theorem meg_suffix_rejected (s suf : string) :
  plain s = true -> lower suf = "meg"%string ->
  parse_value (s +:+ suf) = Fail ValueError.
Proof.
  intros Hs Hsuf.
  assert (Hcases : exists es, parse_exponent es = None
             /\ all_chars is_numeric_char (replace (String micro "") "u" suf) = false
             /\ subst_suffixes (replace (String micro "") "u" suf) = String "e" es).
  { destruct suf as [|a [|b [|c [|d suf]]]]; try discriminate Hsuf.
    cbn [lower] in Hsuf. injection Hsuf as Ha Hb Hc.
    assert (Ea : a = "m"%char \/ a = "M"%char).
    { clear -Ha. destruct a as [[] [] [] [] [] [] [] []]; vm_compute in Ha;
        try discriminate Ha; auto. }
    assert (Eb : b = "e"%char \/ b = "E"%char).
    { clear -Hb. destruct b as [[] [] [] [] [] [] [] []]; vm_compute in Hb;
        try discriminate Hb; auto. }
    assert (Ec : c = "g"%char \/ c = "G"%char).
    { clear -Hc. destruct c as [[] [] [] [] [] [] [] []]; vm_compute in Hc;
        try discriminate Hc; auto. }
    destruct Ea as [-> | ->], Eb as [-> | ->], Ec as [-> | ->];
      eexists; (split; [|split; [|vm_compute; reflexivity]]); reflexivity. }
  destruct Hcases as (es & Hes & Hnum & Hsub).
  unfold parse_value. rewrite (micro_app_plain s suf Hs).
  rewrite (isnumeric_app_false s _ Hnum). cbn [negb].
  rewrite (subst_suffixes_app_plain s _ Hs), Hsub.
  now rewrite (pyfloat_bad_exponent s es Hs Hes).
Qed.

End SuffixFacts.

(** ** Preferred values on the schematic *)

Module PreferredFacts.
Import Codec Numeric Format Quantizer.
Import NumericFacts FormatFacts RoundTripFacts.

Lemma floor_log10_unique (a : Q) (c : Z) :
  (pow10 c <= a)%Q -> (a < pow10 (c + 1))%Q -> floor_log10 a = c.
Proof.
  intros Hlo Hhi. assert (Ha : (0 < a)%Q) by (pose proof (pow10_pos c); lra).
  destruct (floor_log10_spec a Ha) as [Hl Hh].
  destruct (Z.lt_trichotomy (floor_log10 a) c) as [Hlt|[Heq|Hgt]]; [|exact Heq|].
  - pose proof (pow10_le (floor_log10 a + 1) c ltac:(lia)). lra.
  - pose proof (pow10_le (c + 1) (floor_log10 a) ltac:(lia)). lra.
Qed.

Lemma round_half_even_int (t : Q) (n : Z) : (t == inject_Z n)%Q -> round_half_even t = n.
Proof.
  intros Ht. unfold round_half_even.
  assert (Hf : Qfloor t = n) by (rewrite (Qfloor_comp _ _ Ht); apply Qfloor_Z).
  rewrite Hf. destruct (Qcompare_spec (t - inject_Z n) (1 # 2)) as [E|E|E]; [lra|reflexivity|lra].
Qed.

(** A value that has no more digits than are printed is decomposed into
    exactly those digits. *)
Lemma decompose_exact (prec : nat) (a : Q) (n k : Z) :
  (a == inject_Z n * pow10 k)%Q -> 10 ^ Z.of_nat prec <= n < 10 ^ (Z.of_nat prec + 1) ->
  decompose prec a = (n, k + Z.of_nat prec).
Proof.
  intros Ha [Hn1 Hn2].
  assert (Hp0 : 0 < 10 ^ Z.of_nat prec) by (apply Z.pow_pos_nonneg; lia).
  pose proof (pow10_pos k) as Hk.
  assert (HP : pow10 (Z.of_nat prec) = inject_Z (10 ^ Z.of_nat prec))
    by (apply pow10_nonneg_inject; lia).
  assert (Hq1 : (inject_Z (10 ^ Z.of_nat prec) <= inject_Z n)%Q) by now rewrite <- Zle_Qle.
  assert (Hq2 : (inject_Z n < 10 * inject_Z (10 ^ Z.of_nat prec))%Q).
  { change 10%Q with (inject_Z 10). rewrite <- inject_Z_mult, <- Zlt_Qlt.
    rewrite Z.pow_add_r in Hn2 by lia. change (10 ^ 1) with 10 in Hn2. lia. }
  assert (Hq0 : (0 < inject_Z (10 ^ Z.of_nat prec))%Q).
  { change 0%Q with (inject_Z 0). now rewrite <- Zlt_Qlt. }
  assert (E1 : (pow10 (k + Z.of_nat prec) == pow10 k * inject_Z (10 ^ Z.of_nat prec))%Q)
    by (rewrite pow10_add, HP; reflexivity).
  assert (Hlog : floor_log10 a = k + Z.of_nat prec).
  { apply floor_log10_unique.
    - rewrite E1, Ha. nra.
    - rewrite pow10_succ, E1, Ha. nra. }
  unfold decompose.
  destruct (Qeq_bool a 0) eqn:E0.
  { apply Qeq_bool_iff in E0. rewrite E0 in Ha. exfalso. nra. }
  rewrite Hlog. replace (k + Z.of_nat prec - Z.of_nat prec) with k by lia.
  rewrite (round_half_even_int (a / pow10 k) n).
  2:{ rewrite Ha. field. lra. }
  destruct (Z.eqb_spec n (10 ^ (Z.of_nat prec + 1))) as [E|E]; [lia|reflexivity].
Qed.


End PreferredFacts.

(** ** The schematic rewriter *)

Module SchematicFacts.
Import Codec Py Netlist Reader Quantizer Bins Objective Schematic.
Import PyFacts ReaderFacts.

Lemma for_each_app {A St : Type} (body : A -> St -> outcome St) (l1 l2 : list A) (s : St) :
  for_each (l1 ++ l2) body s = (s1 ← for_each l1 body s; for_each l2 body s1).
Proof.
  revert s. induction l1 as [|x l1 IH]; intros s; [reflexivity|].
  cbn [for_each app]. destruct (body x s) as [s1|f]; [|reflexivity].
  cbn [mbind outcome_bind]. apply IH.
Qed.

Lemma list_index_Ok (l : list string) (x : string) (i : nat) :
  list_index l x = Ok i -> l !! i = Some x.
Proof.
  revert i. induction l as [|y l IH]; intros i H; [discriminate H|].
  cbn [list_index] in H. destruct (String.eqb_spec y x) as [->|Hne].
  - injection H as <-. reflexivity.
  - apply bind_Ok in H as (j & Hj & [= <-]). now apply IH.
Qed.

(** What a successful quantization of the pending value tells. *)
Lemma quantized_Ok (st : rewriter) (y : Q) :
  quantized st = Ok y ->
  exists v ns, instValNext st = Some v /\ E_SERIES (roundStringNext st) = Some ns
               /\ (0 < v)%Q /\ in_bin ns Arithmetic v y.
Proof.
  unfold quantized. intros H.
  destruct (instValNext st) as [v|]; [|discriminate H].
  cbn [of_option mbind outcome_bind] in H.
  destruct (E_SERIES (roundStringNext st)) as [ns|] eqn:HE.
  2:{ unfold round63 in H. rewrite HE in H. discriminate H. }
  destruct (idr v) eqn:Hv.
  2:{ unfold round63 in H. rewrite HE in H. rewrite filter_cons, filter_nil in H.
      destruct (decide (idr v = true)) as [Ht|_]; [congruence|]. discriminate H. }
  apply BinFacts.idr_true in Hv.
  destruct (BinFacts.round63_scalar_bin (roundStringNext st) "arithmetic" ns Arithmetic v
              HE eq_refl Hv) as (y' & Hr & Hb).
  change (round63 [v] (roundStringNext st) None)
    with (round63 [v] (roundStringNext st) (Some "arithmetic"%string)) in H.
  rewrite Hr in H. cbn [mbind outcome_bind] in H. injection H as <-.
  exists v, ns. auto.
Qed.

Section Rewriter.
Variable np_exp : Q -> Q.
Variable kw : kwargs.
Variable X : list Q.
Variables tols names : list string.

Local Abbreviation tuned := (Schematic.tuned kw).
Local Abbreviation tuned_value := (Schematic.tuned_value np_exp kw X tols names).
Local Abbreviation quantized_for := (Schematic.quantized_for np_exp kw X tols names).
Local Abbreviation armed_for := (Schematic.armed_for np_exp kw X tols names).
Local Abbreviation carried := (Schematic.carried np_exp kw X tols names).
Local Abbreviation line_ok := (Schematic.line_ok np_exp kw X tols names).
Local Abbreviation chain := (Schematic.chain np_exp kw X tols names).
Local Abbreviation match_instance := (Schematic.match_instance np_exp kw X tols names).
Local Abbreviation rewrite_line := (Schematic.rewrite_line np_exp kw X tols names).
Local Abbreviation update_schematic := (Schematic.update_schematic np_exp kw X tols names).

(** The designator of the [kk]-th tuned instance is [instNm]. *)
Local Abbreviation designates kk instNm :=
  (exists i (l : line), OptLineD kw !! kk = Some i /\ netlistD kw !! i = Some l
                        /\ l !! 0%nat = Some instNm).

Lemma match_instance_Ok (instNm : string) (kk : nat) (st st1 : rewriter) :
  match_instance instNm kk st = Ok st1 ->
  new_schem st1 = new_schem st
  /\ ((~ designates kk instNm /\ st1 = st)
      \/ (designates kk instNm /\ changeNext st1 = true
          /\ exists nom x xx, nomParamsD kw !! kk = Some nom /\ X !! kk = Some x
               /\ list_index names instNm = Ok xx
               /\ tols !! xx = Some (roundStringNext st1)
               /\ instValNext st1 = Some (nom * np_exp x)%Q)).
Proof.
  unfold Schematic.match_instance. intros H.
  apply bind_Ok in H as (i & Hi%get_item_Ok & H).
  apply bind_Ok in H as (l & Hl%get_item_Ok & H).
  apply bind_Ok in H as (d & Hd%get_item_Ok & H).
  destruct (String.eqb_spec d instNm) as [->|Hne].
  - apply bind_Ok in H as (xx & Hxx & H).
    apply bind_Ok in H as (nom & Hnom%get_item_Ok & H).
    apply bind_Ok in H as (x & Hx%get_item_Ok & H).
    apply bind_Ok in H as (tol & Htol%get_item_Ok & [= <-]).
    cbn [new_schem changeNext roundStringNext instValNext]. split; [reflexivity|].
    right. split; [exists i, l; auto|]. split; [reflexivity|].
    exists nom, x, xx. auto.
  - injection H as <-. split; [reflexivity|]. left. split; [|reflexivity].
    intros (i' & l' & Hi' & Hl' & Hd'). congruence.
Qed.

(** The loop over the tuned instances: the line that follows is changed
    exactly when some tuned instance has the designator read. *)
Lemma match_loop (instNm : string) (st0 st1 : rewriter) :
  changeNext st0 = false ->
  for_range (numOptdD kw) (match_instance instNm) st0 = Ok st1 ->
  new_schem st1 = new_schem st0 /\ carried st1 (Some instNm).
Proof.
  intros H0 H. unfold for_range in H.
  pose (P := fun (k : nat) (st : rewriter) =>
               (k <= numOptdD kw)%nat
               /\ new_schem st = new_schem st0
               /\ (changeNext st = true <-> exists kk, (kk < k)%nat /\ designates kk instNm)
               /\ (changeNext st = true -> armed_for st instNm)).
  assert (HP : P (0 + numOptdD kw)%nat st1).
  { apply (for_range_from_inv P _ _ 0%nat _ _ H).
    - split; [lia|]. split; [reflexivity|]. split.
      + split; [congruence|]. intros (kk & Hkk & _). lia.
      + congruence.
    - clear H. intros k s1 s2 Hk (Hle & Hs & Hiff & Harm) Hstep.
      apply match_instance_Ok in Hstep as [Hn [[Hnd ->]|(Hd & Hc & nom & x & xx & Hs2)]].
      + split; [lia|]. split; [exact Hs|]. split; [|exact Harm].
        rewrite Hiff. split.
        * intros (kk & Hkk & Hdk). exists kk. split; [lia|exact Hdk].
        * intros (kk & Hkk & Hdk). exists kk. split; [|exact Hdk].
          destruct (decide (kk = k)) as [->|Hne]; [contradiction|lia].
      + split; [lia|]. split; [congruence|]. split.
        * split; [|intros _; exact Hc]. intros _. exists k. split; [lia|exact Hd].
        * intros _. destruct Hd as (i & l & Hi & Hl & Hl0).
          destruct Hs2 as (Hnom & Hx & Hxx & Htol & Hv).
          eexists. split; [exact Hv|].
          exists k, i, l, nom, x, xx. repeat (split; [first [assumption|lia|reflexivity]|]).
          exact Htol. }
  destruct HP as (_ & Hs & Hiff & Harm). split; [exact Hs|]. split; [|exact Harm].
  rewrite Hiff. cbn [Nat.add]. split.
  - intros (kk & Hkk & i & l & H1 & H2 & H3). exists kk, i, l. auto.
  - intros (kk & i & l & Hkk & H1 & H2 & H3). exists kk. split; [exact Hkk|]. exists i, l. auto.
Qed.

(** One pass of the loop over the schematic lines. *)
Lemma rewrite_line_Ok (text : string) (st st' : rewriter) (pn : option string) :
  carried st pn -> rewrite_line text st = Ok st' ->
  exists rec, new_schem st' = new_schem st ++ [rec]
              /\ line_ok pn text rec /\ carried st' (name_of text rec).
Proof.
  intros Hc H. unfold Schematic.rewrite_line in H.
  apply bind_Ok in H as ([line0 cn0] & Hfirst & H).
  apply bind_Ok in H as (tag & Htag%get_item_Ok & H).
  apply bind_Ok in H as (st1 & Hsecond & [= <-]).
  cbn [new_schem].
  (* the line as written, against the line as read *)
  assert (Hline : cn0 = false
            /\ Forall (fun t => is_token t = true) line0
            /\ length line0 = length (words text)
            /\ (forall t, t <> 2%nat -> line0 !! t = words text !! t)
            /\ (changeNext st = false -> line0 = words text)
            /\ (changeNext st = true ->
                exists v ns y, instValNext st = Some v
                  /\ E_SERIES (roundStringNext st) = Some ns /\ (0 < v)%Q
                  /\ in_bin ns Arithmetic v y
                  /\ line0 !! 2%nat = Some (Format.format_e 3 y))).
  { destruct (changeNext st) eqn:Hcn.
    - apply bind_Ok in Hfirst as (y & Hq & Hfirst).
      apply bind_Ok in Hfirst as (l2 & [Hlt ->]%set_item_Ok & [= <- <-]).
      split; [reflexivity|]. split.
      { apply Forall_insert; [apply words_tokens|apply EvaluationFacts.format_e_token]. }
      split; [now rewrite length_insert|]. split.
      { intros t Ht. now rewrite list_lookup_insert_ne by congruence. }
      split; [discriminate|]. intros _.
      destruct (quantized_Ok st y Hq) as (v & ns & Hv & HE & Hpos & Hbin).
      exists v, ns, y. repeat (split; [assumption|]). now apply list_lookup_insert_eq.
    - injection Hfirst as <- <-. split; [reflexivity|].
      split; [apply words_tokens|]. split; [reflexivity|]. split; [reflexivity|].
      split; [reflexivity|discriminate]. }
  destruct Hline as (-> & Htok & Hlen & Hoff & Hsame & Hnew).
  exists (record_text line0). split; [|split].
  - (* the new record joins the records of the lines before *)
    f_equal. destruct (String.eqb tag "InstName").
    + apply bind_Ok in Hsecond as (instNm & _ & Hloop).
      now apply match_loop in Hloop as [-> _].
    + now injection Hsecond as <-.
  - unfold Schematic.line_ok. rewrite (words_record line0 Htok).
    split; [reflexivity|]. split.
    { rewrite <- Hlen. apply lookup_lt_Some in Htag. lia. }
    split; [exact Hlen|]. split; [exact Hoff|].
    destruct pn as [instNm|]; cbn [Schematic.carried] in Hc.
    + destruct Hc as [Hiff Harm]. split.
      * intros Hnt. apply Hsame. destruct (changeNext st); [|reflexivity].
        exfalso. apply Hnt. now apply Hiff.
      * intros Ht%Hiff. destruct (Hnew Ht) as (v & ns & y & Hv & HE & Hpos & Hbin & H2).
        destruct (Harm Ht) as (v' & Hv' & Htv). assert (v' = v) as -> by congruence.
        exists (Format.format_e 3 y). split; [exact H2|].
        exists v, (roundStringNext st), ns, y. split; [exact Htv|]. split; [exact HE|].
        split; [exact Hpos|]. split; [apply Hbin|]. split; [|reflexivity].
        intros g Hg. now apply (BinFacts.in_bin_nearest ns).
    + now apply Hsame.
  - unfold Schematic.name_of, names_instance. rewrite (words_record line0 Htok).
    rewrite <- (Hoff 1%nat) by lia. rewrite Htag.
    destruct (String.eqb tag "InstName").
    + apply bind_Ok in Hsecond as (instNm & HinstNm%get_item_Ok & Hloop).
      apply match_loop in Hloop as [_ Hcar]; [|reflexivity].
      rewrite HinstNm. exact Hcar.
    + injection Hsecond as <-. reflexivity.
Qed.

(** The loop over the schematic lines. *)
Lemma rewrite_lines_Ok (lines : list string) : forall (st st' : rewriter) (pn : option string),
  carried st pn -> for_each lines rewrite_line st = Ok st' ->
  exists recs, new_schem st' = new_schem st ++ recs /\ chain pn lines recs.
Proof.
  induction lines as [|text lines IH]; intros st st' pn Hc H.
  - injection H as <-. exists []. split; [now rewrite app_nil_r|exact I].
  - cbn [for_each] in H. apply bind_Ok in H as (st1 & H1 & H).
    destruct (rewrite_line_Ok text st st1 pn Hc H1) as (rec & Hs1 & Hok & Hc1).
    destruct (IH st1 st' _ Hc1 H) as (recs & Hs & Hch).
    exists (rec :: recs). split.
    + rewrite Hs, Hs1, <- app_assoc. reflexivity.
    + cbn [Schematic.chain]. split; assumption.
Qed.

Lemma chain_length (lines : list string) : forall pn recs,
  chain pn lines recs -> length recs = length lines.
Proof.
  induction lines as [|text lines IH]; intros pn [|rec recs] H; try contradiction.
  - reflexivity.
  - destruct H as [_ H]. cbn [length]. f_equal. exact (IH _ _ H).
Qed.

Lemma chain_at (lines : list string) : forall pn recs i text,
  chain pn lines recs -> lines !! i = Some text ->
  exists rec pn', recs !! i = Some rec /\ line_ok pn' text rec
    /\ match i with
       | O => pn' = pn
       | S j => exists p r, lines !! j = Some p /\ recs !! j = Some r /\ pn' = name_of p r
       end.
Proof.
  induction lines as [|t lines IH]; intros pn [|r recs] i text H Hi; try contradiction.
  - discriminate Hi.
  - destruct H as [Hok H]. destruct i as [|j].
    + injection Hi as <-. exists r, pn. auto.
    + cbn in Hi. destruct (IH _ _ j text H Hi) as (rec & pn' & Hrec & Hl & Hprev).
      exists rec, pn'. split; [exact Hrec|]. split; [exact Hl|].
      destruct j as [|j'].
      * exists t, r. auto.
      * destruct Hprev as (p & r' & Hp & Hr' & Hpn). exists p, r'. auto.
Qed.

Lemma update_schematic_chain (schem : string) (out : list string) :
  update_schematic schem = Ok out -> chain None (readlines schem) out.
Proof.
  unfold Schematic.update_schematic. intros H. apply bind_Ok in H as (st & H & [= <-]).
  apply (rewrite_lines_Ok _ _ _ None) in H as (recs & Hs & Hch); [|reflexivity].
  cbn [new_schem app] in Hs. now rewrite Hs.
Qed.

(** X17: what the schematic rewriter leaves alone. When it succeeds it
    writes one record per line read; every line read has at least two tokens;
    a record is the tokens of its line joined by single spaces; no token but
    the third of a line is ever changed, and no token at all of a line that
    does not come right after a line naming an instance. *)
Theorem update_schematic_frame (schem : string) (out : list string) :
  update_schematic schem = Ok out ->
  length out = length (readlines schem)
  /\ forall i text, readlines schem !! i = Some text ->
       exists rec, out !! i = Some rec
         /\ rec = record_text (words rec)
         /\ (2 <= length (words text))%nat
         /\ length (words rec) = length (words text)
         /\ (forall t, t <> 2%nat -> words rec !! t = words text !! t)
         /\ (~ follows_instance (readlines schem) i -> words rec = words text).
Proof.
  intros H%update_schematic_chain. split; [now apply chain_length in H|].
  intros i text Hi. destruct (chain_at _ _ _ i text H Hi) as (rec & pn' & Hrec & Hok & Hprev).
  exists rec. split; [exact Hrec|].
  destruct Hok as (H1 & H2 & H3 & H4 & H5). repeat (split; [assumption|]).
  intros Hnf. assert (pn' = None) as ->; [|exact H5].
  destruct i as [|j]; [exact Hprev|].
  destruct Hprev as (p & r & Hp & _ & ->). unfold Schematic.name_of.
  destruct (names_instance p) eqn:E; [|reflexivity].
  exfalso. apply Hnf. exists j, p. auto.
Qed.

(** X18: what the schematic rewriter writes. After a line that names an
    instance, the third token of the next line is replaced exactly when a
    tuned netlist line has that very designator: the designator is then
    among the listed instance names, the series listed for it is supported,
    the optimized value is positive, and the token is a series point nearest
    to the optimized value, written with three fraction digits. A line after
    the name of an instance that is not tuned keeps all its tokens. *)
Theorem update_schematic_values (schem : string) (out : list string) (j : nat)
    (prev text rp rec instNm : string) :
  update_schematic schem = Ok out ->
  readlines schem !! j = Some prev -> names_instance prev = true ->
  out !! j = Some rp -> words rp !! 2%nat = Some instNm ->
  readlines schem !! S j = Some text -> out !! S j = Some rec ->
  (tuned instNm -> exists tok, words rec !! 2%nat = Some tok /\ quantized_for instNm tok)
  /\ (~ tuned instNm -> words rec = words text).
Proof.
  intros H%update_schematic_chain Hprev Hn Hrp Hname Htext Hrec.
  destruct (chain_at _ _ _ (S j) text H Htext) as (rec' & pn' & Hrec' & Hok & p & r & Hp & Hr & ->).
  assert (rec' = rec) as -> by congruence.
  assert (p = prev) as -> by congruence. assert (r = rp) as -> by congruence.
  unfold Schematic.name_of in Hok. rewrite Hn, Hname in Hok.
  destruct Hok as (_ & _ & _ & _ & Hno & Hyes). split; assumption.
Qed.

(** The loop over the tuned instances runs through. *)
Lemma match_loop_total (Hq : Schematic.quantizable np_exp kw X tols names)
    (instNm : string) (cnt : nat) : forall (start : nat) (st : rewriter),
  (start + cnt <= numOptdD kw)%nat -> Schematic.ready st ->
  exists st1, for_range_from start cnt (match_instance instNm) st = Ok st1
              /\ Schematic.ready st1.
Proof.
  induction cnt as [|cnt IH]; intros start st Hle Hr.
  - exists st. split; [reflexivity|exact Hr].
  - cbn [for_range_from].
    destruct (Hq start ltac:(lia))
      as (i & l & d & xx & ser & ns & nom & x & Hi & Hl & Hd & Hxx & Hser & HE & Hnom & Hx & Hpos).
    assert (Hstep : exists st1, match_instance instNm start st = Ok st1 /\ Schematic.ready st1).
    { unfold Schematic.match_instance.
      rewrite (get_item_Some _ _ _ Hi). cbn [mbind outcome_bind].
      rewrite (get_item_Some _ _ _ Hl). cbn [mbind outcome_bind].
      rewrite (get_item_Some _ _ _ Hd). cbn [mbind outcome_bind].
      destruct (String.eqb_spec d instNm) as [<-|Hne].
      - rewrite Hxx. cbn [mbind outcome_bind].
        rewrite (get_item_Some _ _ _ Hnom). cbn [mbind outcome_bind].
        rewrite (get_item_Some _ _ _ Hx). cbn [mbind outcome_bind].
        rewrite (get_item_Some _ _ _ Hser). cbn [mbind outcome_bind].
        eexists. split; [reflexivity|]. intros _.
        cbn [instValNext roundStringNext]. exists (nom * np_exp x)%Q, ns. auto.
      - exists st. split; [reflexivity|exact Hr]. }
    destruct Hstep as (st1 & -> & Hr1). cbn [mbind outcome_bind].
    apply IH; [lia|exact Hr1].
Qed.

(** One pass over a line that has the tokens the pass indexes. *)
Lemma rewrite_line_total (Hq : Schematic.quantizable np_exp kw X tols names)
    (text : string) (st : rewriter) :
  Schematic.ready st -> (2 <= length (words text))%nat ->
  (changeNext st = true \/ names_instance text = true -> (3 <= length (words text))%nat) ->
  exists st', rewrite_line text st = Ok st' /\ Schematic.ready st'
              /\ (changeNext st' = true -> names_instance text = true).
Proof.
  intros Hr H2 H3. unfold Schematic.rewrite_line.
  assert (Hfirst : exists line0,
            (if changeNext st
             then newVal ← quantized st;
                  line ← set_item (words text) 2 (Format.format_e 3 newVal);
                  Ok (line, false)
             else Ok (words text, changeNext st)) = Ok (line0, false)
            /\ length line0 = length (words text)
            /\ line0 !! 1%nat = words text !! 1%nat).
  { destruct (changeNext st) eqn:Hcn.
    - destruct (Hr Hcn) as (v & ns & Hv & Hpos & HE).
      destruct (BinFacts.round63_scalar_bin (roundStringNext st) "arithmetic" ns Arithmetic v
                  HE eq_refl Hpos) as (y & Hy & _).
      unfold quantized. rewrite Hv. cbn [of_option mbind outcome_bind].
      change (round63 [v] (roundStringNext st) None)
        with (round63 [v] (roundStringNext st) (Some "arithmetic"%string)).
      rewrite Hy. cbn [mbind outcome_bind].
      rewrite set_item_lt by (specialize (H3 (or_introl eq_refl)); lia).
      cbn [mbind outcome_bind]. eexists. split; [reflexivity|].
      split; [now rewrite length_insert|]. now rewrite list_lookup_insert_ne by lia.
    - exists (words text). auto. }
  destruct Hfirst as (line0 & -> & Hlen & H1). cbn [mbind outcome_bind].
  destruct (lookup_lt_is_Some_2 line0 1%nat ltac:(lia)) as [tag Htag].
  rewrite (get_item_Some _ _ _ Htag). cbn [mbind outcome_bind].
  assert (Hn : names_instance text = String.eqb tag "InstName").
  { unfold names_instance. now rewrite <- H1, Htag. }
  destruct (String.eqb tag "InstName") eqn:Et.
  - destruct (lookup_lt_is_Some_2 line0 2%nat) as [instNm HinstNm].
    { specialize (H3 (or_intror Hn)). lia. }
    rewrite (get_item_Some _ _ _ HinstNm). cbn [mbind outcome_bind].
    unfold for_range.
    edestruct (match_loop_total Hq instNm (numOptdD kw) 0%nat) as (st1 & -> & Hr1);
      [lia|discriminate|].
    cbn [mbind outcome_bind]. eexists. split; [reflexivity|]. split; [exact Hr1|auto].
  - cbn [mbind outcome_bind]. eexists. split; [reflexivity|].
    cbn [changeNext]. split; [discriminate|discriminate].
Qed.

Lemma rewrite_lines_total (Hq : Schematic.quantizable np_exp kw X tols names)
    (lines : list string) : forall (after : bool) (st : rewriter),
  Schematic.rewritable_from after lines -> Schematic.ready st ->
  (changeNext st = true -> after = true) ->
  exists st', for_each lines rewrite_line st = Ok st'.
Proof.
  induction lines as [|text lines IH]; intros after st Hl Hr Ha.
  - exists st. reflexivity.
  - destruct Hl as (H2 & H3 & Hrest). cbn [for_each].
    destruct (rewrite_line_total Hq text st Hr H2) as (st1 & -> & Hr1 & Hn1).
    { intros [Hc|Hn]; apply H3; [left; now apply Ha|now right]. }
    cbn [mbind outcome_bind]. exact (IH _ st1 Hrest Hr1 Hn1).
Qed.

(** X19: when the schematic rewriter runs through. It writes the new
    schematic whenever every line of the schematic has two tokens, and three
    if it names an instance or follows a line that does, and every tuned
    instance has its netlist line with a designator that is literally one of
    the listed names, a supported series at the position of that name, and a
    positive optimized value. *)
Theorem update_schematic_succeeds (schem : string) :
  Schematic.rewritable (readlines schem) -> Schematic.quantizable np_exp kw X tols names ->
  exists out, update_schematic schem = Ok out.
Proof.
  intros Hl Hq. unfold Schematic.update_schematic.
  edestruct (rewrite_lines_total Hq (readlines schem) false) as (st' & ->);
    [exact Hl|discriminate|discriminate|].
  cbn [mbind outcome_bind]. eexists. reflexivity.
Qed.

(** After a line naming a tuned instance has been passed, its name has been
    found among the listed names. *)
Lemma rewrite_lines_listed (lines : list string) :
  forall (st st' : rewriter) (pn : option string) (recs : list string),
  carried st pn -> for_each lines rewrite_line st = Ok st' ->
  new_schem st' = new_schem st ++ recs ->
  forall j text rec instNm,
    lines !! j = Some text -> recs !! j = Some rec -> names_instance text = true ->
    words rec !! 2%nat = Some instNm -> tuned instNm ->
    exists xx ser, list_index names instNm = Ok xx /\ tols !! xx = Some ser.
Proof.
  induction lines as [|text0 lines IH]; intros st st' pn recs Hc H Hs j text rec instNm Hj;
    [discriminate Hj|].
  cbn [for_each] in H. apply bind_Ok in H as (st1 & H1 & H).
  destruct (rewrite_line_Ok text0 st st1 pn Hc H1) as (rec0 & Hs1 & _ & Hc1).
  destruct (rewrite_lines_Ok lines st1 st' _ Hc1 H) as (recs' & Hs' & _).
  assert (recs = rec0 :: recs') as ->.
  { rewrite Hs1, <- app_assoc in Hs'. rewrite Hs' in Hs. now apply app_inv_head in Hs. }
  destruct j as [|j].
  - injection Hj as <-. intros [= <-] Hn Hname Ht.
    unfold Schematic.name_of in Hc1. rewrite Hn, Hname in Hc1. destruct Hc1 as [Hiff Harm].
    destruct (Harm (proj2 Hiff Ht))
      as (v & _ & kk & i & l & nom & x & xx & _ & _ & _ & _ & _ & _ & _ & Hxx & Hser).
    exists xx, (roundStringNext st1). auto.
  - intros Hrec. exact (IH st1 st' _ recs' Hc1 H Hs' j text rec instNm Hj Hrec).
Qed.

(** X20: the schematic rewriter asks more of the instance names than the
    start-up does. If it succeeds, every name of an instance it has written
    out that is the designator of a tuned netlist line is literally one of
    the listed names, with a tolerance at its position; a tuned designator
    that merely contains a listed name, which the start-up accepts, makes the
    rewriter fail. *)
Theorem update_schematic_needs_listed_names (schem : string) (out : list string) (j : nat)
    (text rec instNm : string) :
  update_schematic schem = Ok out ->
  readlines schem !! j = Some text -> names_instance text = true ->
  out !! j = Some rec -> words rec !! 2%nat = Some instNm -> tuned instNm ->
  In instNm names
  /\ exists xx ser, list_index names instNm = Ok xx /\ tols !! xx = Some ser.
Proof.
  unfold Schematic.update_schematic. intros H Hj Hn Hrec Hname Ht.
  apply bind_Ok in H as (st & H & [= <-]).
  set (st0 := {| changeNext := false; instValNext := None;
                 roundStringNext := "E96"; new_schem := [] |}) in H.
  assert (Hc0 : carried st0 None) by reflexivity.
  destruct (rewrite_lines_Ok _ _ _ None Hc0 H) as (recs & Hs & _).
  cbn [st0 new_schem app] in Hs. rewrite Hs in Hrec.
  destruct (rewrite_lines_listed _ _ _ None recs Hc0 H Hs j text rec instNm
              Hj Hrec Hn Hname Ht) as (xx & ser & Hxx & Hser).
  split; [|exists xx, ser; auto].
  apply list_elem_of_In, (list_elem_of_lookup_2 _ xx). now apply list_index_Ok.
Qed.

End Rewriter.

End SchematicFacts.

(** ** More concrete scenarios *)

Module MoreScenarios.
Import Codec Netlist Reader Startup Objective Quantizer Bins Schematic Examples Fixtures.

Lemma round63_array_elementwise_witness :
  exists ys,
    round63 [1; -2; 15]%Q "E6" (Some (policy_name Arithmetic)) = Ok (map Some ys)
    /\ length ys = length (positive_entries [1; -2; 15]%Q)
    /\ Forall2 (fun t y =>
                  In y (extended_series E6 1 [15%Q])
                  /\ exists y', round63 [t] "E6" (Some (policy_name Arithmetic)) = Ok [Some y']
                                /\ (y == y')%Q)
         (positive_entries [1; -2; 15]%Q) ys.
Proof.
  apply (BinFacts.round63_array_elementwise [1; -2; 15]%Q "E6" E6 Arithmetic 1%Q [15%Q]).
  - reflexivity.
  - vm_compute. reflexivity.
Defined.

Lemma round63_nearest_witness :
  exists y, round63 [(1105 # 1)%Q] "E96" None = Ok [Some y] /\ on_series E96 y
            /\ forall g, on_series E96 g -> (Qabs ((1105 # 1) - y) <= Qabs ((1105 # 1) - g))%Q.
Proof.
  apply (BinFacts.round63_nearest "E96" E96 (1105 # 1)%Q).
  - reflexivity.
  - reflexivity.
Defined.




Lemma evaluation_history_independent_witness :
  optLTspice exp_series Q real_abs real_angle unwrap_flat simulate_two_points
    5 1 [(1 # 10)%Q] (with_netlist kw_both (netlist_after first_evaluation))
  = optLTspice exp_series Q real_abs real_angle unwrap_flat simulate_two_points
      5 1 [(1 # 10)%Q] kw_both.
Proof.
  apply (EvaluationFacts.evaluation_history_independent exp_series Q real_abs real_angle
           unwrap_flat simulate_two_points 5 5 0 1 [0%Q] [(1 # 10)%Q] kw_both
           first_evaluation).
  vm_compute. reflexivity.
Defined.

Lemma written_file_reads_back_witness :
  exists text,
    serialize (numlines_netlistD kw_both) netlist3_written = Ok text
    /\ read_netlist text = netlist3_written.
Proof.
  apply (EvaluationFacts.written_file_reads_back exp_series kw_both [0%Q] netlist3_written).
  - unfold tokenized. cbn [kw_both netlistD netlist3]. repeat constructor.
  - reflexivity.
  - vm_compute. reflexivity.
Defined.

Lemma prepared_evaluation_writes_witness :
  exists nl' written,
    write_values exp_series kw_prepared [(1 # 10)%Q] = Ok nl'
    /\ serialize (numlines_netlistD kw_prepared) nl' = Ok written.
Proof.
  apply (StartupFacts.prepared_evaluation_writes exp_series netlist_text ["R1"%string]
           [2000%Q] [500%Q] "V(out)" 1 [] [] kw_prepared [(1 # 10)%Q]).
  - vm_compute. reflexivity.
  - reflexivity.
Defined.

Lemma blank_line_stops_startup_witness :
  prepare netlist_text_blank ["R1"%string] [2000%Q] [500%Q] "V(out)" 1 [] []
  = Fail IndexError.
Proof.
  apply (StartupFacts.blank_line_stops_startup netlist_text_blank ["R1"%string]
           [2000%Q] [500%Q] "V(out)" 1 [] []).
  - vm_compute. right. left. reflexivity.
  - discriminate.
Defined.

Lemma meg_suffix_rejected_witness :
  parse_value ("4.7" +:+ "Meg") = Fail ValueError.
Proof.
  apply (SuffixFacts.meg_suffix_rejected "4.7" "Meg").
  - reflexivity.
  - reflexivity.
Defined.


Lemma update_schematic_frame_witness :
  length schematic_opt = length (readlines schematic_text)
  /\ forall i text, readlines schematic_text !! i = Some text ->
       exists rec, schematic_opt !! i = Some rec
         /\ rec = record_text (words rec)
         /\ (2 <= length (words text))%nat
         /\ length (words rec) = length (words text)
         /\ (forall t, t <> 2%nat -> words rec !! t = words text !! t)
         /\ (~ follows_instance (readlines schematic_text) i -> words rec = words text).
Proof.
  apply (SchematicFacts.update_schematic_frame exp_series kw_both [(1 # 10)%Q]
           ["E96"%string] ["R1"%string] schematic_text schematic_opt).
  vm_compute. reflexivity.
Defined.

Lemma update_schematic_values_witness :
  (tuned kw_both "R1" ->
   exists tok, words ("SYMATTR Value 1.100e+03" +:+ newline) !! 2%nat = Some tok
               /\ quantized_for exp_series kw_both [(1 # 10)%Q] ["E96"%string] ["R1"%string]
                    "R1" tok)
  /\ (~ tuned kw_both "R1" ->
      words ("SYMATTR Value 1.100e+03" +:+ newline) = words ("SYMATTR Value 1k" +:+ newline)).
Proof.
  apply (SchematicFacts.update_schematic_values exp_series kw_both [(1 # 10)%Q]
           ["E96"%string] ["R1"%string] schematic_text schematic_opt 1%nat
           ("SYMATTR InstName R1" +:+ newline) ("SYMATTR Value 1k" +:+ newline)
           ("SYMATTR InstName R1" +:+ newline) ("SYMATTR Value 1.100e+03" +:+ newline)
           "R1").
  - vm_compute. reflexivity.
  - vm_compute. reflexivity.
  - vm_compute. reflexivity.
  - vm_compute. reflexivity.
  - vm_compute. reflexivity.
  - vm_compute. reflexivity.
  - vm_compute. reflexivity.
Defined.

Lemma update_schematic_succeeds_witness :
  exists out,
    update_schematic exp_series kw_both [(1 # 10)%Q] ["E96"%string] ["R1"%string]
      schematic_text = Ok out.
Proof.
  apply (SchematicFacts.update_schematic_succeeds exp_series kw_both [(1 # 10)%Q]
           ["E96"%string] ["R1"%string] schematic_text).
  - vm_compute. repeat split; intros; lia.
  - intros kk Hkk. destruct kk as [|kk]; [|cbn in Hkk; lia].
    exists 0%nat, ["R1"; "out"; "0"; "1k"]%string, "R1"%string, 0%nat, "E96"%string, E96,
      1000%Q, (1 # 10)%Q.
    repeat split; vm_compute; reflexivity.
Defined.

Lemma update_schematic_needs_listed_names_witness :
  In "R1"%string ["R1"%string]
  /\ exists xx ser, list_index ["R1"%string] "R1" = Ok xx /\ ["E96"%string] !! xx = Some ser.
Proof.
  apply (SchematicFacts.update_schematic_needs_listed_names exp_series kw_both [(1 # 10)%Q]
           ["E96"%string] ["R1"%string] schematic_text schematic_opt 1%nat
           ("SYMATTR InstName R1" +:+ newline) ("SYMATTR InstName R1" +:+ newline) "R1").
  - vm_compute. reflexivity.
  - vm_compute. reflexivity.
  - vm_compute. reflexivity.
  - vm_compute. reflexivity.
  - vm_compute. reflexivity.
  - exists 0%nat, 0%nat, ["R1"; "out"; "0"; "1k"]%string. repeat split. cbn. lia.
Defined.

(** The start-up takes R10 for the listed R1 and the optimization runs, but
    the schematic is not written: the designator is not in the list. *)
Lemma contained_name_scenario :
  prepare netlist_text_r10 ["R1"%string] [2000%Q] [500%Q] "V(out)" 1 [] [] = Ok kw_r10
  /\ update_schematic exp_series kw_r10 [0%Q] ["E96"%string] ["R1"%string] schematic_text_r10
     = Fail ValueError.
Proof. split; vm_compute; reflexivity. Qed.

End MoreScenarios.
